(** * The join engine of the partial evaluator, and shape-link resolution

    A shallow embedding of [JoinImplementation] (the effects-and-completion
    join) and of [ShapeInformation._resolveLinksAndWrap], with the properties
    the specification states about them.

    JavaScript objects that the code compares by reference or mutates in
    place (Effects records, completions, generators) live in arenas indexed
    by locations; everything the code only reads (values, descriptors,
    binding maps) is plain data.  Functions that throw or mutate are written
    in a state-and-exception monad. *)

From stdpp Require Import base option list strings gmap.

Set Warnings "-register-all".

(** ** The state-and-exception monad *)

(** What a [throw] can carry out of the engine.  [InvariantViolation] is the
    error raised by [invariant(false)], [FatalError] the class of the same
    name; [IllTyped] and [DanglingReference] are the model's own: an argument
    that breaks its declared Flow type behind an [any] cast, and a location
    that is not in its arena (no JavaScript reference dangles). *)
Inductive Exn := InvariantViolation | FatalError | IllTyped | DanglingReference.

Inductive Outcome (A : Type) :=
| Ok (a : A)
| Throw (e : Exn).
Arguments Ok {A} a.
Arguments Throw {A} e.

Definition M (S A : Type) : Type := S -> Outcome A * S.

#[global] Instance M_ret {S} : MRet (M S) := fun A a s => (Ok a, s).
#[global] Instance M_bind {S} : MBind (M S) := fun A B f m s =>
  match m s with
  | (Ok a, s') => f a s'
  | (Throw e, s') => (Throw e, s')
  end.

Definition throw {S A} (e : Exn) : M S A := fun s => (Throw e, s).
Definition get_state {S} : M S S := fun s => (Ok s, s).
Definition put_state {S} (s : S) : M S unit := fun _ => (Ok tt, s).
Definition modify_state {S} (f : S -> S) : M S unit := fun s => (Ok tt, f s).

(** Modelled from the spec: [invariant(cond)] of invariant.js, which raises
    the fatal internal error when [cond] is false. *)
Definition invariant {S} (cond : bool) : M S unit :=
  if cond then mret tt else throw InvariantViolation.

(** Runs a computation on one component of a larger state. *)
Definition zoom {S T A} (get : T -> S) (set : S -> T -> T) (m : M S A) : M T A :=
  fun t => let '(r, s') := m (get t) in (r, set s' t).

(** A [for] loop over a list, left to right, threading an accumulator. *)
Fixpoint foldM {S A B} (f : B -> A -> M S B) (l : list A) (b : B) : M S B :=
  match l with
  | [] => mret b
  | a :: l' => b' ← f b a; foldM f l' b'
  end.

Fixpoint mapM_ {S A B} (f : A -> M S B) (l : list A) : M S (list B) :=
  match l with
  | [] => mret []
  | a :: l' => b ← f a; bs ← mapM_ f l'; mret (b :: bs)
  end.

(** ** JavaScript maps and sets

    A [Map<K, V>] keeps its keys in insertion order and holds each key once;
    a stored value may itself be [undefined], which [get] does not tell from
    a missing key.  So a map is an association list whose values are
    [option X], [X] being the defined values. *)
Section JSMap.
Context {K : Type} `{EqDecision K} {X : Type}.

Definition keys (m : list (K * option X)) : list K := m.*1.

Fixpoint map_find (m : list (K * option X)) (k : K) : option (option X) :=
  match m with
  | [] => None
  | (k', v) :: m' => if decide (k' = k) then Some v else map_find m' k
  end.

(** [m.get(k)] *)
Definition map_get (m : list (K * option X)) (k : K) : option X :=
  match map_find m k with Some v => v | None => None end.

(** [m.has(k)] *)
Definition map_has (m : list (K * option X)) (k : K) : bool :=
  match map_find m k with Some _ => true | None => false end.

(** [m.set(k, v)]: an existing key keeps its place. *)
Fixpoint map_set (m : list (K * option X)) (k : K) (v : option X) : list (K * option X) :=
  match m with
  | [] => [(k, v)]
  | (k', v') :: m' =>
      if decide (k' = k) then (k', v) :: m' else (k', v') :: map_set m' k v
  end.
End JSMap.
Abbreviation JSMap K X := (list (K * option X)).

(** A [Set<T>]: insertion-ordered, each element once. *)
Section JSSet.
Context {T : Type} `{EqDecision T}.

Definition set_has (s : list T) (x : T) : bool := bool_decide (x ∈ s).
Definition set_add (s : list T) (x : T) : list T :=
  if set_has s x then s else s ++ [x].
End JSSet.
Abbreviation JSSet T := (list T).

(** A [switch] on a string, each of whose cases returns: the value of the
    first case that is the string, or of the [default]. *)
Fixpoint switch {A} (s : string) (cases : list (string * A)) (default : A) : A :=
  match cases with
  | [] => default
  | (c, a) :: cases => if decide (s = c) then a else switch s cases default
  end.

(** ** joinMaps *)
Section JoinMaps.
Context {S K X : Type} `{EqDecision K}.

(** [joinMaps(m1, m2, join)]: [m3] is the local map being filled. *)
Definition joinMaps (m1 m2 : JSMap K X)
    (join : K -> option X -> option X -> M S (option X)) : M S (JSMap K X) :=
  let m3 : JSMap K X := [] in
  m3 ← foldM (fun m3 '(key, val1) =>
                let val2 := map_get m2 key in
                val3 ← join key val1 val2;
                mret (map_set m3 key val3)) m1 m3;
  m3 ← foldM (fun m3 '(key, val2) =>
                if negb (map_has m1 key) then
                  val3 ← join key None val2;
                  mret (map_set m3 key val3)
                else mret m3) m2 m3;
  mret m3.

(** The calls [join(key, val1, val2)] that [joinMaps] makes, in order. *)
Definition join_calls (m1 m2 : JSMap K X) : list (K * option X * option X) :=
  map (fun '(key, val1) => (key, val1, map_get m2 key)) m1
  ++ map (fun '(key, val2) => (key, None, val2))
       (filter (fun e => map_has m1 e.1 = false) m2).

(** One iteration of either loop of [joinMaps], on a call. *)
Definition call_body (join : K -> option X -> option X -> M S (option X))
    (m3 : JSMap K X) (c : K * option X * option X) : M S (JSMap K X) :=
  val3 ← join c.1.1 c.1.2 c.2; mret (map_set m3 c.1.1 val3).
End JoinMaps.

(** ** The value model

    Values, conditions and the operations on them belong to modules the join
    engine only consumes (values/index.js, methods/index.js); they are taken
    as parameters.  [Value] equality is JavaScript's [===] on value objects. *)
Class ValueModel := {
  Value : Type;
  Value_eq_dec :: EqDecision Value;
  Location : Type;
  (** [v instanceof AbstractValue] *)
  isAbstractValue : Value -> bool;
  (** [v instanceof EmptyValue] *)
  isEmptyValue : Value -> bool;
  mightNotBeTrue : Value -> bool;
  mightNotBeFalse : Value -> bool;
  (** [StrictEqualityComparison(realm, x, y)] on concrete values *)
  StrictEqualityComparison : Value -> Value -> bool;
  (** [AbstractValue.createFromConditionalOp(realm, c, v1, v2)] *)
  createFromConditionalOp : Value -> option Value -> option Value -> Value;
  (** [c.expressionLocation] *)
  expressionLocation : Value -> option Location;
}.

Section Values.
Context `{VM : ValueModel}.

Record Realm := {
  intrinsics_empty : Value;
  intrinsics_undefined : Value;
  pathConditions : list Value;
}.

(** [{ $Key, $Value }] *)
Record MapEntry := { Key : option Value; Val : option Value }.

(** An [Array<Value> | Array<{ $Key, $Value }>]. *)
Inductive JSArray :=
| ArrayOfValues (a : list Value)
| ArrayOfMapEntries (a : list MapEntry).

(** What [joinValues] takes (when defined) and returns. *)
Inductive ValueOrArray :=
| AValue (v : Value)
| AnArray (a : JSArray).

(** The [any] casts of [joinArrays]: an empty array passes for either
    kind, a non-empty one only for its own. *)
Definition as_values {S} (a : option JSArray) : M S (option (list Value)) :=
  match a with
  | None => mret None
  | Some (ArrayOfValues l) => mret (Some l)
  | Some (ArrayOfMapEntries []) => mret (Some [])
  | Some (ArrayOfMapEntries _) => throw IllTyped
  end.

Definition as_entries {S} (a : option JSArray) : M S (option (list MapEntry)) :=
  match a with
  | None => mret None
  | Some (ArrayOfMapEntries l) => mret (Some l)
  | Some (ArrayOfValues []) => mret (Some [])
  | Some (ArrayOfValues _) => throw IllTyped
  end.

(** [(a && a.length) || 0] *)
Definition length_or_0 {A} (a : option (list A)) : nat :=
  match a with Some l => length l | None => 0 end.

(** [a && a[i]] *)
Definition index {A} (a : option (list A)) (i : nat) : option A :=
  match a with Some l => l !! i | None => None end.

Section Arrays.
Context {S : Type}.
Variable realm : Realm.
Variable getAbstractValue : option Value -> option Value -> M S Value.

Definition joinArrayOfsMapEntries (a1 a2 : option (list MapEntry)) : M S (list MapEntry) :=
  let empty := intrinsics_empty realm in
  let n := max (length_or_0 a1) (length_or_0 a2) in
  mapM_ (fun i =>
           let '{| Key := key1; Val := val1 |} :=
             default {| Key := Some empty; Val := Some empty |} (index a1 i) in
           let '{| Key := key2; Val := val2 |} :=
             default {| Key := Some empty; Val := Some empty |} (index a2 i) in
           if bool_decide (key1 = None) && bool_decide (key2 = None) then
             mret {| Key := None; Val := None |}
           else
             key3 ← getAbstractValue key1 key2;
             val3 ← getAbstractValue val1 val2;
             mret {| Key := Some key3; Val := Some val3 |}) (seq 0 n).

Definition joinArraysOfValues (a1 a2 : option (list Value)) : M S (list Value) :=
  let n := max (length_or_0 a1) (length_or_0 a2) in
  mapM_ (fun i => getAbstractValue (index a1 i) (index a2 i)) (seq 0 n).

(** [e = (v1 && v1[0]) || (v2 && v2[0])], then [e instanceof Value]. *)
Definition first_is_Value (v : option JSArray) : option bool :=
  match v with
  | Some (ArrayOfValues (_ :: _)) => Some true
  | Some (ArrayOfMapEntries (_ :: _)) => Some false
  | _ => None
  end.

Definition joinArrays (v1 v2 : option JSArray) : M S JSArray :=
  let e := match first_is_Value v1 with Some b => Some b | None => first_is_Value v2 end in
  if default false e then
    a1 ← as_values v1; a2 ← as_values v2;
    r ← joinArraysOfValues a1 a2; mret (ArrayOfValues r)
  else
    a1 ← as_entries v1; a2 ← as_entries v2;
    r ← joinArrayOfsMapEntries a1 a2; mret (ArrayOfMapEntries r).

Definition isArray (v : option ValueOrArray) : bool :=
  match v with Some (AnArray _) => true | _ => false end.

Definition the_array (v : option ValueOrArray) : option JSArray :=
  match v with Some (AnArray a) => Some a | _ => None end.

Definition the_value (v : option ValueOrArray) : option Value :=
  match v with Some (AValue x) => Some x | _ => None end.

(** Modelled from the spec: [v.throwIfNotConcrete()] of values/index.js,
    the dereference to concrete form; a concrete value is returned as it
    is, an abstract one raises [FatalError]. *)
Definition throwIfNotConcrete (v : Value) : M S Value :=
  if isAbstractValue v then throw FatalError else mret v.

Definition joinValues (v1 v2 : option ValueOrArray) : M S ValueOrArray :=
  if isArray v1 || isArray v2 then
    invariant (bool_decide (v1 = None) || isArray v1);;
    invariant (bool_decide (v2 = None) || isArray v2);;
    r ← joinArrays (the_array v1) (the_array v2); mret (AnArray r)
  else
    let v1 := the_value v1 in
    let v2 := the_value v2 in
    same ← match v1, v2 with
           | Some x1, Some x2 =>
               if negb (isAbstractValue x1) && negb (isAbstractValue x2) then
                 c1 ← throwIfNotConcrete x1;
                 c2 ← throwIfNotConcrete x2;
                 mret (StrictEqualityComparison c1 c2)
               else mret false
           | _, _ => mret false
           end;
    match same, v1 with
    | true, Some x1 => mret (AValue x1)
    | _, _ => r ← getAbstractValue v1 v2; mret (AValue r)
    end.
End Arrays.

(** The value that [joinValues] returns on two defined values and an
    abstraction function that neither throws nor touches the state. *)
Definition joined_value (g : option Value -> option Value -> Value) (a b : Value) : Value :=
  if negb (isAbstractValue a) && negb (isAbstractValue b) && StrictEqualityComparison a b
  then a else g (Some a) (Some b).

(** The same for two values either of which may be undefined. *)
Definition joined_option_value (g : option Value -> option Value -> Value)
    (v1 v2 : option Value) : Value :=
  match v1, v2 with
  | Some a, Some b => joined_value g a b
  | _, _ => g v1 v2
  end.

(** ** Bindings, descriptors, generators, effects, completions *)

(** A location in an arena. *)
Abbreviation loc := nat.

(** A variable slot of environment.js; [binding_id] stands for the
    object's identity. *)
Record Binding := {
  binding_id : nat;
  binding_hasLeaked : bool;
  binding_value : option Value;
}.

Record BindingEntry := {
  hasLeaked : option bool;
  value : option Value;
  previousHasLeaked : option bool;
  previousValue : option Value;
}.

Abbreviation Bindings := (JSMap Binding BindingEntry).

Inductive Descriptor := {
  writable : option bool;
  enumerable : option bool;
  configurable : option bool;
  d_value : option ValueOrArray;
  get : option Value;
  set : option Value;
  joinCondition : option Value;
  descriptor1 : option Descriptor;
  descriptor2 : option Descriptor;
}.

Inductive PropertyKey := StringKey (s : string) | ValueKey (v : Value).

Record PropertyBinding := {
  object : Value;
  key : option PropertyKey;
  descriptor : option Descriptor;
}.

Abbreviation PropertyBindings := (JSMap PropertyBinding Descriptor).
Abbreviation CreatedObjects := (JSSet Value).

#[global] Instance MapEntry_eq_dec : EqDecision MapEntry.
Proof. solve_decision. Defined.
#[global] Instance JSArray_eq_dec : EqDecision JSArray.
Proof. solve_decision. Defined.
#[global] Instance ValueOrArray_eq_dec : EqDecision ValueOrArray.
Proof. solve_decision. Defined.
#[global] Instance Binding_eq_dec : EqDecision Binding.
Proof. solve_decision. Defined.
#[global] Instance BindingEntry_eq_dec : EqDecision BindingEntry.
Proof. solve_decision. Defined.
#[global] Instance PropertyKey_eq_dec : EqDecision PropertyKey.
Proof. solve_decision. Defined.

#[global] Instance Descriptor_eq_dec : EqDecision Descriptor.
Proof.
  unfold EqDecision, Decision. fix IH 1. intros x y.
  decide equality; try solve_decision.
  all: decide equality.
Defined.
#[global] Instance PropertyBinding_eq_dec : EqDecision PropertyBinding.
Proof. solve_decision. Defined.

(** Modelled from the spec: the [Generator] class (utils/generator.js is
    not part of the sources at hand).  A generator is an append-only log of
    residual operations with the path conditions of its creation; it
    supports an emptiness check, appending another generator's entries,
    recording a binding-assignment entry, and recording the conditional
    block of two joined generators. *)
Inductive GeneratorEntry :=
| BindingAssignment (b : Binding) (v : Value)
| JoinedGenerators (joinCondition : Value) (generator1 generator2 : loc)
| ResidualOperation (tag : nat).

Record Generator := {
  g_name : string;
  g_pathConditions : list Value;
  g_entries : list GeneratorEntry;
}.

(** [Effects] of realm.js: [result] points at a completion (or reference)
    object, [generator] at a generator object. *)
Record Effects := {
  result : loc;
  generator : loc;
  modifiedBindings : Bindings;
  modifiedProperties : PropertyBindings;
  createdObjects : CreatedObjects;
}.

(** The classes of completions.js.  [target] belongs to the two jump
    completions; the two fork classes carry their join condition and the
    locations of their children. *)
Inductive CompletionClass :=
| SimpleNormalCompletion
| PossiblyNormalCompletion (joinCondition : Value) (consequent alternate : loc)
    (savedPathConditions : list Value) (savedEffects : option loc)
| BreakCompletion (target : option string)
| ContinueCompletion (target : option string)
| ReturnCompletion
| ThrowCompletion
| ForkedAbruptCompletion (joinCondition : Value) (consequent alternate : loc).

Record Completion := {
  class : CompletionClass;
  c_value : Value;
  effects : option loc;
  location : option Location;
}.

(** An [EvaluationResult] is a completion or a [Reference]. *)
Inductive EvaluationResult :=
| ACompletion (c : Completion)
| AReference.

(** [c instanceof AbruptCompletion] *)
Definition isAbruptCompletion (c : CompletionClass) : bool :=
  match c with
  | BreakCompletion _ | ContinueCompletion _ | ReturnCompletion | ThrowCompletion
  | ForkedAbruptCompletion _ _ _ => true
  | _ => false
  end.

(** [c instanceof NormalCompletion] *)
Definition isNormalCompletion (c : CompletionClass) : bool :=
  match c with
  | SimpleNormalCompletion | PossiblyNormalCompletion _ _ _ _ _ => true
  | _ => false
  end.

Definition isSimpleNormalCompletion (c : CompletionClass) : bool :=
  match c with SimpleNormalCompletion => true | _ => false end.

Definition isPossiblyNormalCompletion (c : CompletionClass) : bool :=
  match c with PossiblyNormalCompletion _ _ _ _ _ => true | _ => false end.

(** The arenas, and the diagnostics that
    [AbstractValue.reportIntrospectionError] hands to the realm's error
    handler. *)
Record Heap := {
  generators : list Generator;
  effectses : list Effects;
  results : list EvaluationResult;
  diagnostics : list Value;
}.

Definition with_generators (f : list Generator -> list Generator) (h : Heap) : Heap :=
  {| generators := f (generators h); effectses := effectses h;
     results := results h; diagnostics := diagnostics h |}.
Definition with_effectses (f : list Effects -> list Effects) (h : Heap) : Heap :=
  {| generators := generators h; effectses := f (effectses h);
     results := results h; diagnostics := diagnostics h |}.
Definition with_results (f : list EvaluationResult -> list EvaluationResult) (h : Heap) : Heap :=
  {| generators := generators h; effectses := effectses h;
     results := f (results h); diagnostics := diagnostics h |}.
Definition with_diagnostics (f : list Value -> list Value) (h : Heap) : Heap :=
  {| generators := generators h; effectses := effectses h;
     results := results h; diagnostics := f (diagnostics h) |}.

Definition deref {A} (arena : Heap -> list A) (l : loc) : M Heap A :=
  fun h => match arena h !! l with
           | Some x => (Ok x, h)
           | None => (Throw DanglingReference, h)
           end.

Definition read_generator : loc -> M Heap Generator := deref generators.
Definition read_effects : loc -> M Heap Effects := deref effectses.
Definition read_result : loc -> M Heap EvaluationResult := deref results.

Definition update_generator (l : loc) (f : Generator -> Generator) : M Heap unit :=
  g ← read_generator l; modify_state (with_generators (fun a => <[l := f g]> a)).
Definition update_effects (l : loc) (f : Effects -> Effects) : M Heap unit :=
  e ← read_effects l; modify_state (with_effectses (fun a => <[l := f e]> a)).
Definition update_result (l : loc) (f : EvaluationResult -> EvaluationResult) : M Heap unit :=
  r ← read_result l; modify_state (with_results (fun a => <[l := f r]> a)).

Definition alloc_generator (g : Generator) : M Heap loc :=
  fun h => (Ok (length (generators h)), with_generators (fun a => a ++ [g]) h).
Definition alloc_effects (e : Effects) : M Heap loc :=
  fun h => (Ok (length (effectses h)), with_effectses (fun a => a ++ [e]) h).
Definition alloc_result (r : EvaluationResult) : M Heap loc :=
  fun h => (Ok (length (results h)), with_results (fun a => a ++ [r]) h).

(** *** Generator methods *)

(** Modelled from the spec: [new Generator(realm, name, pathConditions)] of
    utils/generator.js, a new empty log. *)
Definition new_Generator (realm : Realm) (name : string) (pcs : list Value) : M Heap loc :=
  alloc_generator {| g_name := name; g_pathConditions := pcs; g_entries := [] |}.

Definition add_entries (es : list GeneratorEntry) (g : Generator) : Generator :=
  {| g_name := g_name g; g_pathConditions := g_pathConditions g;
     g_entries := g_entries g ++ es |}.

(** Modelled from the spec: [g.empty()] of utils/generator.js, the
    emptiness check. *)
Definition Generator_empty (g : loc) : M Heap bool :=
  go ← read_generator g; mret (bool_decide (g_entries go = [])).

(** Modelled from the spec: [this.appendGenerator(other, leadingComment)]
    of utils/generator.js, which appends the other generator's entries. *)
Definition appendGenerator (this other : loc) (leadingComment : string) : M Heap unit :=
  o ← read_generator other; update_generator this (add_entries (g_entries o)).

(** Modelled from the spec: [this.emitBindingAssignment(b, v)] of
    utils/generator.js, which records a binding-assignment entry. *)
Definition emitBindingAssignment (this : loc) (b : Binding) (v : Value) : M Heap unit :=
  update_generator this (add_entries [BindingAssignment b v]).

(** Modelled from the spec: [this.joinGenerators(joinCondition, generator1,
    generator2)] of utils/generator.js, which records the conditional
    block of the two generators. *)
Definition Generator_joinGenerators (this : loc) (joinCondition : Value) (g1 g2 : loc)
    : M Heap unit :=
  update_generator this (add_entries [JoinedGenerators joinCondition g1 g2]).

(** *** Constructors of completions.js and realm.js

    Neither file is part of the sources at hand; the spec gives the
    fields of completions and of effects records. *)

(** Modelled from the spec: the constructors of completions.js,
    [new C(value, precedingEffects, location, target)].  A completion
    carries the value, the effects accumulated up to it, a source location
    and (for jumps) a target. *)
Definition new_Completion (cls : CompletionClass) (v : Value)
    (precedingEffects : option loc) (l : option Location) : M Heap loc :=
  alloc_result (ACompletion {| class := cls; c_value := v;
                               effects := precedingEffects; location := l |}).

(** The object that [new_Completion] puts in the arena, and the outcome of
    an allocation. *)
Definition completion (cls : CompletionClass) (v : Value) (pe : option loc)
    (l : option Location) : EvaluationResult :=
  ACompletion {| class := cls; c_value := v; effects := pe; location := l |}.

Definition allocated (r : EvaluationResult) (s : Heap) : Outcome loc * Heap :=
  (Ok (length (results s)), with_results (fun a => a ++ [r]) s).

(** Modelled from the spec: [new PossiblyNormalCompletion(value,
    joinCondition, consequent, alternate, savedPathConditions,
    savedEffects)] of completions.js. *)
Definition new_PossiblyNormalCompletion (v joinCondition : Value) (consequent alternate : loc)
    (savedPathConditions : list Value) (savedEffects : option loc) : M Heap loc :=
  new_Completion
    (PossiblyNormalCompletion joinCondition consequent alternate savedPathConditions savedEffects)
    v None None.

(** Modelled from the spec: [new ForkedAbruptCompletion(realm,
    joinCondition, consequent, alternate)] of completions.js; the node has
    no value of its own and is given the empty sentinel. *)
Definition new_ForkedAbruptCompletion (realm : Realm) (joinCondition : Value)
    (consequent alternate : loc) : M Heap loc :=
  new_Completion (ForkedAbruptCompletion joinCondition consequent alternate)
    (intrinsics_empty realm) None None.

Definition set_effects (e : option loc) (r : EvaluationResult) : EvaluationResult :=
  match r with
  | ACompletion c => ACompletion {| class := class c; c_value := c_value c;
                                    effects := e; location := location c |}
  | AReference => AReference
  end.

Definition set_value (v : Value) (r : EvaluationResult) : EvaluationResult :=
  match r with
  | ACompletion c => ACompletion {| class := class c; c_value := v;
                                    effects := effects c; location := location c |}
  | AReference => AReference
  end.

Definition set_generator (g : loc) (e : Effects) : Effects :=
  {| result := result e; generator := g; modifiedBindings := modifiedBindings e;
     modifiedProperties := modifiedProperties e; createdObjects := createdObjects e |}.

(** Modelled from the spec: [new Effects(result, generator, bindings,
    propertyBindings, createdObjects)] of realm.js; the record is attached
    to its result ([result.effects === this]). *)
Definition new_Effects (r g : loc) (bindings : Bindings) (propertyBindings : PropertyBindings)
    (created : CreatedObjects) : M Heap loc :=
  e ← alloc_effects {| result := r; generator := g; modifiedBindings := bindings;
                       modifiedProperties := propertyBindings; createdObjects := created |};
  update_result r (set_effects (Some e));;
  mret e.

(** Modelled from the spec: [construct_empty_effects(realm)] of realm.js,
    a record with an empty generator, no deltas, and a normal completion
    carrying the empty sentinel. *)
Definition construct_empty_effects (realm : Realm) : M Heap loc :=
  c ← new_Completion SimpleNormalCompletion (intrinsics_empty realm) None None;
  g ← new_Generator realm "construct_empty_effects" (pathConditions realm);
  new_Effects c g [] [] [].

(** Modelled from the spec: [AbstractValue.reportIntrospectionError(val)]
    of values/index.js; the diagnostic reaches the realm's error handler. *)
Definition reportIntrospectionError (val : Value) : M Heap unit :=
  modify_state (with_diagnostics (fun d => d ++ [val])).

(** *** Reading the class and fields of a result object *)

Definition class_of (r : EvaluationResult) : option CompletionClass :=
  match r with ACompletion c => Some (class c) | AReference => None end.

Definition instanceof (p : CompletionClass -> bool) (r : EvaluationResult) : bool :=
  match class_of r with Some c => p c | None => false end.

Definition isReference (r : EvaluationResult) : bool :=
  match r with AReference => true | _ => false end.

Definition isBreakCompletion (c : CompletionClass) : bool :=
  match c with BreakCompletion _ => true | _ => false end.
Definition isContinueCompletion (c : CompletionClass) : bool :=
  match c with ContinueCompletion _ => true | _ => false end.
Definition isReturnCompletion (c : CompletionClass) : bool :=
  match c with ReturnCompletion => true | _ => false end.
Definition isThrowCompletion (c : CompletionClass) : bool :=
  match c with ThrowCompletion => true | _ => false end.

(** [r.target] *)
Definition target_of (r : EvaluationResult) : option string :=
  match class_of r with
  | Some (BreakCompletion t) | Some (ContinueCompletion t) => t
  | _ => None
  end.

(** [r.value] *)
Definition value_of (r : EvaluationResult) : option Value :=
  match r with ACompletion c => Some (c_value c) | AReference => None end.

(** [r.effects] *)
Definition effects_of (r : EvaluationResult) : option loc :=
  match r with ACompletion c => effects c | AReference => None end.

(** [r.location] *)
Definition location_of (r : EvaluationResult) : option Location :=
  match r with ACompletion c => location c | AReference => None end.

(** [invariant(val instanceof Value)] *)
Definition expect_Value {S} (val : ValueOrArray) : M S Value :=
  match val with AValue v => mret v | AnArray _ => throw InvariantViolation end.

(** ** Helpers of methods/index.js and completions.js taken as parameters *)
Class Helpers := {
  IsDataDescriptor : Descriptor -> bool;
  equalDescriptors : Descriptor -> Descriptor -> bool;
  (** [pnc.getNormalCompletion()] *)
  getNormalCompletion : loc -> M Heap loc;
}.
Context `{HP : Helpers}.

(** Modelled from the spec: [cloneDescriptor] of methods/index.js is not
    part of the sources at hand; a clone has the fields of its original. *)
Definition cloneDescriptor (d : option Descriptor) : option Descriptor := d.

Definition with_value (v : option ValueOrArray) (d : Descriptor) : Descriptor :=
  {| writable := writable d; enumerable := enumerable d; configurable := configurable d;
     d_value := v; get := get d; set := set d; joinCondition := joinCondition d;
     descriptor1 := descriptor1 d; descriptor2 := descriptor2 d |}.

Definition with_descriptor1 (d1 : option Descriptor) (d : Descriptor) : Descriptor :=
  {| writable := writable d; enumerable := enumerable d; configurable := configurable d;
     d_value := d_value d; get := get d; set := set d; joinCondition := joinCondition d;
     descriptor1 := d1; descriptor2 := descriptor2 d |}.

Definition with_descriptor2 (d2 : option Descriptor) (d : Descriptor) : Descriptor :=
  {| writable := writable d; enumerable := enumerable d; configurable := configurable d;
     d_value := d_value d; get := get d; set := set d; joinCondition := joinCondition d;
     descriptor1 := descriptor1 d; descriptor2 := d2 |}.

(** [let d3: Descriptor = {}; d3.joinCondition = joinCondition; d3.descriptor1 = ...] *)
Definition conditional_descriptor (c : Value) (d1 d2 : option Descriptor) : Descriptor :=
  {| writable := None; enumerable := None; configurable := None; d_value := None;
     get := None; set := None; joinCondition := Some c;
     descriptor1 := d1; descriptor2 := d2 |}.

(** ** The join functions *)

(** [joinGenerators] (the module-level function) *)
Definition joinGenerators (realm : Realm) (joinCondition : Value) (generator1 generator2 : loc)
    : M Heap loc :=
  r ← new_Generator realm "joined" (pathConditions realm);
  e1 ← Generator_empty generator1;
  e2 ← Generator_empty generator2;
  (if negb e1 || negb e2
   then Generator_joinGenerators r joinCondition generator1 generator2
   else mret tt);;
  mret r.

(** [v instanceof EmptyValue] for a [void | Value] *)
Definition instanceofEmptyValue (v : option Value) : bool :=
  match v with Some x => isEmptyValue x | None => false end.

(** The closure [getAbstractValue] of [joinNormalCompletions] and
    [collapseResults]. *)
Definition getAbstractValue_skipping_empty (realm : Realm) (joinCondition : Value)
    (v1 v2 : option Value) : Value :=
  if instanceofEmptyValue v1 then default (intrinsics_undefined realm) v2
  else if instanceofEmptyValue v2 then default (intrinsics_undefined realm) v1
  else createFromConditionalOp joinCondition v1 v2.

(** The closure [getAbstractValue] of the other join functions. *)
Definition getAbstractValue_conditional (joinCondition : Value) (v1 v2 : option Value) : Value :=
  createFromConditionalOp joinCondition v1 v2.

Definition pure2 {S A B C} (f : A -> B -> C) : A -> B -> M S C := fun a b => mret (f a b).

Definition joinNormalCompletions (realm : Realm) (joinCondition : Value)
    (c ce a ae : loc) : M Heap loc :=
  let getAbstractValue := pure2 (getAbstractValue_skipping_empty realm joinCondition) in
  cobj ← read_result c;
  aobj ← read_result a;
  rv ← joinValues realm getAbstractValue (AValue <$> value_of cobj) (AValue <$> value_of aobj);
  rv ← expect_Value rv;
  update_result a (set_value rv);;
  new_PossiblyNormalCompletion rv joinCondition c a [] None.

(** [collapseResults], over the method that [this.joinValues] dispatches to. *)
Section CollapseResults.
Variable this_joinValues :
  Realm -> (option Value -> option Value -> M Heap Value) ->
  option ValueOrArray -> option ValueOrArray -> M Heap ValueOrArray.

Definition collapseResults_on (realm : Realm) (joinCondition : Value)
    (precedingEffects result1 result2 : loc) : M Heap loc :=
  let getAbstractValue := pure2 (getAbstractValue_skipping_empty realm joinCondition) in
  r1 ← read_result result1;
  r2 ← read_result result2;
  if instanceof isBreakCompletion r1 && instanceof isBreakCompletion r2
     && bool_decide (target_of r1 = target_of r2) then
    val ← this_joinValues realm getAbstractValue (AValue <$> value_of r1) (AValue <$> value_of r2);
    val ← expect_Value val;
    new_Completion (BreakCompletion (target_of r1)) val (Some precedingEffects)
      (expressionLocation joinCondition)
  else if instanceof isContinueCompletion r1 && instanceof isContinueCompletion r2
     && bool_decide (target_of r1 = target_of r2) then
    new_Completion (ContinueCompletion (target_of r1)) (intrinsics_empty realm)
      (Some precedingEffects) (expressionLocation joinCondition)
  else if instanceof isReturnCompletion r1 && instanceof isReturnCompletion r2 then
    val ← this_joinValues realm getAbstractValue (AValue <$> value_of r1) (AValue <$> value_of r2);
    val ← expect_Value val;
    new_Completion ReturnCompletion val (Some precedingEffects)
      (expressionLocation joinCondition)
  else if instanceof isThrowCompletion r1 && instanceof isThrowCompletion r2 then
    let getAbstractValue := pure2 (getAbstractValue_conditional joinCondition) in
    val ← this_joinValues realm getAbstractValue (AValue <$> value_of r1) (AValue <$> value_of r2);
    val ← expect_Value val;
    new_Completion ThrowCompletion val (Some precedingEffects) (location_of r1)
  else if instanceof isSimpleNormalCompletion r1 && instanceof isSimpleNormalCompletion r2 then
    v ← getAbstractValue (value_of r1) (value_of r2);
    new_Completion SimpleNormalCompletion v (Some precedingEffects) None
  else
    reportIntrospectionError joinCondition;;
    throw FatalError.
End CollapseResults.

Definition collapseResults := collapseResults_on (@joinValues Heap).

(** The pairs of abrupt classes that [collapseResults] folds into one. *)
Definition matched_abrupt (k1 k2 : CompletionClass) : bool :=
  match k1, k2 with
  | BreakCompletion t1, BreakCompletion t2
  | ContinueCompletion t1, ContinueCompletion t2 => bool_decide (t1 = t2)
  | ReturnCompletion, ReturnCompletion | ThrowCompletion, ThrowCompletion => true
  | _, _ => false
  end.

(** The outcome of a reported introspection error. *)
Definition introspection_error (joinCondition : Value) (s : Heap) : Outcome loc * Heap :=
  (Throw FatalError, with_diagnostics (fun d => d ++ [joinCondition]) s).

Definition savedEffects_of (r : EvaluationResult) : option loc :=
  match class_of r with
  | Some (PossiblyNormalCompletion _ _ _ _ se) => se
  | _ => None
  end.

Definition savedPathConditions_of (r : EvaluationResult) : list Value :=
  match class_of r with
  | Some (PossiblyNormalCompletion _ _ _ spc _) => spc
  | _ => []
  end.

(** The two last cases of [joinOrForkResults]: [normal] is the side that
    is not abrupt. *)
Definition fork_with_normal (joinCondition : Value) (result1 result2 normal : loc)
    : M Heap loc :=
  n ← read_result normal;
  '(completion, savedEffects, savedPathConditions) ←
    (if instanceof isPossiblyNormalCompletion n then
       c ← getNormalCompletion normal;
       mret (c, savedEffects_of n, savedPathConditions_of n)
     else mret (normal, None, []));
  cobj ← read_result completion;
  invariant (instanceof isSimpleNormalCompletion cobj);;
  match value_of cobj with
  | Some v =>
      new_PossiblyNormalCompletion v joinCondition result1 result2
        savedPathConditions savedEffects
  | None => throw InvariantViolation
  end.

Definition joinOrForkResults (realm : Realm) (joinCondition : Value)
    (result1 result2 e1 e2 : loc) : M Heap loc :=
  r1 ← read_result result1;
  invariant (bool_decide (effects_of r1 = Some e1));;
  E1 ← read_effects e1;
  invariant (bool_decide (result E1 = result1));;
  r2 ← read_result result2;
  invariant (bool_decide (effects_of r2 = Some e2));;
  E2 ← read_effects e2;
  invariant (bool_decide (result E2 = result2));;
  let getAbstractValue := pure2 (getAbstractValue_conditional joinCondition) in
  if isReference r1 || isReference r2 then
    reportIntrospectionError joinCondition;;
    throw FatalError
  else if instanceof isSimpleNormalCompletion r1 && instanceof isSimpleNormalCompletion r2 then
    val ← joinValues realm getAbstractValue (AValue <$> value_of r1) (AValue <$> value_of r2);
    val ← expect_Value val;
    new_Completion SimpleNormalCompletion val None None
  else if instanceof isAbruptCompletion r1 && instanceof isAbruptCompletion r2 then
    new_ForkedAbruptCompletion realm joinCondition result1 result2
  else if instanceof isNormalCompletion r1 && instanceof isNormalCompletion r2 then
    joinNormalCompletions realm joinCondition result1 e1 result2 e2
  else if instanceof isAbruptCompletion r1 then
    fork_with_normal joinCondition result1 result2 result2
  else if instanceof isAbruptCompletion r2 then
    fork_with_normal joinCondition result1 result2 result1
  else throw InvariantViolation.

(** The non-abrupt completion [C] at [r] stands for a simple normal
    completion of value [v]: it is one, or it is a fork whose
    [getNormalCompletion()] is one; [spc] and [se] are the saved path
    conditions and effects it carries. *)
Definition normal_completion_of (h : Heap) (r : loc) (C : Completion) (v : Value)
    (spc : list Value) (se : option loc) : Prop :=
  (class C = SimpleNormalCompletion /\ v = c_value C /\ spc = [] /\ se = None)
  \/ (exists jc cons alt n Cn,
        class C = PossiblyNormalCompletion jc cons alt spc se
        /\ getNormalCompletion r h = (Ok n, h)
        /\ results h !! n = Some (ACompletion Cn)
        /\ class Cn = SimpleNormalCompletion /\ v = c_value Cn).

(** *** joinBindings *)

(** The variables [g1], [rewritten1], [g2], [rewritten2] that the closures
    of [joinBindings] capture and assign. *)
Record Captured := {
  g1 : loc;
  rewritten1 : bool;
  g2 : loc;
  rewritten2 : bool;
}.

Definition on_heap {A} (m : M Heap A) : M (Heap * Captured) A :=
  zoom fst (fun h t => (h, t.2)) m.
Definition captured : M (Heap * Captured) Captured := fun s => (Ok s.2, s).
Definition assign (f : Captured -> Captured) : M (Heap * Captured) unit :=
  modify_state (fun s => (s.1, f s.2)).

(** JavaScript truthiness and [||] on [void | boolean] *)
Definition truthy (b : option bool) : bool := default false b.
Definition js_or (a b : option bool) : option bool := if truthy a then a else b.

(** The closure [leak]. *)
Definition leak (realm : Realm) (b : Binding) (g : loc) (v : option Value) (rewritten : bool)
    : M Heap (loc * bool) :=
  '(g, rewritten) ←
    (if negb rewritten then
       gobj ← read_generator g;
       h ← new_Generator realm "RewrittenToAppendBindingAssignments" (g_pathConditions gobj);
       e ← Generator_empty g;
       (if negb e then appendGenerator h g "" else mret tt);;
       mret (h, true)
     else mret (g, rewritten));
  match v with
  | Some x =>
      if negb (bool_decide (x = intrinsics_undefined realm))
      then emitBindingAssignment g b x else mret tt
  | None => mret tt
  end;;
  mret (g, rewritten).

(** The entries that one call of [leak] emits, and the generator it
    leaves at the location it returns: the old one extended when it was
    already a wrapper, a new wrapper otherwise. *)
Definition assignment (realm : Realm) (b : Binding) (v : option Value) : list GeneratorEntry :=
  match v with
  | Some x => if decide (x = intrinsics_undefined realm) then [] else [BindingAssignment b x]
  | None => []
  end.

Definition leaked_generator (realm : Realm) (b : Binding) (v : option Value)
    (G : Generator) (rewritten : bool) : Generator :=
  if rewritten then add_entries (assignment realm b v) G
  else {| g_name := "RewrittenToAppendBindingAssignments";
          g_pathConditions := g_pathConditions G;
          g_entries := g_entries G ++ assignment realm b v |}.

(** The closure [join]. *)
Definition joinBindings_join (realm : Realm) (joinCondition : Value)
    (b : Binding) (b1 b2 : option BindingEntry) : M (Heap * Captured) (option BindingEntry) :=
  let getAbstractValue := pure2 (getAbstractValue_conditional joinCondition) in
  let l1 := match b1 with None => Some (binding_hasLeaked b) | Some e => hasLeaked e end in
  let l2 := match b2 with None => Some (binding_hasLeaked b) | Some e => hasLeaked e end in
  let v1 := match b1 with None => binding_value b | Some e => value e end in
  let v2 := match b2 with None => binding_value b | Some e => value e end in
  (if negb (truthy l1) && truthy l2 then
     cv ← captured;
     '(g, rw) ← on_heap (leak realm b (g1 cv) v1 (rewritten1 cv));
     assign (fun cv => {| g1 := g; rewritten1 := rw; g2 := g2 cv; rewritten2 := rewritten2 cv |})
   else if truthy l1 && negb (truthy l2) then
     cv ← captured;
     '(g, rw) ← on_heap (leak realm b (g2 cv) v2 (rewritten2 cv));
     assign (fun cv => {| g1 := g1 cv; rewritten1 := rewritten1 cv; g2 := g; rewritten2 := rw |})
   else mret tt);;
  let hasLeaked := js_or l1 l2 in
  val ← (if truthy hasLeaked then mret None
         else r ← joinValues realm getAbstractValue (AValue <$> v1) (AValue <$> v2);
              mret (Some r));
  val ← match val with
        | None => mret None
        | Some r => x ← expect_Value r; mret (Some x)
        end;
  '(previousHasLeaked, previousValue) ←
    match b1, b2 with
    | Some e1, _ =>
        invariant (match b2 with
                   | None => true
                   | Some e2 => bool_decide (previousHasLeaked e1 = previousHasLeaked e2)
                                && bool_decide (previousValue e1 = previousValue e2)
                   end);;
        mret (previousHasLeaked e1, previousValue e1)
    | None, Some e2 => mret (previousHasLeaked e2, previousValue e2)
    | None, None => mret (None, None)
    end;
  mret (Some {| hasLeaked := hasLeaked; value := val;
                previousHasLeaked := previousHasLeaked; previousValue := previousValue |}).

Definition joinBindings (realm : Realm) (joinCondition : Value)
    (g1 : loc) (m1 : Bindings) (g2 : loc) (m2 : Bindings) : M Heap (loc * loc * Bindings) :=
  fun h =>
    match joinMaps m1 m2 (joinBindings_join realm joinCondition)
            (h, Build_Captured g1 false g2 false) with
    | (Ok joinedBindings, (h', Build_Captured g1 _ g2 _)) => (Ok (g1, g2, joinedBindings), h')
    | (Throw e, (h', _)) => (Throw e, h')
    end.

(** *** What the closure [join] of [joinBindings] computes

    The entry it returns depends on its arguments only; what it does to
    the generators depends on the captured variables. *)

(** [l1], [l2] and [v1], [v2] *)
Definition entry_hasLeaked (b : Binding) (e : option BindingEntry) : option bool :=
  match e with None => Some (binding_hasLeaked b) | Some e => hasLeaked e end.
Definition entry_value (b : Binding) (e : option BindingEntry) : option Value :=
  match e with None => binding_value b | Some e => value e end.

Definition joined_entry (joinCondition : Value) (b : Binding) (b1 b2 : option BindingEntry)
    : BindingEntry :=
  let l := js_or (entry_hasLeaked b b1) (entry_hasLeaked b b2) in
  {| hasLeaked := l;
     value := if truthy l then None
              else Some (joined_option_value (getAbstractValue_conditional joinCondition)
                           (entry_value b b1) (entry_value b b2));
     previousHasLeaked := match b1, b2 with
                          | Some e1, _ => previousHasLeaked e1
                          | None, Some e2 => previousHasLeaked e2
                          | None, None => None
                          end;
     previousValue := match b1, b2 with
                      | Some e1, _ => previousValue e1
                      | None, Some e2 => previousValue e2
                      | None, None => None
                      end |}.

(** The invariant on the prior-history fields. *)
Definition history_agrees (b1 b2 : option BindingEntry) : bool :=
  match b1, b2 with
  | Some e1, Some e2 =>
      bool_decide (previousHasLeaked e1 = previousHasLeaked e2)
      && bool_decide (previousValue e1 = previousValue e2)
  | _, _ => true
  end.

(** The heap and the location that [leak] returns. *)
Definition leaked_heap (realm : Realm) (b : Binding) (v : option Value) (g : loc)
    (rewritten : bool) (h : Heap) : Heap :=
  match generators h !! g with
  | Some G =>
      with_generators
        (fun a => if rewritten then <[g := leaked_generator realm b v G true]> a
                  else a ++ [leaked_generator realm b v G false]) h
  | None => h
  end.

Definition leaked_loc (g : loc) (rewritten : bool) (h : Heap) : loc :=
  if rewritten then g else length (generators h).

(** The state after the leak step of [join]. *)
Definition after_leak (realm : Realm) (b : Binding) (b1 b2 : option BindingEntry)
    (st : Heap * Captured) : Heap * Captured :=
  let '(h, cv) := st in
  let l1 := entry_hasLeaked b b1 in
  let l2 := entry_hasLeaked b b2 in
  if negb (truthy l1) && truthy l2 then
    (leaked_heap realm b (entry_value b b1) (g1 cv) (rewritten1 cv) h,
     {| g1 := leaked_loc (g1 cv) (rewritten1 cv) h; rewritten1 := true;
        g2 := g2 cv; rewritten2 := rewritten2 cv |})
  else if truthy l1 && negb (truthy l2) then
    (leaked_heap realm b (entry_value b b2) (g2 cv) (rewritten2 cv) h,
     {| g1 := g1 cv; rewritten1 := rewritten1 cv;
        g2 := leaked_loc (g2 cv) (rewritten2 cv) h; rewritten2 := true |})
  else st.

(** A call of [join] that patches the first generator: the binding has
    leaked in the second branch only.  And the other way round. *)
Definition leaks_second_only (c : Binding * option BindingEntry * option BindingEntry) : Prop :=
  truthy (entry_hasLeaked c.1.1 c.1.2) = false /\ truthy (entry_hasLeaked c.1.1 c.2) = true.
Definition leaks_first_only (c : Binding * option BindingEntry * option BindingEntry) : Prop :=
  truthy (entry_hasLeaked c.1.1 c.1.2) = true /\ truthy (entry_hasLeaked c.1.1 c.2) = false.

(** *** The generators through the loop of [joinBindings]

    [h0] is the heap in which [joinBindings] is called. *)

(** The two captured generators exist. *)
Definition captured_valid (st : Heap * Captured) : Prop :=
  g1 st.2 < length (generators st.1) /\ g2 st.2 < length (generators st.1).

(** One side of the join after the calls [done]: [g] is its current
    generator, [rw] says whether it is a wrapper, [g0] and [G0] are the
    generator it started from; [patched] tells the calls that leak into
    this side and [val] the value they assign. *)
Definition side_ok (realm : Realm) (h0 : Heap) (patched : Binding * option BindingEntry * option BindingEntry -> Prop)
    (val : Binding * option BindingEntry * option BindingEntry -> option Value)
    (g0 : loc) (G0 : Generator)
    (done : list (Binding * option BindingEntry * option BindingEntry))
    (h : Heap) (g : loc) (rw : bool) : Prop :=
  exists G,
    generators h !! g = Some G
    /\ g_entries G0 `prefix_of` g_entries G
    /\ (rw = false -> g = g0 /\ forall c, c ∈ done -> ~ patched c)
    /\ (rw = true -> length (generators h0) <= g)
    /\ (forall c x, c ∈ done -> patched c -> val c = Some x ->
          x <> intrinsics_undefined realm -> BindingAssignment c.1.1 x ∈ g_entries G).

Definition first_value (c : Binding * option BindingEntry * option BindingEntry) :=
  entry_value c.1.1 c.1.2.
Definition second_value (c : Binding * option BindingEntry * option BindingEntry) :=
  entry_value c.1.1 c.2.

(** The invariant of the loop. *)
Definition leak_inv (realm : Realm) (h0 : Heap) (ga gb : loc) (GA GB : Generator)
    (done : list (Binding * option BindingEntry * option BindingEntry))
    (st : Heap * Captured) : Prop :=
  effectses st.1 = effectses h0 /\ results st.1 = results h0
  /\ diagnostics st.1 = diagnostics h0
  /\ length (generators h0) <= length (generators st.1)
  /\ (forall j, j < length (generators h0) -> generators st.1 !! j = generators h0 !! j)
  /\ side_ok realm h0 leaks_second_only first_value ga GA done st.1 (g1 st.2) (rewritten1 st.2)
  /\ side_ok realm h0 leaks_first_only second_value gb GB done st.1 (g2 st.2) (rewritten2 st.2)
  /\ (rewritten1 st.2 = true -> rewritten2 st.2 = true -> g1 st.2 <> g2 st.2).

(** *** joinDescriptors and joinPropertyBindings *)
Section Descriptors.
Context {S : Type}.
Variable realm : Realm.
Variable joinCondition : Value.

(** The closure [clone_with_abstract_value]; [is_d1] is its test
    [d === d1], which each of its two call sites decides. *)
Definition clone_with_abstract_value (d : Descriptor) (is_d1 : bool) : M S Descriptor :=
  let getAbstractValue := getAbstractValue_conditional joinCondition in
  let empty := intrinsics_empty realm in
  if negb (IsDataDescriptor d) then
    mret (conditional_descriptor joinCondition None None)
  else
    match cloneDescriptor (Some d) with
    | None => throw InvariantViolation
    | Some dc =>
        match d_value dc with
        | Some (AnArray dcValue) =>
            invariant (bool_decide (dcValue <> ArrayOfValues [] /\ dcValue <> ArrayOfMapEntries []));;
            match dcValue with
            | ArrayOfValues l =>
                mret (with_value
                        (Some (AnArray (ArrayOfValues
                           (map (fun e => if is_d1
                                          then getAbstractValue (Some e) (Some empty)
                                          else getAbstractValue (Some empty) (Some e)) l)))) dc)
            | ArrayOfMapEntries l =>
                mret (with_value
                        (Some (AnArray (ArrayOfMapEntries
                           (map (fun e =>
                                   let key3 := if is_d1
                                               then getAbstractValue (Key e) (Some empty)
                                               else getAbstractValue (Some empty) (Key e) in
                                   let val3 := if is_d1
                                               then getAbstractValue (Val e) (Some empty)
                                               else getAbstractValue (Some empty) (Val e) in
                                   {| Key := Some key3; Val := Some val3 |}) l)))) dc)
            end
        | dcValue =>
            let dcValue := the_value dcValue in
            mret (with_value
                    (Some (AValue (if is_d1
                                   then getAbstractValue dcValue (Some empty)
                                   else getAbstractValue (Some empty) dcValue))) dc)
        end
    end.

Definition joinDescriptors (d1 d2 : option Descriptor) : M S (option Descriptor) :=
  let getAbstractValue := pure2 (getAbstractValue_conditional joinCondition) in
  match d1, d2 with
  | None, None => mret None
  | None, Some d2 =>
      d3 ← clone_with_abstract_value d2 false;
      mret (Some (if negb (IsDataDescriptor d2) then with_descriptor2 (Some d2) d3 else d3))
  | Some d1, None =>
      d3 ← clone_with_abstract_value d1 true;
      mret (Some (if negb (IsDataDescriptor d1) then with_descriptor1 (Some d1) d3 else d3))
  | Some d1, Some d2 =>
      if equalDescriptors d1 d2 && IsDataDescriptor d1 then
        match cloneDescriptor (Some d1) with
        | None => throw InvariantViolation
        | Some dc =>
            v ← joinValues realm getAbstractValue (d_value d1) (d_value d2);
            mret (Some (with_value (Some v) dc))
        end
      else mret (Some (conditional_descriptor joinCondition (Some d1) (Some d2)))
  end.

(** What the closure [join] of [joinPropertyBindings] puts in place of a
    missing descriptor: [inl] is its early [return], [inr] the
    descriptor to join.  [other_created] is the createdObjects set of
    the other branch, [m] this branch's map. *)
Definition descriptor_for_missing_side (b : PropertyBinding) (other : option Descriptor)
    (other_created : CreatedObjects) (m : PropertyBindings)
    : M S (option Descriptor + option Descriptor) :=
  if set_has other_created (object b) then mret (inl other)
  else if bool_decide (descriptor b <> None) && map_has m b then
    match cloneDescriptor (descriptor b) with
    | None => throw InvariantViolation
    | Some d => mret (inr (Some (with_value (Some (AValue (intrinsics_empty realm))) d)))
    end
  else mret (inr (descriptor b)).

Definition joinPropertyBindings_join (m1 m2 : PropertyBindings) (c1 c2 : CreatedObjects)
    (b : PropertyBinding) (d1 d2 : option Descriptor) : M S (option Descriptor) :=
  r1 ← match d1 with
       | None => descriptor_for_missing_side b d2 c2 m1
       | Some _ => mret (inr d1)
       end;
  match r1 with
  | inl r => mret r
  | inr d1 =>
      r2 ← match d2 with
           | None => descriptor_for_missing_side b d1 c1 m2
           | Some _ => mret (inr d2)
           end;
      match r2 with
      | inl r => mret r
      | inr d2 => joinDescriptors d1 d2
      end
  end.

Definition joinPropertyBindings (m1 m2 : PropertyBindings) (c1 c2 : CreatedObjects)
    : M S PropertyBindings :=
  joinMaps m1 m2 (joinPropertyBindings_join m1 m2 c1 c2).
End Descriptors.

(** The descriptor that stands for a deleted property. *)
Definition deleted_descriptor (realm : Realm) (pre : Descriptor) : Descriptor :=
  with_value (Some (AValue (intrinsics_empty realm))) pre.

(** *** joinForkOrChoose *)
Definition joinForkOrChoose (realm : Realm) (joinCondition : Value) (e1 e2 : loc)
    : M Heap loc :=
  if negb (mightNotBeTrue joinCondition) then mret e1
  else if negb (mightNotBeFalse joinCondition) then mret e2
  else
    invariant (isAbstractValue joinCondition);;
    E1 ← read_effects e1;
    let result1 := result E1 in
    let generator1 := generator E1 in
    let modifiedBindings1 := modifiedBindings E1 in
    let modifiedProperties1 := modifiedProperties E1 in
    let createdObjects1 := createdObjects E1 in
    r1 ← read_result result1;
    invariant (bool_decide (effects_of r1 = Some e1));;
    E2 ← read_effects e2;
    let result2 := result E2 in
    let generator2 := generator E2 in
    let modifiedBindings2 := modifiedBindings E2 in
    let modifiedProperties2 := modifiedProperties E2 in
    let createdObjects2 := createdObjects E2 in
    r2 ← read_result result2;
    invariant (bool_decide (effects_of r2 = Some e2));;
    emptyEffects ← construct_empty_effects realm;
    res ← joinOrForkResults realm joinCondition result1 result2 e1 e2;
    let join_all : M Heap loc :=
      '(modifiedGenerator1, modifiedGenerator2, bindings) ←
        joinBindings realm joinCondition generator1 modifiedBindings1
          generator2 modifiedBindings2;
      properties ← joinPropertyBindings realm joinCondition
        modifiedProperties1 modifiedProperties2 createdObjects1 createdObjects2;
      let createdObjects := foldl set_add (foldl set_add [] createdObjects1) createdObjects2 in
      g ← joinGenerators realm joinCondition modifiedGenerator1 modifiedGenerator2;
      new_Effects res g bindings properties createdObjects in
    if instanceof isAbruptCompletion r1 then
      if negb (instanceof isAbruptCompletion r2) then
        resobj ← read_result res;
        invariant (instanceof isPossiblyNormalCompletion resobj);;
        EE ← read_effects emptyEffects;
        update_effects e2 (set_generator (generator EE));;
        new_Effects res generator2 modifiedBindings2 modifiedProperties2 createdObjects2
      else join_all
    else if instanceof isAbruptCompletion r2 then
      resobj ← read_result res;
      invariant (instanceof isPossiblyNormalCompletion resobj);;
      EE ← read_effects emptyEffects;
      update_effects e1 (set_generator (generator EE));;
      new_Effects res generator1 modifiedBindings1 modifiedProperties1 createdObjects1
    else join_all.

(** The heap that [joinForkOrChoose] leaves when one side is abrupt:
    [e_normal] is the record of the other side, [r1] and [r2] are the two
    results, [v], [spc] and [se] the value and saved state of the fork. *)
Definition one_abrupt_heap (realm : Realm) (joinCondition : Value) (s : Heap)
    (e_normal : loc) (E_normal : Effects) (r1 r2 : loc) (v : Value)
    (spc : list Value) (se : option loc) : Heap :=
  {| generators := generators s
       ++ [{| g_name := "construct_empty_effects";
              g_pathConditions := pathConditions realm; g_entries := [] |}];
     effectses :=
       <[e_normal := set_generator (length (generators s)) E_normal]>
         (effectses s
          ++ [{| result := length (results s); generator := length (generators s);
                 modifiedBindings := []; modifiedProperties := []; createdObjects := [] |}])
       ++ [{| result := S (length (results s)); generator := generator E_normal;
              modifiedBindings := modifiedBindings E_normal;
              modifiedProperties := modifiedProperties E_normal;
              createdObjects := createdObjects E_normal |}];
     results := results s
       ++ [completion SimpleNormalCompletion (intrinsics_empty realm)
             (Some (length (effectses s))) None;
           completion (PossiblyNormalCompletion joinCondition r1 r2 spc se) v
             (Some (S (length (effectses s)))) None];
     diagnostics := diagnostics s |}.
(** *** composeGenerators *)
Definition composeGenerators (realm : Realm) (generator1 generator2 : loc) : M Heap loc :=
  G1 ← read_generator generator1;
  G2 ← read_generator generator2;
  result ← new_Generator realm "composed" (g_pathConditions G1 ++ g_pathConditions G2);
  e1 ← Generator_empty generator1;
  (if negb e1 then appendGenerator result generator1 "" else mret tt);;
  e2 ← Generator_empty generator2;
  (if negb e2 then appendGenerator result generator2 "" else mret tt);;
  mret result.

(** The generator that [composeGenerators] makes of two generators. *)
Definition composed (G1 G2 : Generator) : Generator :=
  {| g_name := "composed";
     g_pathConditions := g_pathConditions G1 ++ g_pathConditions G2;
     g_entries := g_entries G1 ++ g_entries G2 |}.

(** The generator that [joinGenerators] makes of the generators at two
    locations. *)
Definition joined (realm : Realm) (joinCondition : Value) (g1 g2 : loc) (G1 G2 : Generator)
    : Generator :=
  {| g_name := "joined";
     g_pathConditions := pathConditions realm;
     g_entries := if bool_decide (g_entries G1 = []) && bool_decide (g_entries G2 = [])
                  then [] else [JoinedGenerators joinCondition g1 g2] |}.

(** *** unbundleNormalCompletion

    A [Completion | Value | Reference] is the location of a completion or
    reference object, or a value. *)
Definition unbundleNormalCompletion (completionOrValue : loc + Value)
    : M Heap (option loc * (loc + Value)) :=
  match completionOrValue with
  | inl l =>
      r ← read_result l;
      if instanceof isPossiblyNormalCompletion r then
        match value_of r with
        | Some v => mret (Some l, inr v)
        | None => throw IllTyped
        end
      else
        invariant (isReference r);;
        mret (None, inl l)
  | inr v => mret (None, inr v)
  end.

(** *** joinNestedEffects *)

(** Modelled from the spec: the getters [consequentEffects] and
    [alternateEffects] of completions.js, the effects that a fork carries
    for each side; they are the records attached to its two children. *)
Definition effects_carried_for (child : loc) : M Heap loc :=
  r ← read_result child;
  match effects_of r with
  | Some e => mret e
  | None => throw InvariantViolation
  end.

Definition set_result (r : loc) (e : Effects) : Effects :=
  {| result := r; generator := generator e; modifiedBindings := modifiedBindings e;
     modifiedProperties := modifiedProperties e; createdObjects := createdObjects e |}.

(** [fuel] bounds the depth of the recursion; the result is [None] when
    the bound is reached. *)
Fixpoint joinNestedEffects (fuel : nat) (realm : Realm) (c : loc)
    (precedingEffects : option loc) : M Heap (option loc) :=
  cobj ← read_result c;
  match class_of cobj with
  | Some (PossiblyNormalCompletion joinCondition consequent alternate _ _)
  | Some (ForkedAbruptCompletion joinCondition consequent alternate) =>
      match fuel with
      | 0 => mret None
      | S fuel =>
          ce ← effects_carried_for consequent;
          e1 ← joinNestedEffects fuel realm consequent (Some ce);
          match e1 with
          | None => mret None
          | Some e1 =>
              ae ← effects_carried_for alternate;
              e2 ← joinNestedEffects fuel realm alternate (Some ae);
              match e2 with
              | None => mret None
              | Some e2 =>
                  e3 ← joinForkOrChoose realm joinCondition e1 e2;
                  E1 ← read_effects e1;
                  E2 ← read_effects e2;
                  r ← collapseResults realm joinCondition e3 (result E1) (result E2);
                  robj ← read_result r;
                  match effects_of robj with
                  | Some re => mret (Some re)
                  | None => throw InvariantViolation
                  end
              end
          end
      end
  | _ =>
      match precedingEffects with
      | Some precedingEffects => mret (Some precedingEffects)
      | None =>
          result ← construct_empty_effects realm;
          update_effects result (set_result c);;
          mret (Some result)
      end
  end.
End Values.

Abbreviation loc := nat.
Abbreviation Bindings := (JSMap Binding BindingEntry).
Abbreviation PropertyBindings := (JSMap PropertyBinding Descriptor).
Abbreviation CreatedObjects := (JSSet Value).

(** ** utils.js: the names of value types and of operators *)
Module Utils.

(** The classes of values/index.js that utils.js imports; a class it does
    not name is an [OtherValue]. *)
Inductive ValueType :=
| AbstractValue | AbstractObjectValue | ArrayValue | BooleanValue | EmptyValue
| FunctionValue | NullValue | NumberValue | IntegralValue | ObjectValue | StringValue
| SymbolValue | UndefinedValue | PrimitiveValue | Value
| OtherValue (id : nat).

#[global] Instance ValueType_eq_dec : EqDecision ValueType.
Proof. solve_decision. Defined.

Section Types.
(** [type.prototype instanceof Constructor]: the class [type] is below
    [Constructor] in the hierarchy of values/index.js, which is taken as
    a parameter, as is [Value.isTypeCompatibleWith]. *)
Variable prototype_instanceof : ValueType -> ValueType -> bool.
Variable isTypeCompatibleWith : ValueType -> ValueType -> bool.

(** [isInstance(proto, Constructor)], for [proto = type.prototype] *)
Definition isInstance (type Constructor : ValueType) : bool :=
  prototype_instanceof type Constructor || bool_decide (type = Constructor).

Definition typeToIRType (type : ValueType) : string :=
  if isInstance type EmptyValue then "unknown"
  else if isInstance type UndefinedValue then "undefined"
  else if isInstance type NullValue then "null"
  else if isInstance type StringValue then "string"
  else if isInstance type BooleanValue then "boolean"
  else if isInstance type IntegralValue then "integral"
  else if isInstance type NumberValue then "number"
  else if isInstance type ObjectValue then "object"
  else "unknown".

Definition typeToString (type : ValueType) : option string :=
  if isInstance type UndefinedValue then Some "undefined"
  else if isInstance type NullValue then Some "object"
  else if isInstance type StringValue then Some "string"
  else if isInstance type BooleanValue then Some "boolean"
  else if isInstance type NumberValue then Some "number"
  else if isInstance type SymbolValue then Some "symbol"
  else if isInstance type ObjectValue then
    if isTypeCompatibleWith type FunctionValue then Some "function"
    else Some "object"
  else None.
End Types.

Definition getTypeFromName (typeName : string) : option ValueType :=
  switch typeName
    [("empty", Some EmptyValue); ("void", Some UndefinedValue); ("null", Some NullValue);
     ("boolean", Some BooleanValue); ("string", Some StringValue);
     ("symbol", Some SymbolValue); ("number", Some NumberValue);
     ("object", Some ObjectValue); ("array", Some ArrayValue);
     ("function", Some FunctionValue); ("integral", Some IntegralValue)]
    None.

Definition getOpString (op : string) : string :=
  switch op
    [("+", "p"); ("-", "m"); ("*", "mult"); ("<", "l"); (">", "g"); (">=", "ge");
     ("<=", "le"); ("!=", "ne"); ("==", "e"); ("!==", "sne"); ("===", "se")]
    "__not_supported__".

(** The operators that [getOpString] has a name for. *)
Definition supported_operators : list string :=
  ["+"; "-"; "*"; "<"; ">"; ">="; "<="; "!="; "=="; "!=="; "==="].

(** A class hierarchy to run the functions on: each class with the class
    it extends. *)
Definition sample_parent (type : ValueType) : option ValueType :=
  match type with
  | Value => None
  | AbstractValue | PrimitiveValue | ObjectValue => Some Value
  | AbstractObjectValue => Some AbstractValue
  | ArrayValue | FunctionValue => Some ObjectValue
  | IntegralValue => Some NumberValue
  | OtherValue _ => Some FunctionValue
  | _ => Some PrimitiveValue
  end.

(** [type] is below [Constructor] there, at most [fuel] classes up. *)
Fixpoint below (fuel : nat) (type Constructor : ValueType) : bool :=
  match fuel, sample_parent type with
  | S fuel, Some parent =>
      bool_decide (parent = Constructor) || below fuel parent Constructor
  | _, _ => false
  end.

Definition sample_instanceof : ValueType -> ValueType -> bool := below 4.
Definition sample_compatible (type Constructor : ValueType) : bool :=
  sample_instanceof type Constructor || bool_decide (type = Constructor).
End Utils.

(** ** ShapeInformation: resolving link descriptors *)
Module Shape.

Inductive ECMAScriptType :=
| void | null | boolean | string_t | symbol | number | object_t | array | function
| integral.

Record ShapeDescriptorCommon := {
  jsType : ECMAScriptType;
  graphQLType : option string;
}.

Inductive ShapeDescriptor :=
| ObjectShape (common : ShapeDescriptorCommon)
    (properties : list (string * option ShapePropertyDescriptor))
| ArrayShape (common : ShapeDescriptorCommon) (elementShape : option ShapePropertyDescriptor)
| LinkShape (common : ShapeDescriptorCommon) (shapeName : string)
| ScalarShape (common : ShapeDescriptorCommon)
| EnumShape (common : ShapeDescriptorCommon)
with ShapePropertyDescriptor :=
| PropertyShape (shape : ShapeDescriptor) (optional : bool).

(** A [ShapeUniverse] is an object used as a map from names to descriptors. *)
Abbreviation ShapeUniverse := (gmap string ShapeDescriptor).

Record ShapeInformation := {
  _descriptor : ShapeDescriptor;
  _parentDescriptor : option ShapeDescriptor;
  _parentKey : option string;
  _universe : ShapeUniverse;
}.

(** [descriptor && descriptor.kind === "link"], with the link's name *)
Definition link_name (descriptor : option ShapeDescriptor) : option string :=
  match descriptor with
  | Some (LinkShape _ shapeName) => Some shapeName
  | _ => None
  end.

(** The [while] loop of [_resolveLinksAndWrap]; [fuel] bounds the number
    of times its body runs, and [None] says the bound was reached with the
    loop condition still true. *)
Fixpoint resolve_links (fuel : nat) (universe : ShapeUniverse)
    (descriptor : option ShapeDescriptor) : option (option ShapeDescriptor) :=
  match link_name descriptor with
  | Some shapeName =>
      match fuel with
      | 0 => None
      | S fuel' => resolve_links fuel' universe (universe !! shapeName)
      end
  | None => Some descriptor
  end.

Definition _resolveLinksAndWrap (fuel : nat) (descriptor : option ShapeDescriptor)
    (parentDescription : option ShapeDescriptor) (parentKey : option string)
    (universe : ShapeUniverse) : option (option ShapeInformation) :=
  descriptor ← resolve_links fuel universe descriptor;
  Some (match descriptor with
        | Some d => Some {| _descriptor := d; _parentDescriptor := parentDescription;
                            _parentKey := parentKey; _universe := universe |}
        | None => None
        end).

Record ArgModel := {
  am_universe : ShapeUniverse;
  arguments : gmap string string;
}.

Record ComponentModel := {
  cm_universe : ShapeUniverse;
  component_props : string;
}.

(** [universe[name]] where [name] itself may be [undefined], which as a
    property key reads "undefined".  The map holds the own properties of
    [universe]: the lookup describes the read for every name but those of
    [Object_prototype_names] below, which a plain object inherits. *)
Definition lookup_name (universe : ShapeUniverse) (name : option string)
    : option ShapeDescriptor :=
  universe !! default "undefined" name.

Definition createForArgument (fuel : nat) (model : option ArgModel) (argname : string)
    : option (option ShapeInformation) :=
  match model with
  | Some model =>
      _resolveLinksAndWrap fuel (lookup_name (am_universe model) (arguments model !! argname))
        None None (am_universe model)
  | None => Some None
  end.

Definition createForReactComponentProps (fuel : nat) (model : option ComponentModel)
    : option (option ShapeInformation) :=
  match model with
  | Some model =>
      _resolveLinksAndWrap fuel (cm_universe model !! component_props model)
        None None (cm_universe model)
  | None => Some None
  end.

Definition _arrayLengthProperty : ShapePropertyDescriptor :=
  PropertyShape (ScalarShape {| jsType := integral; graphQLType := None |}) false.

Definition _getInformationForProperty (this : ShapeInformation) (key : string)
    : option ShapePropertyDescriptor :=
  match _descriptor this with
  | ObjectShape _ properties => map_get properties key
  | ArrayShape _ elementShape =>
      if decide (key = "length") then Some _arrayLengthProperty
      else if decide (key = "prototype") then None
      else elementShape
  | _ => None
  end.

Definition getPropertyShape (fuel : nat) (this : ShapeInformation) (key : string)
    : option (option ShapeInformation) :=
  match _getInformationForProperty this key with
  | Some (PropertyShape shape _) =>
      _resolveLinksAndWrap fuel (Some shape) (Some (_descriptor this)) (Some key)
        (_universe this)
  | None => Some None
  end.

(** One turn of the loop: from a link descriptor to what the universe
    holds under its name. *)
Definition follows (universe : ShapeUniverse) (d d' : option ShapeDescriptor) : Prop :=
  exists shapeName, link_name d = Some shapeName /\ d' = universe !! shapeName.

(** The chain of links from a descriptor comes to an end. *)
Inductive finite_chain (universe : ShapeUniverse) : option ShapeDescriptor -> Prop :=
| chain_ends d : link_name d = None -> finite_chain universe d
| chain_follows d d' : follows universe d d' -> finite_chain universe d' ->
    finite_chain universe d.

(** A universe whose only shape is a link to itself. *)
Definition common : ShapeDescriptorCommon := {| jsType := object_t; graphQLType := None |}.
Definition self_link : ShapeUniverse := {[ "A" := LinkShape common "A" ]}.
(** A universe in which B links to C, which is a scalar. *)
Definition two_shapes : ShapeUniverse :=
  {[ "B" := LinkShape common "C"; "C" := ScalarShape common ]}.
(** *** The other methods of [ShapeInformation] *)

#[global] Instance ECMAScriptType_eq_dec : EqDecision ECMAScriptType.
Proof. solve_decision. Defined.

(** The string that an [ECMAScriptType] is. *)
Definition type_name (t : ECMAScriptType) : string :=
  match t with
  | void => "void" | null => "null" | boolean => "boolean" | string_t => "string"
  | symbol => "symbol" | number => "number" | object_t => "object" | array => "array"
  | function => "function" | integral => "integral"
  end.

(** [descriptor.kind] and the fields every kind has *)
Definition kind (descriptor : ShapeDescriptor) : string :=
  match descriptor with
  | ObjectShape _ _ => "object"
  | ArrayShape _ _ => "array"
  | LinkShape _ _ => "link"
  | ScalarShape _ => "scalar"
  | EnumShape _ => "enum"
  end.

Definition common_of (descriptor : ShapeDescriptor) : ShapeDescriptorCommon :=
  match descriptor with
  | ObjectShape c _ | ArrayShape c _ | LinkShape c _ | ScalarShape c | EnumShape c => c
  end.

Definition optional_of (property : ShapePropertyDescriptor) : bool :=
  match property with PropertyShape _ optional => optional end.

Definition shape_of (property : ShapePropertyDescriptor) : ShapeDescriptor :=
  match property with PropertyShape shape _ => shape end.

Definition _isOptional (this : ShapeInformation) : option bool :=
  match _parentDescriptor this with
  | None => None
  | Some (ObjectShape _ properties) =>
      match _parentKey this with
      | Some parentKey =>
          match map_get properties parentKey with
          | Some property => Some (optional_of property)
          | None => None
          end
      | None => None
      end
  | Some (ArrayShape _ elementShape) =>
      match elementShape with
      | Some elementShape => Some (optional_of elementShape)
      | None => None
      end
  | Some _ => None
  end.

Definition getAbstractType (this : ShapeInformation) : Utils.ValueType :=
  let jsType := jsType (common_of (_descriptor this)) in
  if default false (_isOptional this) || bool_decide (jsType = void)
     || bool_decide (jsType = null)
  then Utils.Value
  else default Utils.Value (Utils.getTypeFromName (type_name jsType)).

(** [fuel] bounds the turns of the loop of [_resolveLinksAndWrap] and the
    depth of the recursion. *)
Fixpoint _getAssociatedGetter (fuel : nat) (this : ShapeInformation)
    : option (option string) :=
  match _descriptor this with
  | ObjectShape _ _ => Some (Some "tree")
  | ArrayShape _ elementShape =>
      let elementShape := shape_of <$> elementShape in
      innerShape ← _resolveLinksAndWrap fuel elementShape (Some (_descriptor this)) None
                     (_universe this);
      match innerShape with
      | None => Some None
      | Some innerShape =>
          match fuel with
          | 0 => None
          | S fuel =>
              getter ← _getAssociatedGetter fuel innerShape;
              Some (match getter with
                    | Some getter =>
                        switch getter
                          [("bool", Some "bool_list"); ("double", Some "double_list");
                           ("int", Some "int_list"); ("time", Some "time_list");
                           ("string", Some "string_list"); ("tree", Some "tree_list")]
                          None
                    | None => None
                    end)
          end
      end
  | ScalarShape c =>
      Some (match graphQLType c with
            | Some graphQLType =>
                switch graphQLType
                  [("Color", Some "string"); ("File", Some "string"); ("ID", Some "string");
                   ("String", Some "string"); ("Url", Some "string");
                   ("Int", Some "int"); ("Time", Some "int");
                   ("Float", Some "double"); ("Boolean", Some "bool")]
                  None
            | None => None
            end)
  | EnumShape _ => Some (Some "string")
  | LinkShape _ _ => Some None
  end.

Definition getGetter (fuel : nat) (this : ShapeInformation) : option (option string) :=
  match _parentDescriptor this with
  | Some parentDescriptor =>
      if bool_decide (graphQLType (common_of parentDescriptor) <> None)
         && bool_decide (kind parentDescriptor = "object")
      then _getAssociatedGetter fuel this
      else Some None
  | None => Some None
  end.

(** The getters that name a list. *)
Definition list_getters : list string :=
  ["bool_list"; "double_list"; "int_list"; "string_list"; "tree_list"].

(** The members that every plain object inherits from [Object.prototype].
    A read [o[name]] of one of these names on an object that has no own
    property of that name finds the inherited member, not [undefined];
    the finite maps that stand for [universe] and [arguments] hold the
    own properties only, so they agree with the reads of the code on
    every other name. *)
Definition Object_prototype_names : list string :=
  ["constructor"; "hasOwnProperty"; "isPrototypeOf"; "propertyIsEnumerable";
   "toLocaleString"; "toString"; "valueOf"; "__proto__";
   "__defineGetter__"; "__defineSetter__"; "__lookupGetter__"; "__lookupSetter__"].

(** A universe whose shape L is an array of links to L, and one with a
    list of strings under an object of the schema. *)
Definition self_array : ShapeUniverse :=
  {[ "L" := ArrayShape {| jsType := array; graphQLType := None |}
              (Some (PropertyShape (LinkShape common "L") false)) ]}.

Definition string_scalar : ShapeDescriptor :=
  ScalarShape {| jsType := string_t; graphQLType := Some "String" |}.
Definition names_array (optional : bool) : ShapeDescriptor :=
  ArrayShape {| jsType := array; graphQLType := None |}
    (Some (PropertyShape (LinkShape common "Name") optional)).
Definition user_object : ShapeDescriptor :=
  ObjectShape {| jsType := object_t; graphQLType := Some "User" |}
    [("names", Some (PropertyShape (names_array true) false));
     ("nick", Some (PropertyShape (LinkShape common "Name") true))].
Definition matrix : ShapeDescriptor :=
  ArrayShape {| jsType := array; graphQLType := None |}
    (Some (PropertyShape (names_array false) false)).
Definition users : ShapeUniverse :=
  {[ "Name" := string_scalar; "User" := user_object ]}.
Definition user_model : ArgModel :=
  {| am_universe := users; arguments := {[ "user" := "User" ]} |}.
Definition user_info : ShapeInformation :=
  {| _descriptor := user_object; _parentDescriptor := None; _parentKey := None;
     _universe := users |}.
End Shape.

(** ** A small value model, for running the engine on concrete inputs *)
Module Sample.

(** A number is [NaN] or an integer. *)
Inductive number_t := NaN | Num (z : Z).

Inductive jsvalue :=
| Undefined
| Null
| Empty
| Boolean (b : bool)
| Number (n : number_t)
| String (s : string)
| Object (id : nat)
| Abstract (name : string)
| Conditional (c : jsvalue) (v1 v2 : option jsvalue).

#[global] Instance number_eq_dec : EqDecision number_t.
Proof. solve_decision. Defined.

#[global] Instance jsvalue_eq_dec : EqDecision jsvalue.
Proof.
  unfold EqDecision, Decision. fix IH 1. intros x y.
  decide equality; try solve_decision.
  all: decide equality.
Defined.

Definition is_abstract (v : jsvalue) : bool :=
  match v with Abstract _ | Conditional _ _ _ => true | _ => false end.

Definition is_empty (v : jsvalue) : bool :=
  match v with Empty => true | _ => false end.

Definition ToBoolean (v : jsvalue) : bool :=
  match v with
  | Undefined | Null | Empty => false
  | Boolean b => b
  | Number NaN => false
  | Number (Num z) => negb (Z.eqb z 0)
  | String s => negb (bool_decide (s = ""))
  | _ => true
  end.

(** Modelled from the spec: [StrictEqualityComparison] of methods/index.js
    is not part of the sources at hand; the spec calls it the
    strict-equality comparison of concrete values, which is JavaScript's
    [===]: values of different types differ, [NaN] differs from every
    number, itself included, and otherwise equal values are the same. *)
Definition strict_equality (x y : jsvalue) : bool :=
  match x, y with
  | Number NaN, _ | _, Number NaN => false
  | _, _ => bool_decide (x = y)
  end.

Definition value_model : ValueModel := {|
  Value := jsvalue;
  Location := nat;
  isAbstractValue := is_abstract;
  isEmptyValue := is_empty;
  mightNotBeTrue v := if is_abstract v then true else negb (ToBoolean v);
  mightNotBeFalse v := if is_abstract v then true else ToBoolean v;
  StrictEqualityComparison := strict_equality;
  createFromConditionalOp := Conditional;
  expressionLocation _ := None;
|}.

#[local] Existing Instance value_model.

Definition realm : @Realm value_model :=
  {| intrinsics_empty := Empty : @Value value_model;
     intrinsics_undefined := Undefined : @Value value_model;
     pathConditions := [] |}.

(** Modelled from the spec: [IsDataDescriptor] and [equalDescriptors] of
    methods/index.js are not part of the sources at hand.  A data
    descriptor is one with a value or a writable attribute; equal
    descriptors agree on their attributes and accessors, and their values
    are then joined (spec, 4.4). *)
Definition is_data_descriptor (d : @Descriptor value_model) : bool :=
  bool_decide (d_value d <> None) || bool_decide (writable d <> None).

Definition equal_descriptors (d1 d2 : @Descriptor value_model) : bool :=
  bool_decide (writable d1 = writable d2) && bool_decide (enumerable d1 = enumerable d2)
  && bool_decide (configurable d1 = configurable d2)
  && bool_decide (get d1 = get d2) && bool_decide (set d1 = set d2).

(** [getNormalCompletion] for forks one level deep: the child that is a
    [SimpleNormalCompletion]. *)
Definition get_normal_completion (pnc : loc) : M (@Heap value_model) loc :=
  p ← read_result pnc;
  match class_of p with
  | Some (PossiblyNormalCompletion _ consequent alternate _ _) =>
      a ← read_result alternate;
      if instanceof isSimpleNormalCompletion a then mret alternate
      else
        c ← read_result consequent;
        if instanceof isSimpleNormalCompletion c then mret consequent
        else throw InvariantViolation
  | _ => throw InvariantViolation
  end.

Definition helpers : @Helpers value_model := {|
  IsDataDescriptor := is_data_descriptor;
  equalDescriptors := equal_descriptors;
  getNormalCompletion := get_normal_completion;
|}.

(** *** Sample inputs *)

Definition condition : @Value value_model := Abstract "c".
Definition seven : @Value value_model := Number (Num 7).
Definition not_a_number : @Value value_model := Number NaN.
Definition boom : @Value value_model := String "boom".
Definition yes : @Value value_model := Boolean true.
Definition no : @Value value_model := Boolean false.

(** An abstraction function that records its calls in the state. *)
Definition recording (v1 v2 : option (@Value value_model))
    : M (list (option jsvalue * option jsvalue)) (@Value value_model) :=
  fun calls => (Ok (Conditional condition v1 v2), calls ++ [(v1, v2)]).

Definition heap_of (gs : list (@Generator value_model)) (es : list (@Effects value_model))
    (rs : list (@EvaluationResult value_model)) : @Heap value_model :=
  {| generators := gs; effectses := es; results := rs; diagnostics := [] |}.

Definition generator_of (es : list (@GeneratorEntry value_model)) : @Generator value_model :=
  {| g_name := "branch"; g_pathConditions := []; g_entries := es |}.

Definition effects_of_branch (r g : loc) : @Effects value_model :=
  {| result := r; generator := g; modifiedBindings := []; modifiedProperties := [];
     createdObjects := [] |}.

Definition a_completion (cls : @CompletionClass value_model) (v : jsvalue) (e : option loc)
    : @EvaluationResult value_model :=
  @completion value_model cls v e None.

(** Effects record 0 with three results after it: a break to L1, a
    continue to L2, a continue to L2 carrying a value. *)
Definition jumps : @Heap value_model :=
  heap_of [generator_of []] [effects_of_branch 0 0]
    [a_completion SimpleNormalCompletion Empty (Some 0);
     a_completion (BreakCompletion (Some "L1")) Empty None;
     a_completion (ContinueCompletion (Some "L2")) Empty None;
     a_completion (ContinueCompletion (Some "L2")) seven None].

(** Two throws of the same string. *)
Definition throws : @Heap value_model :=
  heap_of [generator_of []] [effects_of_branch 0 0]
    [a_completion SimpleNormalCompletion Empty (Some 0);
     a_completion ThrowCompletion boom None;
     a_completion ThrowCompletion boom None].

(** A binding [binding_x] that had the value 0 before the fork; one branch has
    leaked it with last value 1, the other still holds it with value 2. *)
Definition zero : @Value value_model := Number (Num 0).
Definition one : @Value value_model := Number (Num 1).
Definition two : @Value value_model := Number (Num 2).

Definition binding_x : @Binding value_model :=
  {| binding_id := 1; binding_hasLeaked := false; binding_value := Some zero |}.

Definition entry (leaked : bool) (v previous : @Value value_model) : @BindingEntry value_model :=
  {| hasLeaked := Some leaked; value := Some v;
     previousHasLeaked := Some false; previousValue := Some previous |}.

Definition leaked_with_1 : Bindings := [(binding_x, Some (entry true one zero))].
Definition held_with_2 : Bindings := [(binding_x, Some (entry false two zero))].
(** The same, but claiming that it was 7 before the fork. *)
Definition held_after_7 : Bindings := [(binding_x, Some (entry false two seven))].

(** Generator 0 for the first branch, generator 1 for the second. *)
Definition two_generators : @Heap value_model :=
  heap_of [generator_of [ResidualOperation 1]; generator_of [ResidualOperation 2]] [] [].

(** Two maps from numbers to numbers, and a join that adds what is there. *)
Definition first_map : JSMap nat nat := [(1, Some 10); (2, Some 20)].
Definition second_map : JSMap nat nat := [(2, Some 5); (3, None); (4, Some 1)].
Definition add_present (k : nat) (a b : option nat) : option nat :=
  Some (k + default 0 a + 2 * default 0 b).

(** Two branches: record 0 ends in a throw and has emitted operation 1,
    record 1 ends normally with value 7 and has emitted operation 2. *)
Definition throwing_side : @Completion value_model :=
  {| class := ThrowCompletion; c_value := boom; effects := Some 0; location := None |}.
Definition normal_side : @Completion value_model :=
  {| class := SimpleNormalCompletion; c_value := seven; effects := Some 1; location := None |}.

Definition fork_sides : @Heap value_model :=
  heap_of [generator_of [ResidualOperation 1]; generator_of [ResidualOperation 2]]
    [effects_of_branch 0 0; effects_of_branch 1 1]
    [ACompletion throwing_side; ACompletion normal_side].

(** The property [p] of object 1, which held 3 before the fork; one
    branch writes 5 to it with the same attributes, the other deletes it. *)
Definition three : @Value value_model := Number (Num 3).
Definition five : @Value value_model := Number (Num 5).

Definition data_property (v : @Value value_model) : @Descriptor value_model :=
  {| writable := Some true; enumerable := Some true; configurable := Some true;
     d_value := Some (AValue v); get := None; set := None;
     joinCondition := None; descriptor1 := None; descriptor2 := None |}.

Definition p : @PropertyBinding value_model :=
  {| object := Object 1; key := Some (StringKey "p");
     descriptor := Some (data_property three) |}.

Definition writes_5 : PropertyBindings := [(p, Some (data_property five))].
Definition deletes : PropertyBindings := [(p, None)].
(** *** More sample inputs *)

(** A third generator beside the two. *)
Definition three_generators : @Heap value_model :=
  heap_of [generator_of [ResidualOperation 1]; generator_of [ResidualOperation 2];
           generator_of [ResidualOperation 3]] [] [].

(** A data property whose value is an array of values. *)
Definition array_property (l : list (@Value value_model)) : @Descriptor value_model :=
  {| writable := Some true; enumerable := Some true; configurable := Some true;
     d_value := Some (AnArray (ArrayOfValues l)); get := None; set := None;
     joinCondition := None; descriptor1 := None; descriptor2 := None |}.

(** The property [q] of object 2, which the second branch creates. *)
Definition q : @PropertyBinding value_model :=
  {| object := Object 2; key := Some (StringKey "q"); descriptor := None |}.
Definition creates_q : PropertyBindings := [(q, Some (data_property five))].

(** Two branches that both end abruptly, and two that both end normally:
    record 0 with result 0 and generator 0, record 1 with result 1 and
    generator 1. *)
Definition two_ends (C1 C2 : @Completion value_model) : @Heap value_model :=
  heap_of [generator_of [ResidualOperation 1]; generator_of []]
    [effects_of_branch 0 0; effects_of_branch 1 1]
    [ACompletion C1; ACompletion C2].

Definition returning_side : @Completion value_model :=
  {| class := ReturnCompletion; c_value := seven; effects := Some 1; location := None |}.
Definition normal_first : @Completion value_model :=
  {| class := SimpleNormalCompletion; c_value := seven; effects := Some 0; location := None |}.
Definition normal_second : @Completion value_model :=
  {| class := SimpleNormalCompletion; c_value := seven; effects := Some 1; location := None |}.

(** The binding [binding_x] held in both branches, with 2 and with 1. *)
Definition held_with_1 : Bindings := [(binding_x, Some (entry false one zero))].

(** The two branches of [fork_sides] with the fork over them as result 2. *)
Definition open_fork : @Heap value_model :=
  heap_of [generator_of [ResidualOperation 1]; generator_of [ResidualOperation 2]]
    [effects_of_branch 0 0; effects_of_branch 1 1]
    [ACompletion throwing_side; ACompletion normal_side;
     a_completion (PossiblyNormalCompletion condition 0 1 [] None) seven None].
End Sample.

(** ** A value model of conditions as sets of booleans

    The engine reads a join condition through [mightNotBeTrue] and
    [mightNotBeFalse] only, and nothing in it relates the two answers.  In
    this model a value is the set of booleans that a condition may turn out
    to be, given by two flags.  The set may be empty, the condition of a
    path that cannot be taken, and then both tests answer false. *)
Module Domains.

Record flags := { may_be_true : bool; may_be_false : bool }.

#[global] Instance flags_eq_dec : EqDecision flags.
Proof. solve_decision. Defined.

Definition value_model : ValueModel := {|
  Value := flags;
  Location := nat;
  isAbstractValue v := may_be_true v && may_be_false v;
  isEmptyValue _ := false;
  mightNotBeTrue := may_be_false;
  mightNotBeFalse := may_be_true;
  StrictEqualityComparison x y := bool_decide (x = y);
  createFromConditionalOp _ _ _ := {| may_be_true := true; may_be_false := true |};
  expressionLocation _ := None;
|}.

#[local] Existing Instance value_model.

Definition always : @Value value_model := {| may_be_true := true; may_be_false := false |}.
Definition never : @Value value_model := {| may_be_true := false; may_be_false := true |}.
Definition impossible : @Value value_model :=
  {| may_be_true := false; may_be_false := false |}.

Definition realm : @Realm value_model :=
  {| intrinsics_empty := impossible : @Value value_model;
     intrinsics_undefined := never : @Value value_model;
     pathConditions := [] |}.

(** The helpers are not reached by a join that one of the two tests
    settles. *)
Definition helpers : @Helpers value_model := {|
  IsDataDescriptor _ := true;
  equalDescriptors _ _ := false;
  getNormalCompletion l := mret l;
|}.

Definition no_records : @Heap value_model :=
  {| generators := []; effectses := []; results := []; diagnostics := [] |}.
End Domains.

(** ** Proof steps *)

(** Membership in a list that is written out: proving it, and using it. *)
Ltac in_list :=
  solve [simpl; repeat first [apply list_elem_of_here | apply list_elem_of_further]].
Ltac cases_of H :=
  simpl in H; repeat (apply elem_of_cons in H as [H|H]); try (apply elem_of_nil in H as []).
(** * Properties *)

(** ** Running the monad *)
Section MonadFacts.
Context {S : Type}.

Lemma bind_run {A B} (m : M S A) (f : A -> M S B) (s : S) :
  (m ≫= f) s = match m s with
                | (Ok a, s') => f a s'
                | (Throw e, s') => (Throw e, s')
                end.
Proof. reflexivity. Qed.

Lemma bind_Ok {A B} (m : M S A) (f : A -> M S B) (s s' : S) (a : A) :
  m s = (Ok a, s') -> (m ≫= f) s = f a s'.
Proof. intros H. rewrite bind_run, H. reflexivity. Qed.

Lemma bind_Throw {A B} (m : M S A) (f : A -> M S B) (s s' : S) (e : Exn) :
  m s = (Throw e, s') -> (m ≫= f) s = (Throw e, s').
Proof. intros H. rewrite bind_run, H. reflexivity. Qed.

Lemma ret_run {A} (a : A) (s : S) : (mret a : M S A) s = (Ok a, s).
Proof. reflexivity. Qed.

Lemma invariant_true (s : S) : invariant true s = (Ok tt, s).
Proof. reflexivity. Qed.

Lemma invariant_false (s : S) : invariant false s = (Throw InvariantViolation, s).
Proof. reflexivity. Qed.
End MonadFacts.

(** ** Maps and joinMaps *)
Section MapFacts.
Context {K X : Type} `{EqDecision K}.
Implicit Types (m : list (K * option X)) (k : K) (v : option X).

Lemma map_find_None m k : map_find m k = None <-> k ∉ keys m.
Proof.
  unfold keys. induction m as [|[k' v'] m IH]; simpl.
  - split; [intros _; apply not_elem_of_nil | reflexivity].
  - destruct (decide (k' = k)) as [->|Hne].
    + split; [discriminate | intros Hn; exfalso; apply Hn; left].
    + rewrite IH, not_elem_of_cons. split; [intros; split; [congruence|assumption] | tauto].
Qed.

Lemma map_has_false m k : map_has m k = false <-> k ∉ keys m.
Proof.
  rewrite <- map_find_None. unfold map_has.
  destruct (map_find m k); split; congruence.
Qed.

Lemma map_has_true m k : map_has m k = true <-> k ∈ keys m.
Proof.
  destruct (map_has m k) eqn:E.
  - split; [intros _|reflexivity]. destruct (decide (k ∈ keys m)) as [|Hn]; [assumption|].
    apply map_has_false in Hn. congruence.
  - apply map_has_false in E. split; [discriminate | intros; contradiction].
Qed.

Lemma map_find_elem m k v : NoDup (keys m) -> (k, v) ∈ m -> map_find m k = Some v.
Proof.
  unfold keys. induction m as [|[k' v'] m IH]; simpl; intros Hnd Hin.
  - apply elem_of_nil in Hin as [].
  - apply NoDup_cons in Hnd as [Hk' Hnd]. apply elem_of_cons in Hin as [Heq|Hin].
    + injection Heq as -> ->. rewrite decide_True by reflexivity. reflexivity.
    + destruct (decide (k' = k)) as [->|Hne].
      * exfalso. apply Hk'. apply (list_elem_of_fmap_2 fst) in Hin. exact Hin.
      * apply IH; assumption.
Qed.

Lemma map_get_elem m k v : NoDup (keys m) -> (k, v) ∈ m -> map_get m k = v.
Proof. intros Hnd Hin. unfold map_get. rewrite (map_find_elem m k v) by assumption. reflexivity. Qed.

Lemma map_get_absent m k : k ∉ keys m -> map_get m k = None.
Proof. intros Hn. apply map_find_None in Hn. unfold map_get. rewrite Hn. reflexivity. Qed.

Lemma map_set_fresh m k v : k ∉ keys m -> map_set m k v = m ++ [(k, v)].
Proof.
  unfold keys. induction m as [|[k' v'] m IH]; simpl; intros Hn; [reflexivity|].
  apply not_elem_of_cons in Hn as [Hne Hn].
  rewrite decide_False by congruence. rewrite IH by assumption. reflexivity.
Qed.
End MapFacts.

Section JoinMapsFacts.
Context {S K X : Type} `{EqDecision K}.
Variable join : K -> option X -> option X -> M S (option X).

Lemma bind_ext {A B} (m : M S A) (f g : A -> M S B) (s : S) :
  (forall a s', f a s' = g a s') -> (m ≫= f) s = (m ≫= g) s.
Proof. intros E. rewrite !bind_run. destruct (m s) as [[a|e] s']; [apply E | reflexivity]. Qed.

Lemma bind_ret_r {A} (m : M S A) (s : S) : (m ≫= mret) s = m s.
Proof. rewrite bind_run. destruct (m s) as [[a|e] s']; reflexivity. Qed.

Lemma foldM_app {A B} (f : B -> A -> M S B) (l1 l2 : list A) (b : B) (s : S) :
  foldM f (l1 ++ l2) b s = (foldM f l1 b ≫= foldM f l2) s.
Proof.
  revert b s. induction l1 as [|a l1 IH]; intros b s; simpl; [reflexivity|].
  rewrite !bind_run. destruct (f b a s) as [[b'|e] s']; [|reflexivity].
  rewrite IH. rewrite bind_run. reflexivity.
Qed.

Lemma foldM_map {A A' B} (f : B -> A' -> M S B) (g : A -> A') (l : list A) (b : B) (s : S) :
  foldM f (map g l) b s = foldM (fun b a => f b (g a)) l b s.
Proof.
  revert b s. induction l as [|a l IH]; intros b s; simpl; [reflexivity|].
  apply bind_ext. intros; apply IH.
Qed.

Lemma foldM_filter {A B} (f : B -> A -> M S B) (p : A -> Prop) `{forall a, Decision (p a)}
    (l : list A) (b : B) (s : S) :
  foldM f (filter p l) b s = foldM (fun b a => if decide (p a) then f b a else mret b) l b s.
Proof.
  revert b s. induction l as [|a l IH]; intros b s; simpl; [reflexivity|].
  rewrite filter_cons. destruct (decide (p a)); simpl.
  - apply bind_ext. intros; apply IH.
  - rewrite bind_run. simpl. apply IH.
Qed.

Lemma foldM_ext {A B} (f g : B -> A -> M S B) (l : list A) (b : B) (s : S) :
  (forall b a s, f b a s = g b a s) -> foldM f l b s = foldM g l b s.
Proof.
  intros E. revert b s. induction l as [|a l IH]; intros b s; simpl; [reflexivity|].
  rewrite !bind_run, E. destruct (g b a s) as [[b'|e] s']; [apply IH | reflexivity].
Qed.

Lemma first_loop_calls (m1 m2 : JSMap K X) (acc : JSMap K X) (s : S) :
  foldM (fun m3 '(key, val1) =>
           let val2 := map_get m2 key in
           val3 ← join key val1 val2;
           mret (map_set m3 key val3)) m1 acc s
  = foldM (call_body join) (map (fun '(key, val1) => (key, val1, map_get m2 key)) m1) acc s.
Proof. rewrite foldM_map. apply foldM_ext. intros b [key val1] s0. reflexivity. Qed.

Lemma second_loop_calls (m1 m2 : JSMap K X) (acc : JSMap K X) (s : S) :
  foldM (fun m3 '(key, val2) =>
           if negb (map_has m1 key) then
             val3 ← join key None val2;
             mret (map_set m3 key val3)
           else mret m3) m2 acc s
  = foldM (call_body join)
      (map (fun '(key, val2) => (key, None, val2))
         (filter (fun e => map_has m1 e.1 = false) m2)) acc s.
Proof.
  rewrite foldM_map, foldM_filter. apply foldM_ext. intros b [key val2] s0. simpl.
  destruct (map_has m1 key); reflexivity.
Qed.

(** [joinMaps] is one loop over its calls. *)
Lemma joinMaps_calls (m1 m2 : JSMap K X) (s : S) :
  joinMaps m1 m2 join s = foldM (call_body join) (join_calls m1 m2) [] s.
Proof.
  unfold joinMaps, join_calls. rewrite foldM_app. rewrite !bind_run.
  rewrite first_loop_calls.
  destruct (foldM _ _ [] s) as [[m3|e] s']; [|reflexivity].
  rewrite bind_ret_r. apply second_loop_calls.
Qed.

Lemma join_calls_keys (m1 m2 : JSMap K X) :
  (join_calls m1 m2).*1.*1 = keys m1 ++ filter (fun k => k ∉ keys m1) (keys m2).
Proof.
  unfold join_calls, keys. rewrite !fmap_app. f_equal.
  - induction m1 as [|[k v] m1 IH]; simpl; [reflexivity|]. f_equal. exact IH.
  - induction m2 as [|[k v] m2 IH]; simpl; [reflexivity|].
    rewrite !filter_cons. simpl.
    destruct (decide (map_has m1 k = false)) as [Hf|Hf];
      destruct (decide (k ∉ m1.*1)) as [Hn|Hn]; simpl.
    + f_equal. exact IH.
    + exfalso. apply Hn. apply map_has_false. exact Hf.
    + exfalso. apply Hf. apply map_has_false. exact Hn.
    + exact IH.
Qed.

Lemma join_calls_NoDup (m1 m2 : JSMap K X) :
  NoDup (keys m1) -> NoDup (keys m2) -> NoDup (join_calls m1 m2).*1.*1.
Proof.
  intros H1 H2. rewrite join_calls_keys. apply NoDup_app. split; [assumption|]. split.
  - intros k Hk Hk'. apply list_elem_of_filter in Hk' as [Hn _]. contradiction.
  - apply NoDup_filter. assumption.
Qed.

(** Running the loop when every call returns: [I] is an invariant of the
    state indexed by the calls made so far, [F] relates a call to what it
    returns. *)
Lemma foldM_calls_run (I : list (K * option X * option X) -> S -> Prop)
    (F : K * option X * option X -> option X -> Prop)
    (calls : list (K * option X * option X)) :
  forall done acc s,
    NoDup (keys acc ++ calls.*1.*1) ->
    I done s ->
    (forall done' c s, c ∈ calls -> I done' s ->
       exists r s', join c.1.1 c.1.2 c.2 s = (Ok r, s') /\ F c r /\ I (done' ++ [c]) s') ->
    exists rs s',
      foldM (call_body join) calls acc s = (Ok (acc ++ zip calls.*1.*1 rs), s')
      /\ Forall2 F calls rs /\ I (done ++ calls) s'.
Proof.
  induction calls as [|c calls IH]; intros done acc s Hnd HI Hstep.
  - exists [], s. simpl. rewrite !app_nil_r. repeat split; [constructor | assumption].
  - destruct (Hstep done c s) as (r & s1 & Hr & HF & HI1); [left | assumption |].
    simpl in Hnd.
    assert (Hfresh : c.1.1 ∉ keys acc).
    { apply NoDup_app in Hnd as (_ & Hd & _). intros Hin. apply (Hd _ Hin). left. }
    destruct (IH (done ++ [c]) (acc ++ [(c.1.1, r)]) s1) as (rs & s' & Hrun & HFs & HI');
      [ | assumption | intros d c' s0 Hc'; apply Hstep; right; exact Hc' | ].
    { unfold keys in *. rewrite fmap_app. simpl. rewrite <- app_assoc. exact Hnd. }
    exists (r :: rs), s'. repeat split.
    + simpl. unfold call_body at 2. rewrite !bind_run, Hr. simpl.
      rewrite map_set_fresh by assumption. rewrite Hrun, <- app_assoc. reflexivity.
    + constructor; assumption.
    + rewrite <- app_assoc in HI'. exact HI'.
Qed.

(** Running the loop when some call throws. *)
Lemma foldM_calls_throw (I : S -> Prop) (e : Exn)
    (calls : list (K * option X * option X)) (c : K * option X * option X) :
  c ∈ calls ->
  (forall c' s, c' ∈ calls -> I s ->
     (exists r s', join c'.1.1 c'.1.2 c'.2 s = (Ok r, s') /\ I s')
     \/ (exists s', join c'.1.1 c'.1.2 c'.2 s = (Throw e, s'))) ->
  (forall s, I s -> exists s', join c.1.1 c.1.2 c.2 s = (Throw e, s')) ->
  forall acc s, I s -> exists s', foldM (call_body join) calls acc s = (Throw e, s').
Proof.
  induction calls as [|c0 calls IH]; intros Hin Hstep Hthrow acc s HI.
  - apply elem_of_nil in Hin as [].
  - simpl. unfold call_body at 2. rewrite !bind_run.
    apply elem_of_cons in Hin as [<-|Hin].
    + destruct (Hthrow s HI) as (s' & ->). exists s'. reflexivity.
    + destruct (Hstep c0 s) as [(r & s1 & -> & HI1) | (s' & ->)]; [left | assumption | |].
      * simpl. apply IH; try assumption. intros c' s0 Hc'. apply Hstep. right. exact Hc'.
      * exists s'. reflexivity.
Qed.

(** When the loop returns, every call has returned, and the map holds
    what the calls returned. *)
Lemma foldM_calls_Ok (calls : list (K * option X * option X)) :
  forall acc s m3 s',
    NoDup (keys acc ++ calls.*1.*1) ->
    foldM (call_body join) calls acc s = (Ok m3, s') ->
    exists rs,
      m3 = acc ++ zip calls.*1.*1 rs
      /\ Forall2 (fun c r => exists s1 s2, join c.1.1 c.1.2 c.2 s1 = (Ok r, s2)) calls rs.
Proof.
  induction calls as [|c calls IH]; intros acc s m3 s' Hnd Hrun.
  - simpl in Hrun. injection Hrun as <- <-. exists []. simpl. rewrite app_nil_r.
    split; [reflexivity | constructor].
  - simpl in Hrun, Hnd. unfold call_body at 2 in Hrun. rewrite !bind_run in Hrun.
    destruct (join c.1.1 c.1.2 c.2 s) as [[r|e] s1] eqn:Hr; [|discriminate].
    simpl in Hrun.
    assert (Hfresh : c.1.1 ∉ keys acc).
    { apply NoDup_app in Hnd as (_ & Hd & _). intros Hin. apply (Hd _ Hin). left. }
    rewrite map_set_fresh in Hrun by assumption.
    assert (Hnd' : NoDup (keys (acc ++ [(c.1.1, r)]) ++ calls.*1.*1)).
    { unfold keys in *. rewrite fmap_app. simpl. rewrite <- app_assoc. exact Hnd. }
    destruct (IH _ _ _ _ Hnd' Hrun) as (rs & -> & HF).
    exists (r :: rs). split; [simpl; rewrite <- app_assoc; reflexivity|].
    constructor; [eexists _, _; exact Hr | exact HF].
Qed.

Lemma zip_find (calls : list (K * option X * option X)) (rs : list (option X))
    (P : K * option X * option X -> option X -> Prop) c :
  NoDup calls.*1.*1 -> Forall2 P calls rs -> c ∈ calls ->
  exists r, map_find (zip calls.*1.*1 rs) c.1.1 = Some r /\ P c r.
Proof.
  intros Hnd HF. induction HF as [|c0 r0 calls rs HP HF IH]; intros Hin.
  - apply elem_of_nil in Hin as [].
  - simpl in Hnd. apply NoDup_cons in Hnd as [Hc0 Hnd]. simpl.
    apply elem_of_cons in Hin as [->|Hin].
    + rewrite decide_True by reflexivity. exists r0. split; [reflexivity | exact HP].
    + rewrite decide_False.
      * apply IH; assumption.
      * intros Heq. apply Hc0. rewrite Heq.
        apply list_elem_of_fmap. exists c.1. split; [reflexivity|].
        apply list_elem_of_fmap. exists c. split; [reflexivity | exact Hin].
Qed.

(** What [joinMaps] returns at a key whose call returns the same in every
    state. *)
Lemma joinMaps_at (m1 m2 : JSMap K X) (s s' : S) (m3 : JSMap K X)
    (c : K * option X * option X) (r : option X) :
  NoDup (keys m1) -> NoDup (keys m2) ->
  c ∈ join_calls m1 m2 ->
  (forall s0, join c.1.1 c.1.2 c.2 s0 = (Ok r, s0)) ->
  joinMaps m1 m2 join s = (Ok m3, s') ->
  map_find m3 c.1.1 = Some r.
Proof.
  intros N1 N2 Hc Hr Hrun. rewrite joinMaps_calls in Hrun.
  pose proof (join_calls_NoDup m1 m2 N1 N2) as Hnd.
  destruct (foldM_calls_Ok (join_calls m1 m2) [] s m3 s' Hnd Hrun) as (rs & -> & HF). simpl.
  destruct (zip_find _ _ _ c Hnd HF Hc) as (r' & Hfind & s1 & s2 & Hr').
  rewrite Hr in Hr'. injection Hr' as <- _. exact Hfind.
Qed.
End JoinMapsFacts.

Section UnionDeterminism.
Context {S K X : Type} `{EqDecision K}.
Implicit Types (m : list (K * option X)) (f : K -> option X -> option X -> option X).

Lemma join_calls_args m1 m2 k a b :
  NoDup (keys m1) -> NoDup (keys m2) ->
  (k, a, b) ∈ join_calls m1 m2 -> a = map_get m1 k /\ b = map_get m2 k.
Proof.
  intros H1 H2 Hin. unfold join_calls in Hin. apply elem_of_app in Hin as [Hin|Hin].
  - apply list_elem_of_fmap in Hin as ([k' v] & Heq & Hin). injection Heq as -> -> ->.
    split; [|reflexivity]. symmetry. apply map_get_elem; assumption.
  - apply list_elem_of_fmap in Hin as ([k' v] & Heq & Hin). injection Heq as -> -> ->.
    apply list_elem_of_filter in Hin as [Hf Hin]. simpl in Hf.
    split; symmetry; [apply map_get_absent, map_has_false, Hf | apply map_get_elem; assumption].
Qed.

Lemma zip_results (g : K * option X * option X -> option X)
    (calls : list (K * option X * option X)) (rs : list (option X)) :
  Forall2 (fun c r => r = g c) calls rs ->
  zip calls.*1.*1 rs = map (fun c => (c.1.1, g c)) calls.
Proof. induction 1 as [|c r calls rs -> _ IH]; simpl; [reflexivity|]. f_equal. exact IH. Qed.

(** The map that [joinMaps] builds from a join that only computes. *)
Lemma joinMaps_pure f m1 m2 (s : S) :
  NoDup (keys m1) -> NoDup (keys m2) ->
  joinMaps m1 m2 (fun k a b => mret (f k a b)) s
  = (Ok (map (fun c => (c.1.1, f c.1.1 c.1.2 c.2)) (join_calls m1 m2)), s).
Proof.
  intros H1 H2. rewrite joinMaps_calls.
  destruct (foldM_calls_run (fun k a b => mret (f k a b)) (fun _ s' => s' = s)
              (fun c r => r = f c.1.1 c.1.2 c.2) (join_calls m1 m2) [] [] s)
    as (rs & s' & Hrun & HF & ->).
  - simpl. apply join_calls_NoDup; assumption.
  - reflexivity.
  - intros d c s0 _ ->. eexists _, s. repeat split.
  - rewrite Hrun. simpl. rewrite (zip_results _ _ _ HF). reflexivity.
Qed.

Lemma joined_keys f (calls : list (K * option X * option X)) :
  keys (map (fun c => (c.1.1, f c.1.1 c.1.2 c.2)) calls) = calls.*1.*1.
Proof. unfold keys. induction calls as [|c calls IH]; simpl; [reflexivity|]. f_equal. exact IH. Qed.

Lemma joined_find f m1 m2 k :
  NoDup (keys m1) -> NoDup (keys m2) ->
  k ∈ keys m1 \/ k ∈ keys m2 ->
  map_find (map (fun c => (c.1.1, f c.1.1 c.1.2 c.2)) (join_calls m1 m2)) k
  = Some (f k (map_get m1 k) (map_get m2 k)).
Proof.
  intros H1 H2 Hk.
  assert (Hin : k ∈ (join_calls m1 m2).*1.*1).
  { rewrite join_calls_keys, elem_of_app, list_elem_of_filter.
    destruct (decide (k ∈ keys m1)); [left; assumption | right; tauto]. }
  apply list_elem_of_fmap in Hin as ([k' a] & Heq & Hin). simpl in Heq. subst k'.
  apply list_elem_of_fmap in Hin as ([[k' a'] b] & Heq & Hin). simpl in Heq.
  injection Heq as <- <-.
  destruct (join_calls_args _ _ _ _ _ H1 H2 Hin) as [Ha Hb].
  apply map_find_elem.
  - rewrite joined_keys. apply join_calls_NoDup; assumption.
  - apply list_elem_of_fmap. exists (k, a, b). simpl. rewrite Ha, Hb. split; [reflexivity|].
    rewrite <- Ha, <- Hb. exact Hin.
Qed.

(** C7: with a join [f] and its mirror image [f'], [joinMaps(m1, m2, f)]
    and [joinMaps(m2, m1, f')] return maps with the same keys, those of
    [m1] and [m2] together, each mapped to [f(key, m1.get(key),
    m2.get(key))]; the keys of the first come in the order of [m1],
    followed by those only [m2] has, in the order of [m2]. *)
Theorem joinMaps_union f m1 m2 (s : S) :
  NoDup (keys m1) -> NoDup (keys m2) ->
  let f' := fun k a b => f k b a in
  exists m3 m3',
    joinMaps m1 m2 (fun k a b => mret (f k a b)) s = (Ok m3, s)
    /\ joinMaps m2 m1 (fun k a b => mret (f' k a b)) s = (Ok m3', s)
    /\ keys m3 = keys m1 ++ filter (fun k => k ∉ keys m1) (keys m2)
    /\ keys m3' = keys m2 ++ filter (fun k => k ∉ keys m2) (keys m1)
    /\ (forall k, k ∈ keys m3 <-> k ∈ keys m1 \/ k ∈ keys m2)
    /\ (forall k, k ∈ keys m3' <-> k ∈ keys m3)
    /\ (forall k, k ∈ keys m3 ->
          map_find m3 k = Some (f k (map_get m1 k) (map_get m2 k))
          /\ map_find m3' k = Some (f k (map_get m1 k) (map_get m2 k))).
Proof.
  intros H1 H2 f'. eexists _, _.
  split; [apply joinMaps_pure; assumption|].
  split; [apply joinMaps_pure; assumption|].
  rewrite !joined_keys, !join_calls_keys.
  assert (U : forall (l1 l2 : list K) k,
             k ∈ l1 ++ filter (fun k => k ∉ l1) l2 <-> k ∈ l1 \/ k ∈ l2).
  { intros l1 l2 k. rewrite elem_of_app, list_elem_of_filter.
    destruct (decide (k ∈ l1)); tauto. }
  split; [reflexivity|]. split; [reflexivity|].
  split; [apply U|]. split; [intros k; rewrite !U; tauto|].
  intros k Hk. apply U in Hk. split.
  - apply joined_find; assumption.
  - rewrite (joined_find f' m2 m1 k H2 H1) by tauto. reflexivity.
Qed.
End UnionDeterminism.

Section ValueFacts.
Context `{VM : ValueModel}.

Lemma joinValues_of_values {S} realm g (a b : Value) (s : S) :
  joinValues realm (pure2 g) (Some (AValue a)) (Some (AValue b)) s
  = (Ok (AValue (joined_value g a b)), s).
Proof.
  unfold joinValues, joined_value, throwIfNotConcrete, pure2. simpl.
  rewrite bind_run.
  destruct (isAbstractValue a) eqn:Ha; simpl; [reflexivity|].
  destruct (isAbstractValue b) eqn:Hb; simpl; [reflexivity|].
  destruct (StrictEqualityComparison a b); reflexivity.
Qed.

(** C6, as amended: on a concrete value that is strictly equal to itself,
    [joinValues(realm, v, v, f)] returns [v] and leaves the state as it
    was, whatever [f] is: [f] is not called. *)
Theorem joinValues_same_concrete {S} realm
    (f : option Value -> option Value -> M S Value) (v : Value) (s : S) :
  isAbstractValue v = false ->
  StrictEqualityComparison v v = true ->
  joinValues realm f (Some (AValue v)) (Some (AValue v)) s = (Ok (AValue v), s).
Proof.
  intros Hv Heq. unfold joinValues, throwIfNotConcrete. simpl.
  rewrite bind_run, Hv. simpl. rewrite Heq. reflexivity.
Qed.
End ValueFacts.

Section EngineFacts.
Context `{VM : ValueModel} `{HP : !Helpers}.

Lemma deref_Some {A} (arena : Heap -> list A) (l : loc) (x : A) (h : Heap) :
  arena h !! l = Some x -> deref arena l h = (Ok x, h).
Proof. intros H. unfold deref. rewrite H. reflexivity. Qed.

Lemma read_result_Some l x h : results h !! l = Some x -> read_result l h = (Ok x, h).
Proof. apply deref_Some. Qed.
Lemma read_effects_Some l x h : effectses h !! l = Some x -> read_effects l h = (Ok x, h).
Proof. apply deref_Some. Qed.
Lemma read_generator_Some l x h : generators h !! l = Some x -> read_generator l h = (Ok x, h).
Proof. apply deref_Some. Qed.

(** C1, as amended: when the join condition cannot be false
    ([mightNotBeTrue] answers false), [joinForkOrChoose] returns the very
    record [e1] and touches nothing, whatever the second test would
    answer; when it cannot be true ([mightNotBeFalse] answers false) and
    the first test has not already chosen [e1], it returns the very
    record [e2] and touches nothing. *)
Theorem joinForkOrChoose_short_circuit realm (joinCondition : Value) (e1 e2 : loc) (s : Heap) :
  (mightNotBeTrue joinCondition = false ->
     joinForkOrChoose realm joinCondition e1 e2 s = (Ok e1, s))
  /\ (mightNotBeFalse joinCondition = false -> mightNotBeTrue joinCondition = true ->
        joinForkOrChoose realm joinCondition e1 e2 s = (Ok e2, s)).
Proof.
  split.
  - intros Ht. unfold joinForkOrChoose. rewrite Ht. reflexivity.
  - intros Hf Ht. unfold joinForkOrChoose. rewrite Ht, Hf. reflexivity.
Qed.

Lemma new_Completion_run cls v pe l s :
  new_Completion cls v pe l s = allocated (completion cls v pe l) s.
Proof. reflexivity. Qed.


Lemma joined_value_concrete_equal g (a b : Value) :
  isAbstractValue a = false -> isAbstractValue b = false ->
  StrictEqualityComparison a b = true -> joined_value g a b = a.
Proof. intros Ha Hb He. unfold joined_value. rewrite Ha, Hb, He. reflexivity. Qed.

Lemma joined_value_cases g (a b : Value) :
  joined_value g a b = g (Some a) (Some b)
  \/ (joined_value g a b = a /\ isAbstractValue a = false /\ isAbstractValue b = false
      /\ StrictEqualityComparison a b = true).
Proof.
  unfold joined_value.
  destruct (isAbstractValue a), (isAbstractValue b), (StrictEqualityComparison a b);
    simpl; auto.
Qed.

Lemma collapseResults_matched realm (joinCondition : Value)
    (precedingEffects result1 result2 : loc) (s : Heap) (c1 c2 : Completion) :
  results s !! result1 = Some (ACompletion c1) ->
  results s !! result2 = Some (ACompletion c2) ->
  isAbruptCompletion (class c1) = true ->
  isAbruptCompletion (class c2) = true ->
  collapseResults realm joinCondition precedingEffects result1 result2 s
  = let skipping := getAbstractValue_skipping_empty realm joinCondition in
    let conditional := getAbstractValue_conditional joinCondition in
    let new cls v l := allocated (completion cls v (Some precedingEffects) l) s in
    if matched_abrupt (class c1) (class c2) then
      match class c1 with
      | ContinueCompletion t =>
          new (ContinueCompletion t) (intrinsics_empty realm) (expressionLocation joinCondition)
      | ThrowCompletion =>
          new ThrowCompletion (joined_value conditional (c_value c1) (c_value c2)) (location c1)
      | cls =>
          new cls (joined_value skipping (c_value c1) (c_value c2))
            (expressionLocation joinCondition)
      end
    else introspection_error joinCondition s.
Proof.
  intros H1 H2 A1 A2. unfold collapseResults, collapseResults_on.
  rewrite (bind_Ok _ _ _ _ _ (read_result_Some _ _ _ H1)).
  rewrite (bind_Ok _ _ _ _ _ (read_result_Some _ _ _ H2)).
  unfold instanceof, target_of, value_of, location_of, class_of.
  destruct (class c1) eqn:K1; try discriminate A1;
    destruct (class c2) eqn:K2; try discriminate A2; simpl;
    try reflexivity;
    try (rewrite (bind_Ok _ _ _ _ _ (joinValues_of_values _ _ _ _ _)); reflexivity).
  - destruct (decide (target = target0)) as [->|Hne].
    + rewrite !bool_decide_eq_true_2 by reflexivity.
      rewrite (bind_Ok _ _ _ _ _ (joinValues_of_values _ _ _ _ _)). reflexivity.
    + rewrite !bool_decide_eq_false_2 by exact Hne. reflexivity.
  - destruct (decide (target = target0)) as [->|Hne].
    + rewrite !bool_decide_eq_true_2 by reflexivity. reflexivity.
    + rewrite !bool_decide_eq_false_2 by exact Hne. reflexivity.
Qed.

(** C4, as amended: [collapseResults] on two abrupt completions.  Two
    Breaks (two Continues) with the same target give one Break (Continue)
    of that target, two Returns one Return, two Throws one Throw; the
    value is [joinValues] of the two values (the empty sentinel for
    Continue), which for Throw is the conditional value "c ? a : b" unless
    [a] and [b] are strictly equal concrete values, when it is [a].  Every
    other pair of abrupt completions is reported as an introspection error
    and raises FatalError, with no completion made. *)
Theorem collapseResults_abrupt_pairs realm (joinCondition : Value)
    (precedingEffects result1 result2 : loc) (s : Heap) (c1 c2 : Completion) :
  results s !! result1 = Some (ACompletion c1) ->
  results s !! result2 = Some (ACompletion c2) ->
  let run := collapseResults realm joinCondition precedingEffects result1 result2 s in
  let skipping := getAbstractValue_skipping_empty realm joinCondition in
  let new cls v l := allocated (completion cls v (Some precedingEffects) l) s in
  let a := c_value c1 in
  let b := c_value c2 in
  (forall t, class c1 = BreakCompletion t -> class c2 = BreakCompletion t ->
     run = new (BreakCompletion t) (joined_value skipping a b)
             (expressionLocation joinCondition))
  /\ (forall t, class c1 = ContinueCompletion t -> class c2 = ContinueCompletion t ->
        run = new (ContinueCompletion t) (intrinsics_empty realm)
                (expressionLocation joinCondition))
  /\ (class c1 = ReturnCompletion -> class c2 = ReturnCompletion ->
        run = new ReturnCompletion (joined_value skipping a b)
                (expressionLocation joinCondition))
  /\ (class c1 = ThrowCompletion -> class c2 = ThrowCompletion ->
        run = new ThrowCompletion
                (if negb (isAbstractValue a) && negb (isAbstractValue b)
                    && StrictEqualityComparison a b
                 then a
                 else createFromConditionalOp joinCondition (Some a) (Some b))
                (location c1))
  /\ (isAbruptCompletion (class c1) = true -> isAbruptCompletion (class c2) = true ->
      matched_abrupt (class c1) (class c2) = false ->
        run = introspection_error joinCondition s).
Proof.
  intros H1 H2 run skipping new a b.
  pose proof (collapseResults_matched realm joinCondition precedingEffects _ _ _ _ _ H1 H2)
    as E.
  repeat split.
  - intros t K1 K2. subst run. rewrite E by (rewrite ?K1, ?K2; reflexivity).
    rewrite K1, K2. simpl. rewrite bool_decide_eq_true_2 by reflexivity. reflexivity.
  - intros t K1 K2. subst run. rewrite E by (rewrite ?K1, ?K2; reflexivity).
    rewrite K1, K2. simpl. rewrite bool_decide_eq_true_2 by reflexivity. reflexivity.
  - intros K1 K2. subst run. rewrite E by (rewrite ?K1, ?K2; reflexivity).
    rewrite K1, K2. reflexivity.
  - intros K1 K2. subst run. rewrite E by (rewrite ?K1, ?K2; reflexivity).
    rewrite K1, K2. reflexivity.
  - intros A1 A2 Hm. subst run. rewrite E by assumption. rewrite Hm. reflexivity.
Qed.

(** C9: two [ContinueCompletion]s with the same target collapse to a
    [ContinueCompletion] of that target whose value is the empty sentinel,
    whatever values the two carried and whatever [this.joinValues] is:
    the method is not called. *)
Theorem collapseResults_Continue this_joinValues realm (joinCondition : Value)
    (precedingEffects result1 result2 : loc) (s : Heap)
    (t : option string) (c1 c2 : Completion) :
  results s !! result1 = Some (ACompletion c1) ->
  results s !! result2 = Some (ACompletion c2) ->
  class c1 = ContinueCompletion t ->
  class c2 = ContinueCompletion t ->
  collapseResults_on this_joinValues realm joinCondition precedingEffects result1 result2 s
  = allocated (completion (ContinueCompletion t) (intrinsics_empty realm)
                 (Some precedingEffects) (expressionLocation joinCondition)) s.
Proof.
  intros H1 H2 K1 K2. unfold collapseResults_on.
  rewrite (bind_Ok _ _ _ _ _ (read_result_Some _ _ _ H1)).
  rewrite (bind_Ok _ _ _ _ _ (read_result_Some _ _ _ H2)).
  unfold instanceof, target_of, class_of. rewrite K1, K2. simpl.
  rewrite bool_decide_eq_true_2 by reflexivity. reflexivity.
Qed.


(** ** joinBindings *)

Lemma with_generators_id (h : Heap) : with_generators (fun a => a) h = h.
Proof. destruct h; reflexivity. Qed.

Lemma with_generators_insert_id (h : Heap) g G :
  generators h !! g = Some G -> with_generators (fun a => <[g := G]> a) h = h.
Proof.
  intros H. destruct h; unfold with_generators; simpl in *.
  rewrite list_insert_id by assumption. reflexivity.
Qed.

Lemma lookup_last {A} (l : list A) (x : A) : (l ++ [x]) !! length l = Some x.
Proof. apply list_lookup_middle. reflexivity. Qed.

Lemma insert_last {A} (l : list A) (x y : A) : <[length l := y]> (l ++ [x]) = l ++ [y].
Proof.
  rewrite insert_app_r_alt by reflexivity. rewrite Nat.sub_diag. reflexivity.
Qed.

Lemma add_entries_nil (G : Generator) : add_entries [] G = G.
Proof. destruct G. unfold add_entries. simpl. rewrite app_nil_r. reflexivity. Qed.

Lemma update_generator_run l f h G :
  generators h !! l = Some G ->
  update_generator l f h = (Ok tt, with_generators (fun a => <[l := f G]> a) h).
Proof.
  intros H. unfold update_generator.
  rewrite (bind_Ok _ _ _ _ _ (read_generator_Some _ _ _ H)). reflexivity.
Qed.

(** What [leak] does to a heap in which [g] is a generator. *)
Lemma leak_run realm b g v (rewritten : bool) h :
  g < length (generators h) ->
  leak realm b g v rewritten h
  = (Ok (leaked_loc g rewritten h, true), leaked_heap realm b v g rewritten h).
Proof.
  intros Hlt. destruct (lookup_lt_is_Some_2 _ _ Hlt) as [G HG].
  unfold leaked_heap, leaked_loc. rewrite HG.
  unfold leak. destruct rewritten; simpl.
  - rewrite bind_run. simpl. unfold leaked_generator, assignment.
    destruct v as [x|]; simpl.
    + destruct (decide (x = intrinsics_undefined realm)) as [->|Hne].
      * rewrite bool_decide_eq_true_2 by reflexivity. simpl.
        rewrite add_entries_nil, with_generators_insert_id by assumption. reflexivity.
      * rewrite bool_decide_eq_false_2 by assumption. simpl.
        rewrite bind_run. unfold emitBindingAssignment.
        rewrite (update_generator_run _ _ _ _ HG). reflexivity.
    + rewrite add_entries_nil, with_generators_insert_id by assumption. reflexivity.
  - destruct h as [gens effs ress diag]; simpl in HG.
    unfold leaked_generator, read_generator, new_Generator, Generator_empty, appendGenerator,
      emitBindingAssignment, update_generator, read_generator, deref, alloc_generator,
      modify_state, with_generators, mbind, M_bind, mret, M_ret.
    simpl. rewrite HG. simpl. rewrite (lookup_app_l_Some _ _ _ _ HG). simpl.
    unfold assignment.
    destruct (decide (g_entries G = [])) as [HE|HE].
    + rewrite (bool_decide_eq_true_2 _ HE). simpl. rewrite HE. simpl.
      destruct v as [x|]; [|reflexivity].
      destruct (decide (x = intrinsics_undefined realm)) as [Hx|Hx].
      * rewrite (bool_decide_eq_true_2 _ Hx). reflexivity.
      * rewrite (bool_decide_eq_false_2 _ Hx). simpl.
        rewrite lookup_last. simpl. rewrite insert_last. reflexivity.
    + rewrite (bool_decide_eq_false_2 _ HE). simpl.
      rewrite (lookup_app_l_Some _ _ _ _ HG). simpl. rewrite lookup_last. simpl.
      rewrite insert_last.
      destruct v as [x|]; [|simpl; rewrite app_nil_r; reflexivity].
      destruct (decide (x = intrinsics_undefined realm)) as [Hx|Hx].
      * rewrite (bool_decide_eq_true_2 _ Hx). simpl. rewrite app_nil_r. reflexivity.
      * rewrite (bool_decide_eq_false_2 _ Hx). simpl.
        rewrite lookup_last. simpl. rewrite insert_last. reflexivity.
Qed.

Lemma joinValues_of_options {S} realm g (v1 v2 : option Value) (s : S) :
  joinValues realm (pure2 g) (AValue <$> v1) (AValue <$> v2) s
  = (Ok (AValue (joined_option_value g v1 v2)), s).
Proof.
  destruct v1 as [a|], v2 as [b|]; try reflexivity.
  apply joinValues_of_values.
Qed.

Lemma on_heap_run {A} (m : M Heap A) (h h' : Heap) (cv : Captured) (r : Outcome A) :
  m h = (r, h') -> on_heap m (h, cv) = (r, (h', cv)).
Proof. intros E. unfold on_heap, zoom. simpl. rewrite E. reflexivity. Qed.

(** What the closure [join] does in a state whose two generators exist. *)
Lemma joinBindings_join_run realm (joinCondition : Value) b b1 b2 (h : Heap) (cv : Captured) :
  g1 cv < length (generators h) ->
  g2 cv < length (generators h) ->
  joinBindings_join realm joinCondition b b1 b2 (h, cv)
  = (if history_agrees b1 b2 then Ok (Some (joined_entry joinCondition b b1 b2))
     else Throw InvariantViolation,
     after_leak realm b b1 b2 (h, cv)).
Proof.
  intros V1 V2. unfold joinBindings_join, after_leak.
  fold (entry_hasLeaked b b1) (entry_hasLeaked b b2) (entry_value b b1) (entry_value b b2).
  set (l1 := entry_hasLeaked b b1). set (l2 := entry_hasLeaked b b2).
  set (v1 := entry_value b b1). set (v2 := entry_value b b2).
  rewrite bind_run.
  assert (Hleak :
    (if negb (truthy l1) && truthy l2
     then cv0 ← captured;
          '(g, rw) ← on_heap (leak realm b (g1 cv0) v1 (rewritten1 cv0));
          assign (fun cv1 => {| g1 := g; rewritten1 := rw; g2 := g2 cv1;
                                rewritten2 := rewritten2 cv1 |})
     else if truthy l1 && negb (truthy l2)
          then cv0 ← captured;
               '(g, rw) ← on_heap (leak realm b (g2 cv0) v2 (rewritten2 cv0));
               assign (fun cv1 => {| g1 := g1 cv1; rewritten1 := rewritten1 cv1;
                                     g2 := g; rewritten2 := rw |})
          else mret ()) (h, cv)
    = (Ok tt,
       if negb (truthy l1) && truthy l2
       then (leaked_heap realm b v1 (g1 cv) (rewritten1 cv) h,
             {| g1 := leaked_loc (g1 cv) (rewritten1 cv) h; rewritten1 := true;
                g2 := g2 cv; rewritten2 := rewritten2 cv |})
       else if truthy l1 && negb (truthy l2)
            then (leaked_heap realm b v2 (g2 cv) (rewritten2 cv) h,
                  {| g1 := g1 cv; rewritten1 := rewritten1 cv;
                     g2 := leaked_loc (g2 cv) (rewritten2 cv) h; rewritten2 := true |})
            else (h, cv))).
  { destruct (negb (truthy l1) && truthy l2); [|destruct (truthy l1 && negb (truthy l2))].
    - rewrite bind_run. simpl. rewrite bind_run.
      rewrite (on_heap_run _ _ _ _ _ (leak_run realm b _ v1 _ h V1)). reflexivity.
    - rewrite bind_run. simpl. rewrite bind_run.
      rewrite (on_heap_run _ _ _ _ _ (leak_run realm b _ v2 _ h V2)). reflexivity.
    - reflexivity. }
  rewrite Hleak. clear Hleak.
  match goal with |- _ = (_, ?st) => generalize st end. intros st.
  unfold joined_entry, history_agrees. fold l1 l2 v1 v2.
  rewrite bind_run.
  destruct (truthy (js_or l1 l2)) eqn:HL.
  - rewrite ret_run. simpl.
    destruct b1 as [e1|], b2 as [e2|]; simpl; try reflexivity.
    destruct (bool_decide (previousHasLeaked e1 = previousHasLeaked e2)
              && bool_decide (previousValue e1 = previousValue e2)); reflexivity.
  - rewrite bind_run, joinValues_of_options. simpl.
    destruct b1 as [e1|], b2 as [e2|]; simpl; try reflexivity.
    destruct (bool_decide (previousHasLeaked e1 = previousHasLeaked e2)
              && bool_decide (previousValue e1 = previousValue e2)); reflexivity.
Qed.

Lemma leaked_generator_entries realm b v G rw :
  g_entries (leaked_generator realm b v G rw) = g_entries G ++ assignment realm b v.
Proof. destruct rw; reflexivity. Qed.

(** What [leak] changes in the heap: the generator at the location it
    returns, and nothing else. *)
Lemma leaked_heap_facts realm b v g rw h G :
  generators h !! g = Some G ->
  let h' := leaked_heap realm b v g rw h in
  let g' := leaked_loc g rw h in
  effectses h' = effectses h /\ results h' = results h /\ diagnostics h' = diagnostics h
  /\ generators h' !! g' = Some (leaked_generator realm b v G rw)
  /\ (forall j, j <> g' -> j < length (generators h) ->
        generators h' !! j = generators h !! j)
  /\ length (generators h) <= length (generators h')
  /\ g' < length (generators h').
Proof.
  intros HG h' g'. subst h' g'. unfold leaked_heap, leaked_loc. rewrite HG.
  pose proof (lookup_lt_Some _ _ _ HG) as Hlt.
  destruct rw; simpl; repeat split.
  - apply list_lookup_insert_eq. assumption.
  - intros j Hj _. apply list_lookup_insert_ne. congruence.
  - rewrite length_insert. reflexivity.
  - rewrite length_insert. assumption.
  - apply lookup_last.
  - intros j _ Hj. apply lookup_app_l. assumption.
  - rewrite length_app. simpl. lia.
  - rewrite length_app. simpl. lia.
Qed.

Lemma after_leak_valid realm b b1 b2 st :
  captured_valid st -> captured_valid (after_leak realm b b1 b2 st).
Proof.
  destruct st as [h cv]. intros [V1 V2]. unfold after_leak, captured_valid in *. simpl in *.
  destruct (lookup_lt_is_Some_2 _ _ V1) as [G1 HG1].
  destruct (lookup_lt_is_Some_2 _ _ V2) as [G2 HG2].
  destruct (negb (truthy _) && truthy _); [|destruct (truthy _ && negb (truthy _))]; simpl.
  - destruct (leaked_heap_facts realm b (entry_value b b1) _ (rewritten1 cv) _ _ HG1)
      as (_ & _ & _ & _ & _ & Hlen & Hg). split; [exact Hg | lia].
  - destruct (leaked_heap_facts realm b (entry_value b b2) _ (rewritten2 cv) _ _ HG2)
      as (_ & _ & _ & _ & _ & Hlen & Hg). split; [lia | exact Hg].
  - split; assumption.
Qed.

Lemma map_find_Some_elem {K X} `{EqDecision K} (m : list (K * option X)) k v :
  map_find m k = Some v -> (k, v) ∈ m.
Proof.
  induction m as [|[k' v'] m IH]; simpl; [discriminate|].
  destruct (decide (k' = k)) as [->|Hne].
  - intros [= ->]. left.
  - intros Hf. right. apply IH. exact Hf.
Qed.

Lemma map_get_Some_elem {K X} `{EqDecision K} (m : list (K * option X)) k (x : X) :
  map_get m k = Some x -> (k, Some x) ∈ m.
Proof.
  unfold map_get. destruct (map_find m k) as [v|] eqn:E; [|discriminate].
  intros ->. apply map_find_Some_elem. exact E.
Qed.

Lemma joinBindings_run realm (joinCondition : Value) ga m1 gb m2 (h : Heap) r st :
  foldM (call_body (joinBindings_join realm joinCondition)) (join_calls m1 m2) []
    (h, Build_Captured ga false gb false) = (r, st) ->
  joinBindings realm joinCondition ga m1 gb m2 h
  = (match r with
     | Ok joinedBindings => Ok (g1 st.2, g2 st.2, joinedBindings)
     | Throw e => Throw e
     end, st.1).
Proof.
  intros E. unfold joinBindings. rewrite joinMaps_calls, E.
  destruct r, st as [h' [? ? ? ?]]; reflexivity.
Qed.

(** C8: when both branches have an entry for a binding and the two
    entries disagree on [previousHasLeaked] or on [previousValue],
    [joinBindings] fails its invariant and returns no joined bindings. *)
Theorem joinBindings_prior_history realm (joinCondition : Value)
    (ga : loc) (m1 : Bindings) (gb : loc) (m2 : Bindings) (h : Heap)
    (b : Binding) (e1 e2 : BindingEntry) :
  ga < length (generators h) ->
  gb < length (generators h) ->
  map_get m1 b = Some e1 ->
  map_get m2 b = Some e2 ->
  previousHasLeaked e1 <> previousHasLeaked e2 \/ previousValue e1 <> previousValue e2 ->
  exists h', joinBindings realm joinCondition ga m1 gb m2 h = (Throw InvariantViolation, h').
Proof.
  intros Va Vb H1 H2 Hne.
  assert (Hdis : history_agrees (Some e1) (Some e2) = false).
  { simpl. destruct Hne as [Hne|Hne].
    - rewrite (bool_decide_eq_false_2 _ Hne). reflexivity.
    - rewrite (bool_decide_eq_false_2 _ Hne). apply andb_false_r. }
  destruct (foldM_calls_throw (joinBindings_join realm joinCondition) captured_valid
              InvariantViolation (join_calls m1 m2) (b, Some e1, Some e2))
    with (acc := @nil (Binding * option BindingEntry))
         (s := (h, Build_Captured ga false gb false)) as [st Hst].
  - unfold join_calls. apply elem_of_app. left. apply list_elem_of_fmap.
    exists (b, Some e1). simpl. rewrite H2. split; [reflexivity|].
    apply map_get_Some_elem. exact H1.
  - intros [[k a1] a2] [h0 cv] _ [V1 V2]. simpl.
    rewrite (joinBindings_join_run _ _ _ _ _ _ _ V1 V2).
    destruct (history_agrees a1 a2).
    + left. eexists _, _. split; [reflexivity|]. apply after_leak_valid. split; assumption.
    + right. eexists. reflexivity.
  - intros [h0 cv] [V1 V2]. simpl.
    rewrite (joinBindings_join_run _ _ _ _ _ _ _ V1 V2), Hdis. eexists. reflexivity.
  - split; assumption.
  - exists st.1. rewrite (joinBindings_run _ _ _ _ _ _ _ _ _ Hst). reflexivity.
Qed.

(** *** The generators through the loop of [joinBindings] *)
Section LeakPropagation.
Variable realm : Realm.
Variable h0 : Heap.

Lemma side_patched patched val g0 G0 done h g rw c :
  side_ok realm h0 patched val g0 G0 done h g rw ->
  length (generators h0) <= length (generators h) ->
  side_ok realm h0 patched val g0 G0 (done ++ [c])
    (leaked_heap realm c.1.1 (val c) g rw h) (leaked_loc g rw h) true.
Proof.
  intros (G & HG & Hpre & Hnrw & Hrw & Hasg) Hlen.
  destruct (leaked_heap_facts realm c.1.1 (val c) g rw h G HG)
    as (_ & _ & _ & HG' & _ & _ & _).
  exists (leaked_generator realm c.1.1 (val c) G rw).
  rewrite leaked_generator_entries. repeat split.
  - exact HG'.
  - etransitivity; [exact Hpre|]. apply prefix_app_r. reflexivity.
  - discriminate.
  - discriminate.
  - intros _. unfold leaked_loc. destruct rw; [apply Hrw; reflexivity | exact Hlen].
  - intros c' x Hc' Hp Hv Hx. apply elem_of_app.
    apply elem_of_app in Hc' as [Hc'|Hc'].
    + left. apply (Hasg c' x); assumption.
    + apply list_elem_of_singleton in Hc'. subst c'. right.
      unfold assignment. rewrite Hv. rewrite decide_False by exact Hx. left.
Qed.

Lemma side_other patched val g0 G0 done h h' g rw c :
  side_ok realm h0 patched val g0 G0 done h g rw ->
  ~ patched c ->
  generators h' !! g = generators h !! g ->
  side_ok realm h0 patched val g0 G0 (done ++ [c]) h' g rw.
Proof.
  intros (G & HG & Hpre & Hnrw & Hrw & Hasg) Hnp Heq.
  exists G. repeat split.
  - rewrite Heq. exact HG.
  - exact Hpre.
  - apply Hnrw. assumption.
  - intros c' Hc'. apply elem_of_app in Hc' as [Hc'|Hc'].
    + apply Hnrw; assumption.
    + apply list_elem_of_singleton in Hc'. subst c'. exact Hnp.
  - exact Hrw.
  - intros c' x Hc' Hp. apply elem_of_app in Hc' as [Hc'|Hc'].
    + apply Hasg; assumption.
    + apply list_elem_of_singleton in Hc'. subst c'. contradiction.
Qed.

Variables (ga gb : loc) (GA GB : Generator).
Hypothesis HGA : generators h0 !! ga = Some GA.
Hypothesis HGB : generators h0 !! gb = Some GB.

Lemma leak_inv_init : leak_inv realm h0 ga gb GA GB [] (h0, Build_Captured ga false gb false).
Proof.
  unfold leak_inv. simpl. repeat split; try reflexivity; try discriminate.
  - exists GA. repeat split; try assumption; try discriminate; try reflexivity.
    + intros c Hc. apply elem_of_nil in Hc as [].
    + intros c x Hc. apply elem_of_nil in Hc as [].
  - exists GB. repeat split; try assumption; try discriminate; try reflexivity.
    + intros c Hc. apply elem_of_nil in Hc as [].
    + intros c x Hc. apply elem_of_nil in Hc as [].
Qed.

Lemma leak_inv_valid done st : leak_inv realm h0 ga gb GA GB done st -> captured_valid st.
Proof.
  intros (_ & _ & _ & _ & _ & (G1 & H1 & _) & (G2 & H2 & _) & _).
  split; eapply lookup_lt_Some; eassumption.
Qed.

Lemma leak_inv_step done st c :
  leak_inv realm h0 ga gb GA GB done st -> leak_inv realm h0 ga gb GA GB (done ++ [c]) (after_leak realm c.1.1 c.1.2 c.2 st).
Proof.
  destruct st as [h cv].
  intros (He & Hr & Hd & Hlen & Hold & S1 & S2 & Hdist). simpl in *.
  pose proof (lookup_lt_Some _ _ _ HGA) as Hga.
  pose proof (lookup_lt_Some _ _ _ HGB) as Hgb.
  unfold after_leak.
  destruct (truthy (entry_hasLeaked c.1.1 c.1.2)) eqn:L1;
    destruct (truthy (entry_hasLeaked c.1.1 c.2)) eqn:L2; simpl.
  - (* leaked in both *)
    unfold leak_inv; simpl. repeat split; try assumption.
    + apply (side_other _ _ _ _ _ h h); [assumption | | reflexivity].
      unfold leaks_second_only. intros [? _]. congruence.
    + apply (side_other _ _ _ _ _ h h); [assumption | | reflexivity].
      unfold leaks_first_only. intros [_ ?]. congruence.
  - (* leaked in the first only: the second generator is patched *)
    destruct S1 as (G1 & HG1 & S1'). destruct S2 as (G2 & HG2 & S2').
    pose proof (lookup_lt_Some _ _ _ HG1) as V1.
    destruct (leaked_heap_facts realm c.1.1 (entry_value c.1.1 c.2) _ (rewritten2 cv) _ _ HG2)
      as (He' & Hr' & Hd' & _ & Hoth & Hlen' & _).
    assert (Hfresh : forall j, j < length (generators h0) ->
                               j <> leaked_loc (g2 cv) (rewritten2 cv) h).
    { intros j Hj. unfold leaked_loc. destruct (rewritten2 cv) eqn:R2; [|lia].
      destruct S2' as (_ & _ & Hrw & _). specialize (Hrw eq_refl). lia. }
    unfold leak_inv; simpl. repeat split; try congruence.
    + lia.
    + intros j Hj. rewrite Hoth; [apply Hold; exact Hj | apply Hfresh; exact Hj | lia].
    + apply (side_other _ _ _ _ _ h); [exists G1; split; assumption | |].
      * unfold leaks_second_only. intros [? _]. congruence.
      * apply Hoth; [|exact V1].
        unfold leaked_loc. destruct (rewritten2 cv) eqn:R2; [|lia].
        destruct (rewritten1 cv) eqn:R1; [apply Hdist; reflexivity|].
        destruct S1' as (_ & Hn & _). destruct (Hn eq_refl) as [-> _].
        apply Hfresh. exact Hga.
    + apply (side_patched leaks_first_only second_value gb GB done h (g2 cv) (rewritten2 cv) c);
        [exists G2; split; assumption | exact Hlen].
    + intros R1 _. unfold leaked_loc. destruct (rewritten2 cv) eqn:R2; [|lia].
      apply Hdist; [exact R1 | reflexivity].
  - (* leaked in the second only: the first generator is patched *)
    destruct S1 as (G1 & HG1 & S1'). destruct S2 as (G2 & HG2 & S2').
    pose proof (lookup_lt_Some _ _ _ HG2) as V2.
    destruct (leaked_heap_facts realm c.1.1 (entry_value c.1.1 c.1.2) _ (rewritten1 cv) _ _ HG1)
      as (He' & Hr' & Hd' & _ & Hoth & Hlen' & _).
    assert (Hfresh : forall j, j < length (generators h0) ->
                               j <> leaked_loc (g1 cv) (rewritten1 cv) h).
    { intros j Hj. unfold leaked_loc. destruct (rewritten1 cv) eqn:R1; [|lia].
      destruct S1' as (_ & _ & Hrw & _). specialize (Hrw eq_refl). lia. }
    unfold leak_inv; simpl. repeat split; try congruence.
    + lia.
    + intros j Hj. rewrite Hoth; [apply Hold; exact Hj | apply Hfresh; exact Hj | lia].
    + apply (side_patched leaks_second_only first_value ga GA done h (g1 cv) (rewritten1 cv) c);
        [exists G1; split; assumption | exact Hlen].
    + apply (side_other _ _ _ _ _ h); [exists G2; split; assumption | |].
      * unfold leaks_first_only. intros [? _]. congruence.
      * apply Hoth; [|exact V2].
        unfold leaked_loc. destruct (rewritten1 cv) eqn:R1; [|lia].
        destruct (rewritten2 cv) eqn:R2; [intros E; apply Hdist; auto|].
        destruct S2' as (_ & Hn & _). destruct (Hn eq_refl) as [-> _].
        apply Hfresh. exact Hgb.
    + intros _ R2. unfold leaked_loc. destruct (rewritten1 cv) eqn:R1; [|lia].
      apply Hdist; [reflexivity | exact R2].
  - (* leaked in neither *)
    unfold leak_inv; simpl. repeat split; try assumption.
    + apply (side_other _ _ _ _ _ h h); [assumption | | reflexivity].
      unfold leaks_second_only. intros [_ ?]. congruence.
    + apply (side_other _ _ _ _ _ h h); [assumption | | reflexivity].
      unfold leaks_first_only. intros [? _]. congruence.
Qed.
End LeakPropagation.

Lemma join_calls_elem {K X} `{EqDecision K} (m1 m2 : list (K * option X)) k :
  NoDup (keys m1) -> NoDup (keys m2) ->
  k ∈ keys m1 \/ k ∈ keys m2 ->
  (k, map_get m1 k, map_get m2 k) ∈ join_calls m1 m2.
Proof.
  intros H1 H2 Hk.
  assert (Hin : k ∈ (join_calls m1 m2).*1.*1).
  { rewrite join_calls_keys, elem_of_app, list_elem_of_filter.
    destruct (decide (k ∈ keys m1)); [left; assumption | right; tauto]. }
  apply list_elem_of_fmap in Hin as ([k' a] & Heq & Hin). simpl in Heq. subst k'.
  apply list_elem_of_fmap in Hin as ([[k' a'] b] & Heq & Hin). simpl in Heq.
  injection Heq as <- <-.
  destruct (join_calls_args _ _ _ _ _ H1 H2 Hin) as [<- <-]. exact Hin.
Qed.

Lemma truthy_true (l : option bool) : truthy l = true -> l = Some true.
Proof. destruct l as [[|]|]; simpl; congruence. Qed.

(** C3, as amended: a binding that has leaked on one branch only gets a
    joined entry with [hasLeaked] true and no value, and the generator of
    the other branch is replaced by a wrapper made after the call began,
    which starts with the entries of the original and holds a
    binding-assignment entry writing that other branch's own last value
    (when that value is defined and is not the undefined value); every
    generator that existed before the call is left as it was. *)
Theorem joinBindings_leak_propagation realm (joinCondition : Value)
    (ga : loc) (m1 : Bindings) (gb : loc) (m2 : Bindings) (h : Heap) (GA GB : Generator) :
  generators h !! ga = Some GA ->
  generators h !! gb = Some GB ->
  NoDup (keys m1) -> NoDup (keys m2) ->
  (forall b e1 e2, map_get m1 b = Some e1 -> map_get m2 b = Some e2 ->
     previousHasLeaked e1 = previousHasLeaked e2 /\ previousValue e1 = previousValue e2) ->
  exists ga' gb' m3 h',
    joinBindings realm joinCondition ga m1 gb m2 h = (Ok (ga', gb', m3), h')
    /\ (forall j, j < length (generators h) -> generators h' !! j = generators h !! j)
    /\ forall b, b ∈ keys m1 \/ b ∈ keys m2 ->
         let b1 := map_get m1 b in
         let b2 := map_get m2 b in
         (leaks_second_only (b, b1, b2) ->
            (exists e, map_get m3 b = Some e /\ hasLeaked e = Some true /\ value e = None)
            /\ length (generators h) <= ga'
            /\ exists G, generators h' !! ga' = Some G
                 /\ g_entries GA `prefix_of` g_entries G
                 /\ forall x, entry_value b b1 = Some x -> x <> intrinsics_undefined realm ->
                      BindingAssignment b x ∈ g_entries G)
         /\ (leaks_first_only (b, b1, b2) ->
               (exists e, map_get m3 b = Some e /\ hasLeaked e = Some true /\ value e = None)
               /\ length (generators h) <= gb'
               /\ exists G, generators h' !! gb' = Some G
                    /\ g_entries GB `prefix_of` g_entries G
                    /\ forall x, entry_value b b2 = Some x -> x <> intrinsics_undefined realm ->
                         BindingAssignment b x ∈ g_entries G).
Proof.
  intros HGA HGB N1 N2 Hhist.
  set (f := fun (k : Binding) a b => Some (joined_entry joinCondition k a b)).
  destruct (foldM_calls_run (joinBindings_join realm joinCondition)
              (leak_inv realm h ga gb GA GB)
              (fun c r => r = f c.1.1 c.1.2 c.2) (join_calls m1 m2) [] []
              (h, Build_Captured ga false gb false))
    as (rs & [h' cv'] & Hrun & HF & Hinv).
  { simpl. apply join_calls_NoDup; assumption. }
  { apply leak_inv_init; assumption. }
  { intros done [[k a] b] [h1 cv1] Hc HI. simpl.
    destruct (leak_inv_valid _ _ _ _ _ _ _ _ HI) as [V1 V2].
    rewrite (joinBindings_join_run _ _ _ _ _ _ _ V1 V2).
    destruct (join_calls_args _ _ _ _ _ N1 N2 Hc) as [-> ->].
    assert (Hag : history_agrees (map_get m1 k) (map_get m2 k) = true).
    { unfold history_agrees.
      destruct (map_get m1 k) as [e1|] eqn:E1, (map_get m2 k) as [e2|] eqn:E2;
        try reflexivity.
      destruct (Hhist k e1 e2 E1 E2) as [-> ->].
      rewrite !bool_decide_eq_true_2 by reflexivity. reflexivity. }
    rewrite Hag. eexists _, _. split; [reflexivity|]. split; [reflexivity|].
    apply (leak_inv_step realm h ga gb GA GB HGA HGB done (h1, cv1)
             (k, map_get m1 k, map_get m2 k) HI). }
  simpl in Hrun, Hinv. rewrite (zip_results _ _ _ HF) in Hrun.
  exists (g1 cv'), (g2 cv'), (map (fun c => (c.1.1, f c.1.1 c.1.2 c.2)) (join_calls m1 m2)), h'.
  split; [rewrite (joinBindings_run _ _ _ _ _ _ _ _ _ Hrun); reflexivity|].
  destruct Hinv as (_ & _ & _ & _ & Hold & S1 & S2 & _). simpl in *.
  split; [exact Hold|].
  intros b Hb. cbv zeta. set (b1 := map_get m1 b). set (b2 := map_get m2 b).
  pose proof (join_calls_elem m1 m2 b N1 N2 Hb) as Hc.
  assert (Hget : map_get (map (fun c => (c.1.1, f c.1.1 c.1.2 c.2)) (join_calls m1 m2)) b
                 = Some (joined_entry joinCondition b b1 b2)).
  { unfold map_get. rewrite (joined_find f m1 m2 b N1 N2 Hb). reflexivity. }
  split.
  - intros HL. pose proof HL as [L1 L2]. simpl in L1, L2. split.
    + eexists. split; [exact Hget|]. unfold joined_entry, js_or. simpl.
      fold b1 b2. rewrite L1. rewrite L2. split; [apply truthy_true; exact L2 | reflexivity].
    + destruct S1 as (G & HG & Hpre & Hnrw & Hrw & Hasg). split.
      * destruct (rewritten1 cv') eqn:R; [apply Hrw; reflexivity|].
        destruct (Hnrw eq_refl) as [_ Hno]. exfalso. exact (Hno _ Hc HL).
      * exists G. split; [exact HG|]. split; [exact Hpre|].
        intros x Hx Hu. apply (Hasg _ x Hc HL Hx Hu).
  - intros HL. pose proof HL as [L1 L2]. simpl in L1, L2. split.
    + eexists. split; [exact Hget|]. unfold joined_entry, js_or. simpl.
      fold b1 b2. rewrite L1. simpl. rewrite L1.
      split; [apply truthy_true; exact L1 | reflexivity].
    + destruct S2 as (G & HG & Hpre & Hnrw & Hrw & Hasg). split.
      * destruct (rewritten2 cv') eqn:R; [apply Hrw; reflexivity|].
        destruct (Hnrw eq_refl) as [_ Hno]. exfalso. exact (Hno _ Hc HL).
      * exists G. split; [exact HG|]. split; [exact Hpre|].
        intros x Hx Hu. apply (Hasg _ x Hc HL Hx Hu).
Qed.

(** ** joinForkOrChoose with one abrupt side *)

Lemma construct_empty_effects_run realm (s : Heap) :
  construct_empty_effects realm s
  = (Ok (length (effectses s)),
     {| generators := generators s
          ++ [{| g_name := "construct_empty_effects";
                 g_pathConditions := pathConditions realm; g_entries := [] |}];
        effectses := effectses s
          ++ [{| result := length (results s); generator := length (generators s);
                 modifiedBindings := []; modifiedProperties := []; createdObjects := [] |}];
        results := results s
          ++ [completion SimpleNormalCompletion (intrinsics_empty realm)
                (Some (length (effectses s))) None];
        diagnostics := diagnostics s |}).
Proof.
  destruct s as [gens effs ress diag].
  unfold construct_empty_effects, new_Completion, new_Generator, new_Effects, alloc_result,
    alloc_generator, alloc_effects, update_result, read_result, deref, modify_state,
    with_results, with_generators, with_effectses, mbind, M_bind, mret, M_ret.
  simpl. rewrite lookup_last. simpl. rewrite insert_last. reflexivity.
Qed.

Lemma normal_completion_not_abrupt h r C v spc se :
  normal_completion_of h r C v spc se ->
  isAbruptCompletion (class C) = false /\ isNormalCompletion (class C) = true.
Proof.
  intros [(-> & _) | (jc & cons & alt & n & Cn & -> & _)]; split; reflexivity.
Qed.

Lemma fork_with_normal_run (joinCondition : Value) r1 r2 normal h C v spc se :
  results h !! normal = Some (ACompletion C) ->
  normal_completion_of h normal C v spc se ->
  fork_with_normal joinCondition r1 r2 normal h
  = allocated (completion (PossiblyNormalCompletion joinCondition r1 r2 spc se) v None None) h.
Proof.
  intros HC HN. unfold fork_with_normal.
  rewrite (bind_Ok _ _ _ _ _ (read_result_Some _ _ _ HC)).
  unfold instanceof, class_of, savedEffects_of, savedPathConditions_of.
  destruct HN as [(K & -> & -> & ->) | (jc & cons & alt & n & Cn & K & Hg & Hn & Kn & ->)];
    rewrite K; simpl.
  - rewrite bind_run, ret_run.
    rewrite (bind_Ok _ _ _ _ _ (read_result_Some _ _ _ HC)).
    unfold instanceof, class_of. rewrite K. reflexivity.
  - rewrite bind_run. rewrite (bind_Ok _ _ _ _ _ Hg). rewrite ret_run.
    rewrite (bind_Ok _ _ _ _ _ (read_result_Some _ _ _ Hn)).
    unfold instanceof, class_of. rewrite Kn, ?K. reflexivity.
Qed.

Lemma abrupt_not_normal (k : CompletionClass) :
  isAbruptCompletion k = true ->
  isNormalCompletion k = false /\ isSimpleNormalCompletion k = false.
Proof. destruct k; simpl; intros; try discriminate; split; reflexivity. Qed.

(** [joinOrForkResults] on an abrupt and a non-abrupt result, either way
    round: [normal] is the non-abrupt one of [r1] and [r2]. *)
Lemma joinOrForkResults_one_abrupt realm (joinCondition : Value) r1 r2 e1 e2 h
    (C1 C2 : Completion) (E1 E2 : Effects) (first_is_abrupt : bool) v spc se :
  results h !! r1 = Some (ACompletion C1) -> effects C1 = Some e1 ->
  effectses h !! e1 = Some E1 -> result E1 = r1 ->
  results h !! r2 = Some (ACompletion C2) -> effects C2 = Some e2 ->
  effectses h !! e2 = Some E2 -> result E2 = r2 ->
  (if first_is_abrupt
   then isAbruptCompletion (class C1) = true /\ normal_completion_of h r2 C2 v spc se
   else isAbruptCompletion (class C2) = true /\ normal_completion_of h r1 C1 v spc se) ->
  joinOrForkResults realm joinCondition r1 r2 e1 e2 h
  = allocated (completion (PossiblyNormalCompletion joinCondition r1 r2 spc se) v None None) h.
Proof.
  intros H1 F1 HE1 R1 H2 F2 HE2 R2 Hside. unfold joinOrForkResults.
  rewrite (bind_Ok _ _ _ _ _ (read_result_Some _ _ _ H1)). simpl. rewrite F1.
  rewrite bool_decide_eq_true_2 by reflexivity. rewrite bind_run, invariant_true.
  rewrite (bind_Ok _ _ _ _ _ (read_effects_Some _ _ _ HE1)).
  rewrite bool_decide_eq_true_2 by exact R1. rewrite bind_run, invariant_true.
  rewrite (bind_Ok _ _ _ _ _ (read_result_Some _ _ _ H2)). simpl. rewrite F2.
  rewrite bool_decide_eq_true_2 by reflexivity. rewrite bind_run, invariant_true.
  rewrite (bind_Ok _ _ _ _ _ (read_effects_Some _ _ _ HE2)).
  rewrite bool_decide_eq_true_2 by exact R2. rewrite bind_run, invariant_true.
  unfold instanceof, class_of.
  destruct first_is_abrupt; destruct Hside as [Ha Hn];
    destruct (abrupt_not_normal _ Ha) as [Nn Ns];
    destruct (normal_completion_not_abrupt _ _ _ _ _ _ Hn) as [Na _];
    rewrite Ha, Nn, Ns, Na; simpl; rewrite ?andb_false_r; simpl.
  - eapply fork_with_normal_run; eassumption.
  - eapply fork_with_normal_run; eassumption.
Qed.

Lemma update_effects_run l f h E :
  effectses h !! l = Some E ->
  update_effects l f h = (Ok tt, with_effectses (fun a => <[l := f E]> a) h).
Proof.
  intros H. unfold update_effects.
  rewrite (bind_Ok _ _ _ _ _ (read_effects_Some _ _ _ H)). reflexivity.
Qed.

Lemma update_result_run l f h r :
  results h !! l = Some r ->
  update_result l f h = (Ok tt, with_results (fun a => <[l := f r]> a) h).
Proof.
  intros H. unfold update_result.
  rewrite (bind_Ok _ _ _ _ _ (read_result_Some _ _ _ H)). reflexivity.
Qed.

(** [joinForkOrChoose] when exactly one side is abrupt. *)
Lemma joinForkOrChoose_one_abrupt_run realm (joinCondition : Value) e1 e2 (s : Heap)
    (E1 E2 : Effects) (C1 C2 : Completion) (first_is_abrupt : bool) v spc se :
  mightNotBeTrue joinCondition = true ->
  mightNotBeFalse joinCondition = true ->
  isAbstractValue joinCondition = true ->
  effectses s !! e1 = Some E1 -> results s !! result E1 = Some (ACompletion C1) ->
  effects C1 = Some e1 ->
  effectses s !! e2 = Some E2 -> results s !! result E2 = Some (ACompletion C2) ->
  effects C2 = Some e2 ->
  (forall h, results s `prefix_of` results h ->
     if first_is_abrupt
     then isAbruptCompletion (class C1) = true
          /\ normal_completion_of h (result E2) C2 v spc se
     else isAbruptCompletion (class C2) = true
          /\ normal_completion_of h (result E1) C1 v spc se) ->
  joinForkOrChoose realm joinCondition e1 e2 s
  = (Ok (S (length (effectses s))),
     one_abrupt_heap realm joinCondition s
       (if first_is_abrupt then e2 else e1) (if first_is_abrupt then E2 else E1)
       (result E1) (result E2) v spc se).
Proof.
  intros Ht Hf Ha HE1 H1 F1 HE2 H2 F2 Hside.
  unfold joinForkOrChoose. rewrite Ht, Hf, Ha. simpl.
  rewrite bind_run, ret_run.
  rewrite (bind_Ok _ _ _ _ _ (read_effects_Some _ _ _ HE1)).
  rewrite (bind_Ok _ _ _ _ _ (read_result_Some _ _ _ H1)). simpl. rewrite F1.
  rewrite bool_decide_eq_true_2 by reflexivity. rewrite bind_run, invariant_true.
  rewrite (bind_Ok _ _ _ _ _ (read_effects_Some _ _ _ HE2)).
  rewrite (bind_Ok _ _ _ _ _ (read_result_Some _ _ _ H2)). simpl. rewrite F2.
  rewrite bool_decide_eq_true_2 by reflexivity. rewrite bind_run, invariant_true.
  rewrite (bind_Ok _ _ _ _ _ (construct_empty_effects_run realm s)).
  match goal with |- (_ ≫= _) ?h = _ => set (s1 := h) end.
  assert (P1 : results s `prefix_of` results s1) by (eexists; reflexivity).
  specialize (Hside s1 P1).
  assert (J : joinOrForkResults realm joinCondition (result E1) (result E2) e1 e2 s1
              = allocated (completion (PossiblyNormalCompletion joinCondition
                                         (result E1) (result E2) spc se) v None None) s1).
  { apply (joinOrForkResults_one_abrupt realm joinCondition _ _ e1 e2 s1 C1 C2 E1 E2
             first_is_abrupt v spc se); try assumption; try reflexivity;
      subst s1; simpl; apply lookup_app_l_Some; assumption. }
  rewrite (bind_Ok _ _ _ _ _ J). clear J.
  unfold instanceof, class_of.
  destruct s as [gens effs ress diag]. simpl in *.
  destruct first_is_abrupt; destruct Hside as [Hab Hn];
    destruct (normal_completion_not_abrupt _ _ _ _ _ _ Hn) as [Na _];
    rewrite Hab, ?Na; simpl.
  all: unfold read_result, read_effects, deref, update_effects, new_Effects, alloc_effects,
      update_result, read_result, read_effects, deref, modify_state, invariant,
      with_results, with_effectses, mbind, M_bind, mret, M_ret; simpl;
    repeat (first [ rewrite lookup_last | rewrite (lookup_app_l_Some _ _ _ _ HE2)
                  | rewrite (lookup_app_l_Some _ _ _ _ HE1) | rewrite insert_last ]; simpl);
    unfold one_abrupt_heap; simpl;
    rewrite !length_insert, !length_app; simpl; rewrite !Nat.add_1_r;
    rewrite <- app_assoc; reflexivity.
Qed.

(** C2, as amended: when the condition is genuinely two-sided and exactly
    one of the two results is abrupt, [joinForkOrChoose] returns a new
    record whose result is a [PossiblyNormalCompletion] over the two
    results and which carries the generator, bindings, properties and
    created objects of the non-abrupt side.  It is the non-abrupt side's
    own record that is left with a new, empty generator (its content has
    moved to the returned record) while keeping its deltas; the abrupt
    side's record keeps everything, generator included, and no generator
    that existed is modified.  Both results stay attached to their
    records, so both sides' deltas are reachable from the fork. *)
Theorem joinForkOrChoose_one_abrupt realm (joinCondition : Value) e1 e2 (s : Heap)
    (E1 E2 : Effects) (C1 C2 : Completion) (first_is_abrupt : bool) v spc se :
  mightNotBeTrue joinCondition = true ->
  mightNotBeFalse joinCondition = true ->
  isAbstractValue joinCondition = true ->
  effectses s !! e1 = Some E1 -> results s !! result E1 = Some (ACompletion C1) ->
  effects C1 = Some e1 ->
  effectses s !! e2 = Some E2 -> results s !! result E2 = Some (ACompletion C2) ->
  effects C2 = Some e2 ->
  (forall h, results s `prefix_of` results h ->
     if first_is_abrupt
     then isAbruptCompletion (class C1) = true
          /\ normal_completion_of h (result E2) C2 v spc se
     else isAbruptCompletion (class C2) = true
          /\ normal_completion_of h (result E1) C1 v spc se) ->
  let e_abrupt := if first_is_abrupt then e1 else e2 in
  let E_abrupt := if first_is_abrupt then E1 else E2 in
  let e_normal := if first_is_abrupt then e2 else e1 in
  let E_normal := if first_is_abrupt then E2 else E1 in
  exists e s' E P g0 G0,
    joinForkOrChoose realm joinCondition e1 e2 s = (Ok e, s')
    /\ effectses s' !! e = Some E
    /\ results s' !! result E = Some (ACompletion P)
    /\ class P = PossiblyNormalCompletion joinCondition (result E1) (result E2) spc se
    /\ c_value P = v /\ effects P = Some e
    /\ generator E = generator E_normal
    /\ modifiedBindings E = modifiedBindings E_normal
    /\ modifiedProperties E = modifiedProperties E_normal
    /\ createdObjects E = createdObjects E_normal
    /\ effectses s' !! e_normal = Some (set_generator g0 E_normal)
    /\ length (generators s) <= g0
    /\ generators s' !! g0 = Some G0 /\ g_entries G0 = []
    /\ effectses s' !! e_abrupt = Some E_abrupt
    /\ (forall j, j < length (generators s) -> generators s' !! j = generators s !! j)
    /\ results s' !! result E1 = Some (ACompletion C1)
    /\ results s' !! result E2 = Some (ACompletion C2).
Proof.
  intros Ht Hf Ha HE1 H1 F1 HE2 H2 F2 Hside e_abrupt E_abrupt e_normal E_normal.
  pose proof (joinForkOrChoose_one_abrupt_run realm joinCondition e1 e2 s E1 E2 C1 C2
                first_is_abrupt v spc se Ht Hf Ha HE1 H1 F1 HE2 H2 F2 Hside) as Hrun.
  fold e_normal E_normal in Hrun.
  assert (Hne : e_abrupt <> e_normal).
  { specialize (Hside s (reflexivity _)). subst e_abrupt e_normal. intros Heq.
    destruct first_is_abrupt; destruct Hside as [Hab Hn];
      destruct (normal_completion_not_abrupt _ _ _ _ _ _ Hn) as [Na _]; subst;
      congruence. }
  assert (HEn : effectses s !! e_normal = Some E_normal)
    by (subst e_normal E_normal; destruct first_is_abrupt; assumption).
  assert (HEa : effectses s !! e_abrupt = Some E_abrupt)
    by (subst e_abrupt E_abrupt; destruct first_is_abrupt; assumption).
  pose proof (lookup_lt_Some _ _ _ HEn) as Ln.
  pose proof (lookup_lt_Some _ _ _ HEa) as La.
  eexists _, _, _, _, (length (generators s)), _.
  split; [exact Hrun|]. unfold one_abrupt_heap. simpl.
  split. { apply list_lookup_middle. rewrite length_insert, length_app. simpl. lia. }
  simpl. split.
  { rewrite (lookup_app_r _ _ (S (length (results s)))) by lia.
    replace (S (length (results s)) - length (results s)) with 1 by lia. reflexivity. }
  do 7 (split; [reflexivity|]).
  split.
  { rewrite lookup_app_l by (rewrite length_insert, length_app; simpl; lia).
    apply list_lookup_insert_eq. rewrite length_app. simpl. lia. }
  split; [reflexivity|].
  split; [apply lookup_last|].
  split; [reflexivity|].
  split.
  { rewrite lookup_app_l by (rewrite length_insert, length_app; simpl; lia).
    rewrite list_lookup_insert_ne by congruence. apply lookup_app_l_Some. exact HEa. }
  split; [intros j Hj; apply lookup_app_l; exact Hj|].
  split; apply lookup_app_l_Some; assumption.
Qed.

(** ** joinPropertyBindings: a write against a deletion *)

(** [joinDescriptors] on two descriptors that hold plain values. *)
Lemma joinDescriptors_values {S} realm (joinCondition : Value) (d1 d2 : Descriptor)
    (v1 v2 : Value) (s : S) :
  d_value d1 = Some (AValue v1) ->
  d_value d2 = Some (AValue v2) ->
  joinDescriptors realm joinCondition (Some d1) (Some d2) s
  = (Ok (Some (if equalDescriptors d1 d2 && IsDataDescriptor d1
               then with_value
                      (Some (AValue (joined_value (getAbstractValue_conditional joinCondition)
                                       v1 v2))) d1
               else conditional_descriptor joinCondition (Some d1) (Some d2))), s).
Proof.
  intros H1 H2. unfold joinDescriptors, cloneDescriptor.
  destruct (equalDescriptors d1 d2 && IsDataDescriptor d1); [|reflexivity].
  rewrite H1, H2. rewrite (bind_Ok _ _ _ _ _ (joinValues_of_values _ _ _ _ _)).
  reflexivity.
Qed.

Lemma descriptor_for_missing_side_deleted {S} realm (b : PropertyBinding)
    (other : option Descriptor) (other_created : CreatedObjects) (m : PropertyBindings)
    (pre : Descriptor) (s : S) :
  descriptor b = Some pre ->
  map_has m b = true ->
  set_has other_created (object b) = false ->
  descriptor_for_missing_side realm b other other_created m s
  = (Ok (inr (Some (deleted_descriptor realm pre))), s).
Proof.
  intros Hpre Hm Hc. unfold descriptor_for_missing_side, cloneDescriptor.
  rewrite Hc, Hpre, Hm. rewrite bool_decide_eq_true_2 by discriminate. reflexivity.
Qed.

(** C5, as amended: a slot written in one branch (with a plain value [w])
    and deleted in the other, on an object that existed before the fork.
    The deleting side gets a copy of the pre-fork descriptor whose value
    is the empty sentinel, and the join of the written descriptor with it
    is, when the two are equal data descriptors, a copy of the first
    descriptor whose value is [joinValues] of [w] and the empty sentinel
    (the conditional value "c ? w : empty", or its mirror image), and
    otherwise a conditional descriptor holding the two descriptors under
    the join condition.  The joined map holds that descriptor at the slot. *)
Theorem joinPropertyBindings_write_against_delete {S} realm (joinCondition : Value)
    (m1 m2 : PropertyBindings) (c1 c2 : CreatedObjects) (b : PropertyBinding)
    (written pre : Descriptor) (w : Value) :
  descriptor b = Some pre ->
  d_value written = Some (AValue w) ->
  let deleted := deleted_descriptor realm pre in
  let conditional := getAbstractValue_conditional joinCondition in
  let empty := intrinsics_empty realm in
  let second_deleted :=
    if equalDescriptors written deleted && IsDataDescriptor written
    then with_value (Some (AValue (joined_value conditional w empty))) written
    else conditional_descriptor joinCondition (Some written) (Some deleted) in
  let first_deleted :=
    if equalDescriptors deleted written && IsDataDescriptor deleted
    then with_value (Some (AValue (joined_value conditional empty w))) deleted
    else conditional_descriptor joinCondition (Some deleted) (Some written) in
  (map_find m2 b = Some None -> set_has c1 (object b) = false ->
     (forall s : S,
        joinPropertyBindings_join realm joinCondition m1 m2 c1 c2 b (Some written) None s
        = (Ok (Some second_deleted), s))
     /\ (NoDup (keys m1) -> NoDup (keys m2) -> map_find m1 b = Some (Some written) ->
         forall (s s' : S) m3,
           joinPropertyBindings realm joinCondition m1 m2 c1 c2 s = (Ok m3, s') ->
           map_get m3 b = Some second_deleted))
  /\ (map_find m1 b = Some None -> set_has c2 (object b) = false ->
      (forall s : S,
         joinPropertyBindings_join realm joinCondition m1 m2 c1 c2 b None (Some written) s
         = (Ok (Some first_deleted), s))
      /\ (NoDup (keys m1) -> NoDup (keys m2) -> map_find m2 b = Some (Some written) ->
          forall (s s' : S) m3,
            joinPropertyBindings realm joinCondition m1 m2 c1 c2 s = (Ok m3, s') ->
            map_get m3 b = Some first_deleted)).
Proof.
  intros Hpre Hw deleted conditional empty second_deleted first_deleted.
  assert (Hd : d_value deleted = Some (AValue empty)) by reflexivity.
  split.
  - intros Hm Hc.
    assert (Hhas : map_has m2 b = true) by (unfold map_has; rewrite Hm; reflexivity).
    assert (Hget : map_get m2 b = None) by (unfold map_get; rewrite Hm; reflexivity).
    assert (Hjoin : forall s : S,
              joinPropertyBindings_join realm joinCondition m1 m2 c1 c2 b (Some written) None s
              = (Ok (Some second_deleted), s)).
    { intros s. unfold joinPropertyBindings_join. rewrite bind_run, ret_run.
      rewrite (bind_Ok _ _ _ _ _
                 (descriptor_for_missing_side_deleted realm b _ c1 m2 pre s Hpre Hhas Hc)).
      apply joinDescriptors_values; assumption. }
    split; [exact Hjoin|].
    intros N1 N2 Hf s s' m3 Hrun. unfold map_get.
    rewrite (joinMaps_at (joinPropertyBindings_join realm joinCondition m1 m2 c1 c2)
               m1 m2 s s' m3 (b, Some written, None) (Some second_deleted) N1 N2);
      [reflexivity | | exact Hjoin | exact Hrun].
    unfold join_calls. apply elem_of_app. left. apply list_elem_of_fmap.
    exists (b, Some written). split.
    + simpl. rewrite Hget. reflexivity.
    + apply map_find_Some_elem. exact Hf.
  - intros Hm Hc.
    assert (Hhas : map_has m1 b = true) by (unfold map_has; rewrite Hm; reflexivity).
    assert (Hjoin : forall s : S,
              joinPropertyBindings_join realm joinCondition m1 m2 c1 c2 b None (Some written) s
              = (Ok (Some first_deleted), s)).
    { intros s. unfold joinPropertyBindings_join.
      rewrite (bind_Ok _ _ _ _ _
                 (descriptor_for_missing_side_deleted realm b _ c2 m1 pre s Hpre Hhas Hc)).
      rewrite bind_run, ret_run.
      apply joinDescriptors_values; assumption. }
    split; [exact Hjoin|].
    intros N1 N2 Hf s s' m3 Hrun. unfold map_get.
    rewrite (joinMaps_at (joinPropertyBindings_join realm joinCondition m1 m2 c1 c2)
               m1 m2 s s' m3 (b, None, Some written) (Some first_deleted) N1 N2);
      [reflexivity | | exact Hjoin | exact Hrun].
    unfold join_calls. apply elem_of_app. left. apply list_elem_of_fmap.
    exists (b, None). split.
    + simpl. unfold map_get. rewrite Hf. reflexivity.
    + apply map_find_Some_elem. exact Hm.
Qed.
End EngineFacts.

Section UnrelatedTests.
#[local] Existing Instance Domains.value_model.
#[local] Existing Instance Domains.helpers.
Import Domains.

(** C1 as stated fails on a condition that answers false to both tests: it
  cannot be true, yet [joinForkOrChoose] returns the record [e1], here
  0, which the first test has already chosen, and not [e2], here 1.  On
  the condition that is always false it returns [e2]. *)
Lemma joinForkOrChoose_first_test_wins :
mightNotBeFalse impossible = false
/\ joinForkOrChoose realm impossible 0 1 no_records = (Ok 0, no_records)
/\ joinForkOrChoose realm impossible 0 1 no_records <> (Ok 1, no_records)
/\ joinForkOrChoose realm never 0 1 no_records = (Ok 1, no_records).
Proof. repeat split. discriminate. Qed.
End UnrelatedTests.

Section Witnesses.
#[local] Existing Instance Sample.value_model.
#[local] Existing Instance Sample.helpers.
Import Sample.

(** C1 at a condition that is the boolean true, and at one that is false. *)
Lemma joinForkOrChoose_short_circuit_witness :
joinForkOrChoose realm yes 0 1 jumps = (Ok 0, jumps)
/\ joinForkOrChoose realm no 0 1 jumps = (Ok 1, jumps).
Proof.
split.
- apply (proj1 (joinForkOrChoose_short_circuit realm yes 0 1 jumps)). reflexivity.
- apply (proj2 (joinForkOrChoose_short_circuit realm no 0 1 jumps)); reflexivity.
Defined.

(** C6 at the number 7, with an abstraction function that would throw. *)
Lemma joinValues_same_concrete_witness :
joinValues realm (fun _ _ => throw FatalError) (Some (AValue seven)) (Some (AValue seven)) tt
= (Ok (AValue seven), tt).
Proof. apply joinValues_same_concrete; reflexivity. Defined.

(** C6 as stated fails at NaN, a concrete value that is not strictly equal
  to itself: the abstraction function is called (here it records its
  arguments in the state) and its result is returned. *)
Lemma joinValues_NaN_calls_f :
isAbstractValue not_a_number = false
/\ joinValues realm recording (Some (AValue not_a_number)) (Some (AValue not_a_number)) []
   = (Ok (AValue (Conditional condition (Some not_a_number) (Some not_a_number))),
      [(Some not_a_number, Some not_a_number)])
/\ joinValues realm recording (Some (AValue not_a_number)) (Some (AValue not_a_number)) []
   <> (Ok (AValue not_a_number), []).
Proof. repeat split. discriminate. Qed.

(** C4 at a break to L1 against a continue to L2: reported and fatal. *)
Lemma collapseResults_abrupt_pairs_witness :
collapseResults realm condition 0 1 2 jumps = introspection_error condition jumps.
Proof.
apply (collapseResults_abrupt_pairs realm condition 0 1 2 jumps _ _ eq_refl eq_refl);
  reflexivity.
Defined.

(** C4 as stated fails on two throws of the same string: the joined Throw
  carries that string, not a conditional value. *)
Lemma collapseResults_Throw_not_conditional :
collapseResults realm condition 0 1 2 throws
= allocated (completion ThrowCompletion boom (Some 0) None) throws
/\ boom <> createFromConditionalOp condition (Some boom) (Some boom).
Proof. split; [reflexivity | discriminate]. Qed.

(** C9 at two continues to L2, with a [this.joinValues] that would throw. *)
Lemma collapseResults_Continue_witness :
collapseResults_on (fun _ _ _ _ => throw InvariantViolation) realm condition 0 2 3 jumps
= allocated (completion (ContinueCompletion (Some "L2")) Empty (Some 0) None) jumps.
Proof.
apply (collapseResults_Continue _ realm condition 0 2 3 jumps (Some "L2") _ _
         eq_refl eq_refl eq_refl eq_refl).
Defined.

(** C7 on two small maps. *)
Lemma joinMaps_union_witness :
exists m3 m3',
  joinMaps first_map second_map (fun k a b => mret (add_present k a b)) tt = (Ok m3, tt)
  /\ joinMaps second_map first_map (fun k a b => mret (add_present k b a)) tt = (Ok m3', tt)
  /\ keys m3 = [1; 2; 3; 4] /\ keys m3' = [2; 3; 4; 1].
Proof.
destruct (joinMaps_union (S := unit) add_present first_map second_map tt)
  as (m3 & m3' & R1 & R2 & K1 & K2 & _).
- apply (bool_decide_unpack _). reflexivity.
- apply (bool_decide_unpack _). reflexivity.
- exists m3, m3'. repeat split; assumption.
Defined.

(** C8 on a binding whose two entries disagree on the value it had before
  the fork. *)
Lemma joinBindings_prior_history_witness :
exists h', joinBindings realm condition 0 leaked_with_1 1 held_after_7 two_generators
           = (Throw InvariantViolation, h').
Proof.
apply (joinBindings_prior_history realm condition 0 leaked_with_1 1 held_after_7
         two_generators binding_x (entry true one zero) (entry false two seven)).
- simpl. lia.
- simpl. lia.
- reflexivity.
- reflexivity.
- right. discriminate.
Defined.

Lemma map_get_singleton {K X} `{EqDecision K} (k k' : K) (v : option X) :
map_get [(k, v)] k' = if decide (k = k') then v else None.
Proof. unfold map_get. simpl. destruct (decide (k = k')); reflexivity. Qed.

(** C3 on the binding that leaked in the first branch with last value 1
  and is held in the second with value 2. *)
Lemma joinBindings_leak_propagation_witness :
exists ga' gb' m3 h',
  joinBindings realm condition 0 leaked_with_1 1 held_with_2 two_generators
  = (Ok (ga', gb', m3), h')
  /\ exists G, generators h' !! gb' = Some G /\ BindingAssignment binding_x two ∈ g_entries G.
Proof.
destruct (joinBindings_leak_propagation realm condition 0 leaked_with_1 1 held_with_2
            two_generators _ _ eq_refl eq_refl)
  as (ga' & gb' & m3 & h' & Hrun & _ & Hb).
- apply (bool_decide_unpack _). reflexivity.
- apply (bool_decide_unpack _). reflexivity.
- intros b e1 e2. unfold leaked_with_1, held_with_2. rewrite !map_get_singleton.
  destruct (decide (binding_x = b)); [|discriminate]. intros [= <-] [= <-]. split; reflexivity.
- exists ga', gb', m3, h'. split; [exact Hrun|].
  destruct (Hb binding_x) as [_ Hfirst].
  + left. left.
  + destruct Hfirst as (_ & _ & G & HG & _ & Hasg).
    * split; reflexivity.
    * exists G. split; [exact HG|]. apply Hasg; [reflexivity | discriminate].
Defined.

(** C3 as stated fails there: the entry written into the generator of the
  branch that holds the binding assigns that branch's own value 2, not the value 1
  that the leaking branch had last. *)
Lemma joinBindings_assigns_own_value :
joinBindings realm condition 0 leaked_with_1 1 held_with_2 two_generators
= (Ok (0, 2, [(binding_x, Some {| hasLeaked := Some true; value := None;
                           previousHasLeaked := Some false; previousValue := Some zero |})]),
   heap_of [generator_of [ResidualOperation 1]; generator_of [ResidualOperation 2];
            {| g_name := "RewrittenToAppendBindingAssignments"; g_pathConditions := [];
               g_entries := [ResidualOperation 2; BindingAssignment binding_x two] |}] [] [])
/\ BindingAssignment binding_x one ∉ [ResidualOperation 2; BindingAssignment binding_x two].
Proof.
split; [reflexivity|].
intros H. apply elem_of_cons in H as [H|H]; [discriminate|].
apply list_elem_of_singleton in H. discriminate.
Qed.

(** C2 on a throwing branch joined with one that ends normally. *)
Lemma joinForkOrChoose_one_abrupt_witness :
exists e s' E P,
  joinForkOrChoose realm condition 0 1 fork_sides = (Ok e, s')
  /\ effectses s' !! e = Some E
  /\ results s' !! result E = Some (ACompletion P)
  /\ class P = PossiblyNormalCompletion condition 0 1 [] None
  /\ generator E = 1.
Proof.
destruct (joinForkOrChoose_one_abrupt realm condition 0 1 fork_sides
            (effects_of_branch 0 0) (effects_of_branch 1 1) throwing_side normal_side
            true seven [] None eq_refl eq_refl eq_refl eq_refl eq_refl eq_refl
            eq_refl eq_refl eq_refl)
  as (e & s' & E & P & g0 & G0 & Hrun & HE & HP & HK & _ & _ & Hg & _).
- intros h _. split; [reflexivity|]. left. repeat split.
- exists e, s', E, P. repeat split; assumption.
Defined.

(** C2 as stated fails there: after the join the throwing side's record
  still has its generator 0 with the operation it emitted, and it is the
  record of the side that ended normally whose generator is now the new,
  empty generator 2. *)
Lemma joinForkOrChoose_empties_the_normal_side :
let s' := (joinForkOrChoose realm condition 0 1 fork_sides).2 in
(joinForkOrChoose realm condition 0 1 fork_sides).1 = Ok 3
/\ generator <$> effectses s' !! 0 = Some 0
/\ g_entries <$> generators s' !! 0 = Some [ResidualOperation 1]
/\ generator <$> effectses s' !! 1 = Some 2
/\ g_entries <$> generators s' !! 2 = Some [].
Proof. vm_compute. repeat split. Qed.

(** C5 on the property written with 5 in the first branch and deleted in the
  second. *)
Lemma joinPropertyBindings_write_against_delete_witness :
joinPropertyBindings_join realm condition writes_5 deletes [] [] p
  (Some (data_property five)) None tt
= (Ok (Some (data_property (Conditional condition (Some five) (Some Empty)))), tt).
Proof.
destruct (joinPropertyBindings_write_against_delete (S := unit) realm condition
            writes_5 deletes [] [] p (data_property five) (data_property three) five
            eq_refl eq_refl) as [Hsecond _].
destruct (Hsecond eq_refl eq_refl) as [Hjoin _].
exact (Hjoin tt).
Defined.

(** C5 as stated fails there: the written and the synthesized descriptor
  are equal data descriptors, so the join is one data descriptor whose
  value is the conditional value "c ? 5 : empty"; it has no join
  condition and no [descriptor1] or [descriptor2]. *)
Lemma joinPropertyBindings_merges_equal_descriptors :
exists d,
  joinPropertyBindings realm condition writes_5 deletes [] [] tt = (Ok [(p, Some d)], tt)
  /\ d_value d = Some (AValue (Conditional condition (Some five) (Some Empty)))
  /\ joinCondition d = None /\ descriptor1 d = None /\ descriptor2 d = None.
Proof. eexists. repeat split. Qed.
End Witnesses.

(** ** Termination of link resolution *)
Section ShapeFacts.
Import Shape.
Implicit Types (universe : ShapeUniverse) (d : option ShapeDescriptor).

Lemma resolve_links_finite universe fuel : forall d r,
  resolve_links fuel universe d = Some r -> finite_chain universe d.
Proof.
  induction fuel as [|fuel IH]; intros d r; simpl;
    destruct (link_name d) as [shapeName|] eqn:E; intros H; try discriminate.
  - apply chain_ends. exact E.
  - apply (chain_follows universe d (universe !! shapeName)).
    + exists shapeName. split; [exact E | reflexivity].
    + apply (IH _ r). exact H.
  - apply chain_ends. exact E.
Qed.

Lemma finite_resolve_links universe d :
  finite_chain universe d -> exists fuel r, resolve_links fuel universe d = Some r.
Proof.
  induction 1 as [d E | d d' (shapeName & E & ->) _ (fuel & r & IH)].
  - exists 0, d. simpl. rewrite E. reflexivity.
  - exists (S fuel), r. simpl. rewrite E. exact IH.
Qed.

(** After [k] turns of the loop. *)
Lemma resolve_links_nsteps universe k : forall d d' fuel,
  nsteps (follows universe) k d d' ->
  resolve_links fuel universe d
  = if decide (fuel < k) then None else resolve_links (fuel - k) universe d'.
Proof.
  induction k as [|k IH]; intros d d' fuel H.
  - inversion H; subst. rewrite decide_False by lia. rewrite Nat.sub_0_r. reflexivity.
  - inversion H as [|? ? d1 ? (shapeName & E & ->) H']; subst. rename H' into Hrest.
    destruct fuel as [|fuel]; cbn [resolve_links]; rewrite E.
    + rewrite decide_True by lia. reflexivity.
    + rewrite (IH _ _ fuel Hrest). destruct (decide (fuel < k)), (decide (S fuel < S k));
        try lia; reflexivity.
Qed.

Lemma resolve_links_cycle universe d :
  tc (follows universe) d d -> forall fuel, resolve_links fuel universe d = None.
Proof.
  intros H. apply tc_nsteps in H as (k & Hk & H).
  intros fuel. induction (lt_wf fuel) as [fuel _ IH].
  rewrite (resolve_links_nsteps universe k d d fuel H).
  destruct (decide (fuel < k)); [reflexivity|]. apply IH. lia.
Qed.

Lemma resolveLinksAndWrap_Some fuel d parentDescription parentKey universe :
  (exists r, _resolveLinksAndWrap fuel d parentDescription parentKey universe = Some r)
  <-> (exists r, resolve_links fuel universe d = Some r).
Proof.
  unfold _resolveLinksAndWrap.
  destruct (resolve_links fuel universe d) as [r|]; simpl; split; intros [x H];
    try discriminate; eexists; reflexivity.
Qed.

Lemma finite_chain_back universe d d' :
  rtc (follows universe) d d' -> finite_chain universe d' -> finite_chain universe d.
Proof.
  induction 1 as [|d d1 d' Hf _ IH]; intros H; [exact H|].
  apply (chain_follows universe d d1 Hf). apply IH. exact H.
Qed.

(** Following links whose names are taken from [avail]: the chain ends,
    or comes back to a descriptor it has been at, or comes to a link whose
    name is not in [avail]. *)
Lemma chain_within universe (avail : gset string) : forall d,
  finite_chain universe d
  \/ (exists x, rtc (follows universe) d x /\ tc (follows universe) x x)
  \/ (exists x shapeName, rtc (follows universe) d x /\ link_name x = Some shapeName
                          /\ shapeName ∉ avail).
Proof.
  induction (set_wf avail) as [avail _ IH]. intros d.
  destruct (link_name d) as [shapeName|] eqn:E; [|left; apply chain_ends; exact E].
  destruct (decide (shapeName ∈ avail)) as [Hin|Hout];
    [|right; right; exists d, shapeName; split; [reflexivity | split; assumption]].
  assert (Hf : follows universe d (universe !! shapeName))
    by (exists shapeName; split; [exact E | reflexivity]).
  assert (Hsub : avail ∖ {[shapeName]} ⊂ avail) by (apply subset_difference_elem_of; exact Hin).
  destruct (IH (avail ∖ {[shapeName]}) Hsub (universe !! shapeName))
    as [Hfin | [(x & Hr & Hc) | (x & m & Hr & Hm & Hout)]].
  - left. apply (chain_follows universe d _ Hf Hfin).
  - right. left. exists x. split; [eapply rtc_l; eassumption | exact Hc].
  - destruct (decide (m = shapeName)) as [->|Hne].
    + right. left. exists x. split; [eapply rtc_l; eassumption|].
      eapply tc_rtc_r; [|exact Hr]. apply tc_once.
      exists shapeName. split; [exact Hm | reflexivity].
    + right. right. exists x, m. split; [eapply rtc_l; eassumption|].
      split; [exact Hm|]. intros Hin'. apply Hout. apply elem_of_difference.
      split; [exact Hin'|]. intros Hs. apply elem_of_singleton in Hs. contradiction.
Qed.

(** The chain of links from a descriptor ends or comes back to a
    descriptor it has been at. *)
Lemma chain_ends_or_cycles universe d :
  finite_chain universe d
  \/ (exists x, rtc (follows universe) d x /\ tc (follows universe) x x).
Proof.
  destruct (chain_within universe (dom universe) d)
    as [Hfin | [Hc | (x & m & Hr & Hm & Hout)]]; [left; exact Hfin | right; exact Hc |].
  left. apply (finite_chain_back universe d x Hr).
  apply (chain_follows universe x (universe !! m)).
  - exists m. split; [exact Hm | reflexivity].
  - apply chain_ends. apply not_elem_of_dom in Hout. rewrite Hout. reflexivity.
Qed.

(** C10: [_resolveLinksAndWrap] returns, for some bound on the turns of
    its loop, exactly when the chain of links from its descriptor comes to
    an end, which it does unless it comes back to a descriptor it has
    been at; when a descriptor on that chain leads back to itself, no
    bound is enough, as for a link whose name resolves to that same link. *)
Theorem resolveLinksAndWrap_terminates d parentDescription parentKey universe :
  ((exists fuel r, _resolveLinksAndWrap fuel d parentDescription parentKey universe = Some r)
   <-> finite_chain universe d)
  /\ (finite_chain universe d
      \/ exists d', rtc (follows universe) d d' /\ tc (follows universe) d' d')
  /\ (forall d', rtc (follows universe) d d' -> tc (follows universe) d' d' ->
        forall fuel, _resolveLinksAndWrap fuel d parentDescription parentKey universe = None)
  /\ (forall c shapeName, universe !! shapeName = Some (LinkShape c shapeName) ->
        forall fuel,
          _resolveLinksAndWrap fuel (Some (LinkShape c shapeName)) parentDescription parentKey
            universe = None).
Proof.
  assert (Hcycle : forall d0 d', rtc (follows universe) d0 d' -> tc (follows universe) d' d' ->
            forall fuel p k, _resolveLinksAndWrap fuel d0 p k universe = None).
  { intros d0 d' Hr Hc fuel p k. unfold _resolveLinksAndWrap.
    apply rtc_nsteps in Hr as (n & Hn).
    rewrite (resolve_links_nsteps universe n d0 d' fuel Hn).
    destruct (decide (fuel < n)); [reflexivity|].
    rewrite (resolve_links_cycle universe d' Hc). reflexivity. }
  split; [|split; [apply chain_ends_or_cycles|split]].
  - split.
    + intros (fuel & r & H).
      destruct (proj1 (resolveLinksAndWrap_Some fuel d parentDescription parentKey universe))
        as [r' Hr']; [eexists; exact H|].
      apply (resolve_links_finite universe fuel d r'). exact Hr'.
    + intros H. destruct (finite_resolve_links universe d H) as (fuel & r & Hr).
      exists fuel. apply resolveLinksAndWrap_Some. exists r. exact Hr.
  - intros d' Hr Hc fuel. apply (Hcycle d d'); assumption.
  - intros c shapeName Hself fuel.
    apply (Hcycle _ (Some (LinkShape c shapeName))); [reflexivity|].
    apply tc_once. exists shapeName. split; [reflexivity | symmetry; exact Hself].
Qed.

(** C10 at a universe whose shape A is a link to A, and at one in which
    B links to the scalar C. *)
Lemma resolveLinksAndWrap_terminates_witness :
  (forall fuel, _resolveLinksAndWrap fuel (self_link !! "A") None None self_link = None)
  /\ finite_chain two_shapes (two_shapes !! "B").
Proof.
  split.
  - apply (proj2 (proj2 (proj2 (resolveLinksAndWrap_terminates (self_link !! "A") None None
                                  self_link))) common "A"). reflexivity.
  - apply (proj1 (proj1 (resolveLinksAndWrap_terminates (two_shapes !! "B") None None
                           two_shapes))).
    exists 1. eexists. reflexivity.
Defined.
End ShapeFacts.

(** ** More of the join engine *)
Section MoreEngineFacts.
Context `{VM : ValueModel} `{HP : !Helpers}.

(** *** Generators *)

Lemma Generator_empty_run g G (h : Heap) :
  generators h !! g = Some G ->
  Generator_empty g h = (Ok (bool_decide (g_entries G = [])), h).
Proof.
  intros H. unfold Generator_empty.
  rewrite (bind_Ok _ _ _ _ _ (read_generator_Some _ _ _ H)). reflexivity.
Qed.

Lemma appendGenerator_run this other T O (h : Heap) :
  generators h !! this = Some T -> generators h !! other = Some O ->
  appendGenerator this other "" h
  = (Ok tt, with_generators (fun a => <[this := add_entries (g_entries O) T]> a) h).
Proof.
  intros Ht Ho. unfold appendGenerator.
  rewrite (bind_Ok _ _ _ _ _ (read_generator_Some _ _ _ Ho)).
  apply update_generator_run. exact Ht.
Qed.

Lemma joinGenerators_run realm (joinCondition : Value) g1 g2 (s : Heap) G1 G2 :
  generators s !! g1 = Some G1 -> generators s !! g2 = Some G2 ->
  joinGenerators realm joinCondition g1 g2 s
  = (Ok (length (generators s)),
     with_generators (fun a => a ++ [joined realm joinCondition g1 g2 G1 G2]) s).
Proof.
  intros H1 H2. unfold joinGenerators, new_Generator, alloc_generator.
  rewrite bind_run. cbv beta iota.
  set (s1 := with_generators _ s).
  assert (H1' : generators s1 !! g1 = Some G1) by (apply lookup_app_l_Some; exact H1).
  assert (H2' : generators s1 !! g2 = Some G2) by (apply lookup_app_l_Some; exact H2).
  rewrite (bind_Ok _ _ _ _ _ (Generator_empty_run _ _ _ H1')).
  rewrite (bind_Ok _ _ _ _ _ (Generator_empty_run _ _ _ H2')).
  assert (HL : generators s1 !! length (generators s)
               = Some {| g_name := "joined"; g_pathConditions := pathConditions realm;
                         g_entries := [] |}) by apply lookup_last.
  unfold joined. rewrite bind_run.
  destruct (bool_decide (g_entries G1 = [])), (bool_decide (g_entries G2 = [])); simpl.
  1: { subst s1. reflexivity. }
  all: unfold Generator_joinGenerators;
    rewrite (update_generator_run _ _ _ _ HL);
    subst s1; destruct s; unfold with_generators; simpl; rewrite insert_last; reflexivity.
Qed.

(** X1: [joinGenerators] returns a new generator named "joined" with the
    realm's path conditions; it holds no entry when both generators are
    empty and otherwise the one conditional block of the two; the
    generators that existed, the two given ones included, are as they
    were. *)
Theorem joinGenerators_records_one_block realm (joinCondition : Value) g1 g2 (s : Heap) G1 G2 :
  generators s !! g1 = Some G1 -> generators s !! g2 = Some G2 ->
  exists s' G,
    joinGenerators realm joinCondition g1 g2 s = (Ok (length (generators s)), s')
    /\ generators s' = generators s ++ [G]
    /\ g_name G = "joined" /\ g_pathConditions G = pathConditions realm
    /\ (g_entries G1 = [] -> g_entries G2 = [] -> g_entries G = [])
    /\ (g_entries G1 <> [] \/ g_entries G2 <> [] ->
        g_entries G = [JoinedGenerators joinCondition g1 g2])
    /\ effectses s' = effectses s /\ results s' = results s
    /\ diagnostics s' = diagnostics s.
Proof.
  intros H1 H2. eexists _, _. split; [apply (joinGenerators_run _ _ _ _ _ _ _ H1 H2)|].
  unfold joined. simpl. repeat split.
  - intros -> ->. reflexivity.
  - intros [Hn|Hn].
    + rewrite (bool_decide_eq_false_2 _ Hn). reflexivity.
    + rewrite (bool_decide_eq_false_2 _ Hn), andb_false_r. reflexivity.
Qed.

Lemma composeGenerators_run realm g1 g2 (s : Heap) G1 G2 :
  generators s !! g1 = Some G1 -> generators s !! g2 = Some G2 ->
  composeGenerators realm g1 g2 s
  = (Ok (length (generators s)), with_generators (fun a => a ++ [composed G1 G2]) s).
Proof.
  intros H1 H2. unfold composeGenerators.
  rewrite (bind_Ok _ _ _ _ _ (read_generator_Some _ _ _ H1)).
  rewrite (bind_Ok _ _ _ _ _ (read_generator_Some _ _ _ H2)).
  unfold new_Generator, alloc_generator. rewrite bind_run. cbv beta iota.
  set (N := {| g_name := "composed";
               g_pathConditions := g_pathConditions G1 ++ g_pathConditions G2;
               g_entries := [] |}).
  set (s1 := with_generators _ s).
  assert (H1' : generators s1 !! g1 = Some G1) by (apply lookup_app_l_Some; exact H1).
  rewrite (bind_Ok _ _ _ _ _ (Generator_empty_run _ _ _ H1')).
  rewrite bind_run.
  assert (A1 : (if negb (bool_decide (g_entries G1 = []))
                then appendGenerator (length (generators s)) g1 "" else mret ()) s1
               = (Ok tt, with_generators
                           (fun _ => generators s ++ [add_entries (g_entries G1) N]) s)).
  { destruct (decide (g_entries G1 = [])) as [E|E].
    - rewrite (bool_decide_eq_true_2 _ E). simpl. rewrite E, add_entries_nil.
      subst s1. destruct s; reflexivity.
    - rewrite (bool_decide_eq_false_2 _ E). simpl.
      assert (HN : generators s1 !! length (generators s) = Some N) by apply lookup_last.
      rewrite (appendGenerator_run _ _ N G1 s1 HN H1').
      subst s1. destruct s; unfold with_generators; simpl. rewrite insert_last.
      reflexivity. }
  rewrite A1. clear A1. set (s2 := with_generators _ s).
  assert (H2' : generators s2 !! g2 = Some G2) by (apply lookup_app_l_Some; exact H2).
  rewrite (bind_Ok _ _ _ _ _ (Generator_empty_run _ _ _ H2')).
  rewrite bind_run.
  assert (A2 : (if negb (bool_decide (g_entries G2 = []))
                then appendGenerator (length (generators s)) g2 "" else mret ()) s2
               = (Ok tt, with_generators (fun a => a ++ [composed G1 G2]) s)).
  { unfold composed. destruct (decide (g_entries G2 = [])) as [E|E].
    - rewrite (bool_decide_eq_true_2 _ E). simpl. rewrite E, app_nil_r.
      subst s2 N. destruct s; unfold add_entries; reflexivity.
    - rewrite (bool_decide_eq_false_2 _ E). simpl.
      assert (HN : generators s2 !! length (generators s)
                   = Some (add_entries (g_entries G1) N)) by apply lookup_last.
      rewrite (appendGenerator_run _ _ (add_entries (g_entries G1) N) G2 s2 HN H2').
      subst s2 N. destruct s; unfold with_generators, add_entries; simpl.
      rewrite insert_last. reflexivity. }
  rewrite A2. reflexivity.
Qed.

(** X2: [composeGenerators] returns a new generator named "composed"
    whose path conditions are those of the first generator followed by
    those of the second, and whose entries are the entries of the first
    followed by those of the second; the two generators are as they
    were. *)
Theorem composeGenerators_appends realm g1 g2 (s : Heap) G1 G2 :
  generators s !! g1 = Some G1 -> generators s !! g2 = Some G2 ->
  exists s' G,
    composeGenerators realm g1 g2 s = (Ok (length (generators s)), s')
    /\ generators s' = generators s ++ [G]
    /\ g_name G = "composed"
    /\ g_pathConditions G = g_pathConditions G1 ++ g_pathConditions G2
    /\ g_entries G = g_entries G1 ++ g_entries G2
    /\ effectses s' = effectses s /\ results s' = results s
    /\ diagnostics s' = diagnostics s.
Proof.
  intros H1 H2. eexists _, _. split; [apply (composeGenerators_run _ _ _ _ _ _ H1 H2)|].
  repeat split.
Qed.

(** X3: composing is associative on what a generator holds: composing
    the composition of two generators with a third gives the same path
    conditions and entries as composing the first with the composition
    of the other two. *)
Theorem composeGenerators_assoc realm g1 g2 g3 (s : Heap) G1 G2 G3 :
  generators s !! g1 = Some G1 -> generators s !! g2 = Some G2 ->
  generators s !! g3 = Some G3 ->
  exists l r sl sr L R,
    (g12 ← composeGenerators realm g1 g2; composeGenerators realm g12 g3) s = (Ok l, sl)
    /\ (g23 ← composeGenerators realm g2 g3; composeGenerators realm g1 g23) s = (Ok r, sr)
    /\ generators sl !! l = Some L /\ generators sr !! r = Some R
    /\ g_pathConditions L = g_pathConditions R
    /\ g_entries L = g_entries R
    /\ g_entries L = g_entries G1 ++ g_entries G2 ++ g_entries G3.
Proof.
  intros H1 H2 H3.
  pose proof (composeGenerators_run realm g1 g2 s G1 G2 H1 H2) as R12.
  pose proof (composeGenerators_run realm g2 g3 s G2 G3 H2 H3) as R23.
  set (s12 := with_generators (fun a => a ++ [composed G1 G2]) s) in R12.
  set (s23 := with_generators (fun a => a ++ [composed G2 G3]) s) in R23.
  assert (L12 : generators s12 !! length (generators s) = Some (composed G1 G2))
    by apply lookup_last.
  assert (L23 : generators s23 !! length (generators s) = Some (composed G2 G3))
    by apply lookup_last.
  assert (H3' : generators s12 !! g3 = Some G3) by (apply lookup_app_l_Some; exact H3).
  assert (H1' : generators s23 !! g1 = Some G1) by (apply lookup_app_l_Some; exact H1).
  pose proof (composeGenerators_run realm _ g3 s12 _ G3 L12 H3') as RL.
  pose proof (composeGenerators_run realm g1 _ s23 G1 _ H1' L23) as RR.
  eexists _, _, _, _, _, _.
  split; [rewrite (bind_Ok _ _ _ _ _ R12); exact RL|].
  split; [rewrite (bind_Ok _ _ _ _ _ R23); exact RR|].
  split; [apply lookup_last|]. split; [apply lookup_last|].
  unfold composed. simpl. rewrite <- !app_assoc. repeat split.
Qed.

(** *** Arrays and values *)

Lemma mapM_pure {S A B} (f : A -> B) (l : list A) (s : S) :
  mapM_ (fun a => mret (f a)) l s = (Ok (map f l), s).
Proof.
  induction l as [|a l IH]; simpl; [reflexivity|].
  rewrite bind_run, ret_run, bind_run, IH. reflexivity.
Qed.

Lemma mapM_ext {S A B} (f g : A -> M S B) (l : list A) (s : S) :
  (forall a s, f a s = g a s) -> mapM_ f l s = mapM_ g l s.
Proof.
  intros E. revert s. induction l as [|a l IH]; intros s; simpl; [reflexivity|].
  rewrite !bind_run, E. destruct (g a s) as [[b|e] s']; [|reflexivity].
  rewrite !bind_run, IH. reflexivity.
Qed.

(** X4: with an abstraction function that only computes,
    [joinArraysOfValues] returns an array as long as the longer of the
    two, whose element at each index is the abstraction of the two
    elements at that index, an element past the end of an array (or of an
    undefined array) counting as undefined. *)
Theorem joinArraysOfValues_elementwise {S} (g : option Value -> option Value -> Value)
    (a1 a2 : option (list Value)) (s : S) :
  exists r,
    joinArraysOfValues (pure2 g) a1 a2 s = (Ok r, s)
    /\ length r = max (length_or_0 a1) (length_or_0 a2)
    /\ forall i, i < length r -> r !! i = Some (g (index a1 i) (index a2 i)).
Proof.
  unfold joinArraysOfValues, pure2. rewrite mapM_pure. eexists. split; [reflexivity|].
  rewrite length_map, length_seq. split; [reflexivity|].
  intros i Hi. rewrite list_lookup_fmap, lookup_seq_lt by exact Hi. reflexivity.
Qed.

(** The entry that [joinArrayOfsMapEntries] makes of two entries. *)
Lemma joinArrayOfsMapEntries_run {S} realm (g : option Value -> option Value -> Value)
    (a1 a2 : option (list MapEntry)) (s : S) :
  let padding := {| Key := Some (intrinsics_empty realm);
                    Val := Some (intrinsics_empty realm) |} in
  joinArrayOfsMapEntries realm (pure2 g) a1 a2 s
  = (Ok (map (fun i =>
                let e1 := default padding (index a1 i) in
                let e2 := default padding (index a2 i) in
                if bool_decide (Key e1 = None) && bool_decide (Key e2 = None)
                then {| Key := None; Val := None |}
                else {| Key := Some (g (Key e1) (Key e2));
                        Val := Some (g (Val e1) (Val e2)) |})
           (seq 0 (max (length_or_0 a1) (length_or_0 a2)))), s).
Proof.
  intros padding. unfold joinArrayOfsMapEntries. rewrite <- mapM_pure.
  apply mapM_ext. intros i s0. fold padding.
  destruct (default padding (index a1 i)) as [k1 v1], (default padding (index a2 i)) as [k2 v2].
  simpl. destruct (bool_decide (k1 = None) && bool_decide (k2 = None)); reflexivity.
Qed.

(** X5: with an abstraction function that only computes,
    [joinArrayOfsMapEntries] returns an array as long as the longer of
    the two; an entry missing on one side counts as the entry whose key
    and value are the empty sentinel; two entries whose keys are both
    undefined give an entry with undefined key and value, and any other
    two give the abstraction of the keys and of the values. *)
Theorem joinArrayOfsMapEntries_elementwise {S} realm
    (g : option Value -> option Value -> Value) (a1 a2 : option (list MapEntry)) (s : S) :
  let padding := {| Key := Some (intrinsics_empty realm);
                    Val := Some (intrinsics_empty realm) |} in
  exists r,
    joinArrayOfsMapEntries realm (pure2 g) a1 a2 s = (Ok r, s)
    /\ length r = max (length_or_0 a1) (length_or_0 a2)
    /\ forall i, i < length r ->
         let e1 := default padding (index a1 i) in
         let e2 := default padding (index a2 i) in
         (Key e1 = None -> Key e2 = None -> r !! i = Some {| Key := None; Val := None |})
         /\ (Key e1 <> None \/ Key e2 <> None ->
             r !! i = Some {| Key := Some (g (Key e1) (Key e2));
                              Val := Some (g (Val e1) (Val e2)) |}).
Proof.
  intros padding. eexists. split; [apply joinArrayOfsMapEntries_run|].
  rewrite length_map, length_seq. split; [reflexivity|].
  intros i Hi e1 e2. rewrite list_lookup_fmap, lookup_seq_lt by exact Hi. simpl.
  fold padding e1 e2. split.
  - intros -> ->. reflexivity.
  - intros [Hn|Hn].
    + rewrite (bool_decide_eq_false_2 _ Hn). reflexivity.
    + rewrite (bool_decide_eq_false_2 _ Hn), andb_false_r. reflexivity.
Qed.

(** X6: on two values that are not arrays, [joinValues] returns what the
    abstraction function returns for them, whenever one of the two is
    undefined or abstract or the two are not strictly equal. *)
Theorem joinValues_delegates {S} realm
    (f : option Value -> option Value -> M S Value) (v1 v2 : option Value) (s : S) :
  (v1 = None \/ v2 = None
   \/ exists a b, v1 = Some a /\ v2 = Some b
        /\ (isAbstractValue a = true \/ isAbstractValue b = true
            \/ StrictEqualityComparison a b = false)) ->
  joinValues realm f (AValue <$> v1) (AValue <$> v2) s
  = (r ← f v1 v2; mret (AValue r)) s.
Proof.
  intros H. unfold joinValues, throwIfNotConcrete.
  destruct v1 as [a|], v2 as [b|]; simpl; try reflexivity.
  rewrite bind_run.
  destruct H as [H|[H|(a' & b' & Ha & Hb & H)]]; try discriminate.
  injection Ha as <-. injection Hb as <-.
  destruct (isAbstractValue a) eqn:Ea; simpl; [reflexivity|].
  destruct (isAbstractValue b) eqn:Eb; simpl; [reflexivity|].
  destruct H as [H|[H|H]]; try discriminate. rewrite H. reflexivity.
Qed.
(** *** Descriptors and property bindings *)

(** X7: a property that one branch only has a descriptor for.  A data
    descriptor with a plain value (or none) keeps its attributes, and its
    value becomes the conditional value of that value and the empty
    sentinel, in the order of the branches; any other descriptor is put
    under the join condition by itself, as [descriptor1] or
    [descriptor2]; and no descriptor on either side gives none. *)
Theorem joinDescriptors_one_sided {S} realm (joinCondition : Value) (d : Descriptor)
    (v : option Value) (s : S) :
  let empty := intrinsics_empty realm in
  let conditional := createFromConditionalOp joinCondition in
  (IsDataDescriptor d = true -> d_value d = AValue <$> v ->
     joinDescriptors realm joinCondition (Some d) None s
     = (Ok (Some (with_value (Some (AValue (conditional v (Some empty)))) d)), s)
     /\ joinDescriptors realm joinCondition None (Some d) s
        = (Ok (Some (with_value (Some (AValue (conditional (Some empty) v))) d)), s))
  /\ (IsDataDescriptor d = false ->
      joinDescriptors realm joinCondition (Some d) None s
      = (Ok (Some (conditional_descriptor joinCondition (Some d) None)), s)
      /\ joinDescriptors realm joinCondition None (Some d) s
         = (Ok (Some (conditional_descriptor joinCondition None (Some d))), s))
  /\ joinDescriptors realm joinCondition None None s = (Ok None, s).
Proof.
  intros empty conditional. unfold joinDescriptors, clone_with_abstract_value, cloneDescriptor.
  split; [|split; [|reflexivity]].
  - intros Hd Hv. rewrite Hd, Hv. simpl. destruct v; split; reflexivity.
  - intros Hd. rewrite Hd. simpl. split; reflexivity.
Qed.

(** X8: a data descriptor that one branch only has and whose value is
    an array of values.  An empty array fails the invariant; otherwise
    the value becomes the array, of the same length, of the conditional
    values of each element and the empty sentinel. *)
Theorem joinDescriptors_one_sided_array {S} realm (joinCondition : Value) (d : Descriptor)
    (l : list Value) (s : S) :
  IsDataDescriptor d = true ->
  d_value d = Some (AnArray (ArrayOfValues l)) ->
  let empty := intrinsics_empty realm in
  let conditional := createFromConditionalOp joinCondition in
  let array_of (f : Value -> Value) := Some (AnArray (ArrayOfValues (map f l))) in
  (l = [] ->
     joinDescriptors realm joinCondition (Some d) None s = (Throw InvariantViolation, s)
     /\ joinDescriptors realm joinCondition None (Some d) s = (Throw InvariantViolation, s))
  /\ (l <> [] ->
      joinDescriptors realm joinCondition (Some d) None s
      = (Ok (Some (with_value (array_of (fun e => conditional (Some e) (Some empty))) d)), s)
      /\ joinDescriptors realm joinCondition None (Some d) s
         = (Ok (Some (with_value (array_of (fun e => conditional (Some empty) (Some e))) d)),
            s)).
Proof.
  intros Hd Hv empty conditional array_of.
  unfold joinDescriptors, clone_with_abstract_value, cloneDescriptor.
  rewrite Hd, Hv. simpl. split.
  - intros ->. rewrite !bind_run.
    rewrite bool_decide_eq_false_2 by (intros [H _]; apply H; reflexivity).
    split; reflexivity.
  - intros Hl. rewrite !bind_run.
    rewrite bool_decide_eq_true_2
      by (split; [intros H; injection H as H; contradiction | discriminate]).
    split; reflexivity.
Qed.

(** What [joinPropertyBindings] holds at a key whose join returns the same
    in every state. *)
Lemma joinPropertyBindings_at {S} realm (joinCondition : Value)
    (m1 m2 : PropertyBindings) (c1 c2 : CreatedObjects) (b : PropertyBinding)
    (r : option Descriptor) (s s' : S) m3 :
  NoDup (keys m1) -> NoDup (keys m2) ->
  b ∈ keys m1 \/ b ∈ keys m2 ->
  (forall s0 : S,
     joinPropertyBindings_join realm joinCondition m1 m2 c1 c2 b
       (map_get m1 b) (map_get m2 b) s0 = (Ok r, s0)) ->
  joinPropertyBindings realm joinCondition m1 m2 c1 c2 s = (Ok m3, s') ->
  map_get m3 b = r.
Proof.
  intros N1 N2 Hb Hjoin Hrun. unfold map_get.
  rewrite (joinMaps_at (joinPropertyBindings_join realm joinCondition m1 m2 c1 c2)
             m1 m2 s s' m3 (b, map_get m1 b, map_get m2 b) r N1 N2);
    [reflexivity | | exact Hjoin | exact Hrun].
  apply join_calls_elem; assumption.
Qed.

(** X9: a property of an object that was created in one branch, for
    which the other branch has no descriptor, is not joined: the joined
    map holds for it the descriptor of the branch that created the
    object, as it is. *)
Theorem joinPropertyBindings_fresh_object {S} realm (joinCondition : Value)
    (m1 m2 : PropertyBindings) (c1 c2 : CreatedObjects) (b : PropertyBinding)
    (s s' : S) m3 :
  NoDup (keys m1) -> NoDup (keys m2) ->
  b ∈ keys m1 \/ b ∈ keys m2 ->
  joinPropertyBindings realm joinCondition m1 m2 c1 c2 s = (Ok m3, s') ->
  (map_get m1 b = None -> set_has c2 (object b) = true -> map_get m3 b = map_get m2 b)
  /\ (map_get m2 b = None -> map_get m1 b <> None -> set_has c1 (object b) = true ->
      map_get m3 b = map_get m1 b).
Proof.
  intros N1 N2 Hb Hrun. split.
  - intros H1 Hc. apply (joinPropertyBindings_at realm joinCondition m1 m2 c1 c2 b _ s s');
      try assumption.
    intros s0. rewrite H1. unfold joinPropertyBindings_join, descriptor_for_missing_side.
    rewrite Hc. reflexivity.
  - intros H2 H1 Hc. apply (joinPropertyBindings_at realm joinCondition m1 m2 c1 c2 b _ s s');
      try assumption.
    intros s0. rewrite H2. destruct (map_get m1 b) as [d1|]; [|contradiction].
    unfold joinPropertyBindings_join, descriptor_for_missing_side.
    rewrite bind_run, ret_run. rewrite Hc. reflexivity.
Qed.

(** X10: a property that one branch has written with a plain value [w]
    and the other has not touched, on an object that existed before the
    fork, is joined with the descriptor the property had before the
    fork.  When that one is an equal data descriptor with the plain value
    [p], the joined descriptor holds the join of [p] and [w]; when the
    property had no descriptor and the written one is a data descriptor,
    it holds the conditional value of the empty sentinel and [w].  The
    untouched branch comes first here; the other way round is
    symmetric. *)
Theorem joinPropertyBindings_unwritten_side {S} realm (joinCondition : Value)
    (m1 m2 : PropertyBindings) (c1 c2 : CreatedObjects) (b : PropertyBinding)
    (written : Descriptor) (w : Value) (s s' : S) m3 :
  NoDup (keys m1) -> NoDup (keys m2) ->
  b ∉ keys m1 -> map_get m2 b = Some written ->
  set_has c2 (object b) = false ->
  d_value written = Some (AValue w) ->
  joinPropertyBindings realm joinCondition m1 m2 c1 c2 s = (Ok m3, s') ->
  let conditional := getAbstractValue_conditional joinCondition in
  (forall pre p, descriptor b = Some pre -> d_value pre = Some (AValue p) ->
     map_get m3 b
     = Some (if equalDescriptors pre written && IsDataDescriptor pre
             then with_value (Some (AValue (joined_value conditional p w))) pre
             else conditional_descriptor joinCondition (Some pre) (Some written)))
  /\ (descriptor b = None -> IsDataDescriptor written = true ->
      map_get m3 b
      = Some (with_value
                (Some (AValue (conditional (Some (intrinsics_empty realm)) (Some w))))
                written)).
Proof.
  intros N1 N2 H1 H2 Hc Hw Hrun conditional.
  assert (Hb : b ∈ keys m1 \/ b ∈ keys m2).
  { right. apply map_get_Some_elem in H2. apply (list_elem_of_fmap_2 fst) in H2. exact H2. }
  assert (Hhas : map_has m1 b = false) by (apply map_has_false; exact H1).
  assert (Hget : map_get m1 b = None) by (apply map_get_absent; exact H1).
  split.
  - intros pre p Hpre Hp.
    apply (joinPropertyBindings_at realm joinCondition m1 m2 c1 c2 b _ s s');
      try assumption.
    intros s0. rewrite Hget, H2.
    unfold joinPropertyBindings_join, descriptor_for_missing_side.
    rewrite Hc, Hhas, andb_false_r. rewrite bind_run, ret_run, bind_run, ret_run.
    rewrite Hpre. apply joinDescriptors_values; assumption.
  - intros Hpre Hd.
    apply (joinPropertyBindings_at realm joinCondition m1 m2 c1 c2 b _ s s');
      try assumption.
    intros s0. rewrite Hget, H2.
    unfold joinPropertyBindings_join, descriptor_for_missing_side.
    rewrite Hc, Hhas, andb_false_r. rewrite bind_run, ret_run, bind_run, ret_run.
    rewrite Hpre.
    unfold joinDescriptors, clone_with_abstract_value, cloneDescriptor.
    rewrite Hd, Hw. reflexivity.
Qed.

(** *** Results *)

Lemma joinOrForkResults_attached realm (joinCondition : Value) r1 r2 e1 e2 (h : Heap)
    (C1 C2 : Completion) (E1 E2 : Effects) :
  results h !! r1 = Some (ACompletion C1) -> effects C1 = Some e1 ->
  effectses h !! e1 = Some E1 -> result E1 = r1 ->
  results h !! r2 = Some (ACompletion C2) -> effects C2 = Some e2 ->
  effectses h !! e2 = Some E2 -> result E2 = r2 ->
  joinOrForkResults realm joinCondition r1 r2 e1 e2 h
  = (let getAbstractValue := pure2 (getAbstractValue_conditional joinCondition) in
     if isSimpleNormalCompletion (class C1) && isSimpleNormalCompletion (class C2) then
       val ← joinValues realm getAbstractValue (Some (AValue (c_value C1)))
               (Some (AValue (c_value C2)));
       val ← expect_Value val;
       new_Completion SimpleNormalCompletion val None None
     else if isAbruptCompletion (class C1) && isAbruptCompletion (class C2) then
       new_ForkedAbruptCompletion realm joinCondition r1 r2
     else if isNormalCompletion (class C1) && isNormalCompletion (class C2) then
       joinNormalCompletions realm joinCondition r1 e1 r2 e2
     else if isAbruptCompletion (class C1) then
       fork_with_normal joinCondition r1 r2 r2
     else if isAbruptCompletion (class C2) then
       fork_with_normal joinCondition r1 r2 r1
     else throw InvariantViolation) h.
Proof.
  intros H1 F1 HE1 R1 H2 F2 HE2 R2. unfold joinOrForkResults.
  rewrite (bind_Ok _ _ _ _ _ (read_result_Some _ _ _ H1)). simpl. rewrite F1.
  rewrite bool_decide_eq_true_2 by reflexivity. rewrite bind_run, invariant_true.
  rewrite (bind_Ok _ _ _ _ _ (read_effects_Some _ _ _ HE1)).
  rewrite bool_decide_eq_true_2 by exact R1. rewrite bind_run, invariant_true.
  rewrite (bind_Ok _ _ _ _ _ (read_result_Some _ _ _ H2)). simpl. rewrite F2.
  rewrite bool_decide_eq_true_2 by reflexivity. rewrite bind_run, invariant_true.
  rewrite (bind_Ok _ _ _ _ _ (read_effects_Some _ _ _ HE2)).
  rewrite bool_decide_eq_true_2 by exact R2. rewrite bind_run, invariant_true.
  reflexivity.
Qed.

(** X11: [joinOrForkResults] never merges two abrupt results, not even
    two of the same kind and target: it returns a new
    [ForkedAbruptCompletion] over the two, attached to no effects, and
    leaves the two results and the rest of the heap as they were. *)
Theorem joinOrForkResults_forks_abrupt_pairs realm (joinCondition : Value) r1 r2 e1 e2
    (h : Heap) (C1 C2 : Completion) (E1 E2 : Effects) :
  results h !! r1 = Some (ACompletion C1) -> effects C1 = Some e1 ->
  effectses h !! e1 = Some E1 -> result E1 = r1 ->
  results h !! r2 = Some (ACompletion C2) -> effects C2 = Some e2 ->
  effectses h !! e2 = Some E2 -> result E2 = r2 ->
  isAbruptCompletion (class C1) = true -> isAbruptCompletion (class C2) = true ->
  joinOrForkResults realm joinCondition r1 r2 e1 e2 h
  = (Ok (length (results h)),
     with_results
       (fun a => a ++ [completion (ForkedAbruptCompletion joinCondition r1 r2)
                         (intrinsics_empty realm) None None]) h).
Proof.
  intros H1 F1 HE1 R1 H2 F2 HE2 R2 A1 A2.
  rewrite (joinOrForkResults_attached _ _ _ _ _ _ _ _ _ _ _ H1 F1 HE1 R1 H2 F2 HE2 R2).
  destruct (abrupt_not_normal _ A1) as [_ S1]. rewrite S1, A1, A2. reflexivity.
Qed.

(** X12: two results that are simple normal completions give a new simple
    normal completion, attached to no effects, whose value is the join of
    the two values: the first value when the two are strictly equal
    concrete values, their conditional value otherwise. *)
Theorem joinOrForkResults_joins_normal_pairs realm (joinCondition : Value) r1 r2 e1 e2
    (h : Heap) (C1 C2 : Completion) (E1 E2 : Effects) :
  results h !! r1 = Some (ACompletion C1) -> effects C1 = Some e1 ->
  effectses h !! e1 = Some E1 -> result E1 = r1 ->
  results h !! r2 = Some (ACompletion C2) -> effects C2 = Some e2 ->
  effectses h !! e2 = Some E2 -> result E2 = r2 ->
  class C1 = SimpleNormalCompletion -> class C2 = SimpleNormalCompletion ->
  let a := c_value C1 in
  let b := c_value C2 in
  let v := if negb (isAbstractValue a) && negb (isAbstractValue b)
              && StrictEqualityComparison a b
           then a
           else createFromConditionalOp joinCondition (Some a) (Some b) in
  joinOrForkResults realm joinCondition r1 r2 e1 e2 h
  = (Ok (length (results h)),
     with_results (fun l => l ++ [completion SimpleNormalCompletion v None None]) h).
Proof.
  intros H1 F1 HE1 R1 H2 F2 HE2 R2 K1 K2.
  rewrite (joinOrForkResults_attached _ _ _ _ _ _ _ _ _ _ _ H1 F1 HE1 R1 H2 F2 HE2 R2).
  rewrite K1, K2. simpl.
  rewrite (bind_Ok _ _ _ _ _ (joinValues_of_values _ _ _ _ _)). reflexivity.
Qed.

(** X13: [joinNormalCompletions] writes the joined value into the
    completion of the alternate, which loses the value it had, and returns
    a new [PossiblyNormalCompletion] of that value over the two
    completions, with no saved path conditions and no saved effects.  The
    joined value is the first value when the two are strictly equal
    concrete values, and otherwise what the abstraction that lets the
    empty sentinel give way to the other value makes of them. *)
Theorem joinNormalCompletions_overwrites_alternate realm (joinCondition : Value)
    (c ce a ae : loc) (h : Heap) (C A : Completion) :
  results h !! c = Some (ACompletion C) ->
  results h !! a = Some (ACompletion A) ->
  let rv := joined_value (getAbstractValue_skipping_empty realm joinCondition)
              (c_value C) (c_value A) in
  exists h',
    joinNormalCompletions realm joinCondition c ce a ae h = (Ok (length (results h)), h')
    /\ results h' !! a = Some (set_value rv (ACompletion A))
    /\ (c <> a -> results h' !! c = Some (ACompletion C))
    /\ results h' !! length (results h)
       = Some (completion (PossiblyNormalCompletion joinCondition c a [] None) rv None None)
    /\ length (results h') = S (length (results h))
    /\ (forall l, l < length (results h) -> l <> a -> results h' !! l = results h !! l)
    /\ generators h' = generators h /\ effectses h' = effectses h
    /\ diagnostics h' = diagnostics h.
Proof.
  intros HC HA rv. unfold joinNormalCompletions.
  rewrite (bind_Ok _ _ _ _ _ (read_result_Some _ _ _ HC)).
  rewrite (bind_Ok _ _ _ _ _ (read_result_Some _ _ _ HA)). simpl.
  rewrite (bind_Ok _ _ _ _ _ (joinValues_of_values _ _ _ _ _)). simpl.
  rewrite bind_run, ret_run, bind_run. rewrite (update_result_run _ _ _ _ HA).
  fold rv. unfold new_PossiblyNormalCompletion. rewrite new_Completion_run.
  unfold allocated. simpl. rewrite length_insert.
  pose proof (lookup_lt_Some _ _ _ HA) as La.
  eexists. split; [reflexivity|]. simpl. repeat split.
  - rewrite lookup_app_l by (rewrite length_insert; exact La).
    apply list_lookup_insert_eq. exact La.
  - intros Hne. rewrite lookup_app_l
      by (rewrite length_insert; apply (lookup_lt_Some _ _ _ HC)).
    rewrite list_lookup_insert_ne by congruence. exact HC.
  - rewrite <- (length_insert (results h) a (ACompletion
        {| class := class A; c_value := rv; effects := effects A; location := location A |})).
    apply lookup_last.
  - rewrite length_app, length_insert. simpl. lia.
  - intros l Hl Hne. rewrite lookup_app_l by (rewrite length_insert; exact Hl).
    apply list_lookup_insert_ne. congruence.
Qed.

(** X14: [collapseResults] on two simple normal completions takes no
    short cut for equal values: the new completion, attached to the
    preceding effects, has the second value when the first is the empty
    sentinel, the first when the second is, and otherwise their
    conditional value, also when the two are the same concrete value. *)
Theorem collapseResults_normal_pair this_joinValues realm (joinCondition : Value)
    (precedingEffects result1 result2 : loc) (s : Heap) (c1 c2 : Completion) :
  results s !! result1 = Some (ACompletion c1) ->
  results s !! result2 = Some (ACompletion c2) ->
  class c1 = SimpleNormalCompletion -> class c2 = SimpleNormalCompletion ->
  exists v,
    collapseResults_on this_joinValues realm joinCondition precedingEffects result1 result2 s
    = (Ok (length (results s)),
       with_results
         (fun a => a ++ [completion SimpleNormalCompletion v (Some precedingEffects) None]) s)
    /\ (isEmptyValue (c_value c1) = true -> v = c_value c2)
    /\ (isEmptyValue (c_value c1) = false -> isEmptyValue (c_value c2) = true ->
        v = c_value c1)
    /\ (isEmptyValue (c_value c1) = false -> isEmptyValue (c_value c2) = false ->
        v = createFromConditionalOp joinCondition (Some (c_value c1)) (Some (c_value c2))).
Proof.
  intros H1 H2 K1 K2. unfold collapseResults_on.
  rewrite (bind_Ok _ _ _ _ _ (read_result_Some _ _ _ H1)).
  rewrite (bind_Ok _ _ _ _ _ (read_result_Some _ _ _ H2)).
  unfold instanceof, target_of, class_of. rewrite K1, K2. simpl.
  eexists. split; [reflexivity|]. unfold getAbstractValue_skipping_empty. simpl.
  repeat split.
  - intros ->. reflexivity.
  - intros -> ->. reflexivity.
  - intros -> ->. reflexivity.
Qed.

(** X15: [unbundleNormalCompletion] gives back a value or a reference by
    itself, and a [PossiblyNormalCompletion] together with its value; on
    every other completion, a simple normal one included, it fails its
    invariant. *)
Theorem unbundleNormalCompletion_cases (s : Heap) :
  (forall v, unbundleNormalCompletion (inr v) s = (Ok (None, inr v), s))
  /\ (forall l, results s !! l = Some AReference ->
        unbundleNormalCompletion (inl l) s = (Ok (None, inl l), s))
  /\ (forall l C, results s !! l = Some (ACompletion C) ->
        unbundleNormalCompletion (inl l) s
        = if isPossiblyNormalCompletion (class C)
          then (Ok (Some l, inr (c_value C)), s)
          else (Throw InvariantViolation, s)).
Proof.
  split; [reflexivity|]. split.
  - intros l H. unfold unbundleNormalCompletion.
    rewrite (bind_Ok _ _ _ _ _ (read_result_Some _ _ _ H)). reflexivity.
  - intros l C H. unfold unbundleNormalCompletion.
    rewrite (bind_Ok _ _ _ _ _ (read_result_Some _ _ _ H)).
    unfold instanceof, class_of. destruct (isPossiblyNormalCompletion (class C)); reflexivity.
Qed.
(** *** joinBindings when no binding has leaked on one side only *)

Lemma joinBindings_join_no_leak realm (joinCondition : Value) b b1 b2
    (st : Heap * Captured) :
  truthy (entry_hasLeaked b b1) = truthy (entry_hasLeaked b b2) ->
  joinBindings_join realm joinCondition b b1 b2 st
  = (if history_agrees b1 b2 then Ok (Some (joined_entry joinCondition b b1 b2))
     else Throw InvariantViolation, st).
Proof.
  intros Hl. unfold joinBindings_join.
  fold (entry_hasLeaked b b1) (entry_hasLeaked b b2) (entry_value b b1) (entry_value b b2).
  set (l1 := entry_hasLeaked b b1) in *. set (l2 := entry_hasLeaked b b2) in *.
  set (v1 := entry_value b b1). set (v2 := entry_value b b2).
  rewrite bind_run.
  assert (H1 : negb (truthy l1) && truthy l2 = false)
    by (rewrite Hl; destruct (truthy l2); reflexivity).
  assert (H2 : truthy l1 && negb (truthy l2) = false)
    by (rewrite Hl; destruct (truthy l2); reflexivity).
  rewrite H1, H2, ret_run.
  unfold joined_entry, history_agrees. fold l1 l2 v1 v2.
  rewrite bind_run.
  destruct (truthy (js_or l1 l2)) eqn:HL.
  - rewrite ret_run. simpl.
    destruct b1 as [e1|], b2 as [e2|]; simpl; try reflexivity.
    destruct (bool_decide (previousHasLeaked e1 = previousHasLeaked e2)
              && bool_decide (previousValue e1 = previousValue e2)); reflexivity.
  - rewrite bind_run, joinValues_of_options. simpl.
    destruct b1 as [e1|], b2 as [e2|]; simpl; try reflexivity.
    destruct (bool_decide (previousHasLeaked e1 = previousHasLeaked e2)
              && bool_decide (previousValue e1 = previousValue e2)); reflexivity.
Qed.

Lemma join_calls_key_elem {K X} `{EqDecision K} (m1 m2 : list (K * option X))
    (c : K * option X * option X) :
  c ∈ join_calls m1 m2 -> c.1.1 ∈ keys m1 \/ c.1.1 ∈ keys m2.
Proof.
  intros Hc.
  assert (Hin : c.1.1 ∈ (join_calls m1 m2).*1.*1).
  { apply list_elem_of_fmap. exists c.1. split; [reflexivity|].
    apply list_elem_of_fmap. exists c. split; [reflexivity | exact Hc]. }
  rewrite join_calls_keys, elem_of_app, list_elem_of_filter in Hin. tauto.
Qed.

Lemma joinBindings_no_leak_run realm (joinCondition : Value)
    (ga : loc) (m1 : Bindings) (gb : loc) (m2 : Bindings) (h : Heap) :
  NoDup (keys m1) -> NoDup (keys m2) ->
  (forall b, b ∈ keys m1 \/ b ∈ keys m2 ->
     truthy (entry_hasLeaked b (map_get m1 b)) = truthy (entry_hasLeaked b (map_get m2 b))
     /\ history_agrees (map_get m1 b) (map_get m2 b) = true) ->
  joinBindings realm joinCondition ga m1 gb m2 h
  = (Ok (ga, gb, map (fun c => (c.1.1, Some (joined_entry joinCondition c.1.1 c.1.2 c.2)))
                   (join_calls m1 m2)), h).
Proof.
  intros N1 N2 Hall.
  set (f := fun (k : Binding) (a b : option BindingEntry) =>
              Some (joined_entry joinCondition k a b)).
  set (st0 := (h, Build_Captured ga false gb false)).
  destruct (foldM_calls_run (joinBindings_join realm joinCondition)
              (fun _ st => st = st0) (fun c r => r = f c.1.1 c.1.2 c.2)
              (join_calls m1 m2) [] [] st0) as (rs & st & Hrun & HF & ->).
  - simpl. apply join_calls_NoDup; assumption.
  - reflexivity.
  - intros d [[k a] b] st Hc ->. simpl.
    destruct (join_calls_args _ _ _ _ _ N1 N2 Hc) as [-> ->].
    destruct (Hall k (join_calls_key_elem _ _ _ Hc)) as [Hl Hh].
    rewrite (joinBindings_join_no_leak _ _ _ _ _ _ Hl), Hh.
    eexists _, _. repeat split.
  - simpl in Hrun. rewrite (zip_results (fun c => f c.1.1 c.1.2 c.2) _ _ HF) in Hrun.
    rewrite (joinBindings_run _ _ _ _ _ _ _ _ _ Hrun). reflexivity.
Qed.

(** X16: when every binding of the two maps has leaked in both branches
    or in neither, and the two branches agree on its history,
    [joinBindings] returns the two generators it was given and leaves the
    heap as it was; the joined map has the keys of the first map followed
    by those only the second has, and holds for each binding the joined
    entry of its two entries, a missing entry standing for the binding
    itself. *)
Theorem joinBindings_without_one_sided_leak realm (joinCondition : Value)
    (ga : loc) (m1 : Bindings) (gb : loc) (m2 : Bindings) (h : Heap) :
  NoDup (keys m1) -> NoDup (keys m2) ->
  (forall b, b ∈ keys m1 \/ b ∈ keys m2 ->
     truthy (entry_hasLeaked b (map_get m1 b)) = truthy (entry_hasLeaked b (map_get m2 b))
     /\ history_agrees (map_get m1 b) (map_get m2 b) = true) ->
  exists m3,
    joinBindings realm joinCondition ga m1 gb m2 h = (Ok (ga, gb, m3), h)
    /\ keys m3 = keys m1 ++ filter (fun k => k ∉ keys m1) (keys m2)
    /\ forall b, b ∈ keys m3 ->
         map_find m3 b
         = Some (Some (joined_entry joinCondition b (map_get m1 b) (map_get m2 b))).
Proof.
  intros N1 N2 Hall.
  set (f := fun (k : Binding) (a b : option BindingEntry) =>
              Some (joined_entry joinCondition k a b)).
  eexists. split; [apply joinBindings_no_leak_run; assumption|]. split.
  - rewrite (joined_keys f). apply join_calls_keys.
  - intros b Hb. rewrite (joined_keys f), join_calls_keys in Hb.
    apply (joined_find f m1 m2 b N1 N2).
    rewrite elem_of_app, list_elem_of_filter in Hb. tauto.
Qed.

(** *** joinNestedEffects *)

(** [collapseResults] on an abrupt and a simple normal completion. *)
Lemma collapseResults_mixed realm (joinCondition : Value)
    (precedingEffects result1 result2 : loc) (s : Heap) (c1 c2 : Completion) :
  results s !! result1 = Some (ACompletion c1) ->
  results s !! result2 = Some (ACompletion c2) ->
  (isAbruptCompletion (class c1) = true /\ class c2 = SimpleNormalCompletion)
  \/ (class c1 = SimpleNormalCompletion /\ isAbruptCompletion (class c2) = true) ->
  collapseResults realm joinCondition precedingEffects result1 result2 s
  = introspection_error joinCondition s.
Proof.
  intros H1 H2 Hk. unfold collapseResults, collapseResults_on.
  rewrite (bind_Ok _ _ _ _ _ (read_result_Some _ _ _ H1)).
  rewrite (bind_Ok _ _ _ _ _ (read_result_Some _ _ _ H2)).
  unfold instanceof, target_of, class_of.
  destruct Hk as [[Ha ->]|[-> Ha]]; destruct (class c1), (class c2);
    try discriminate Ha; reflexivity.
Qed.

Lemma joinNestedEffects_leaf fuel realm (c : loc) (pe : loc) (s : Heap) (C : Completion) :
  results s !! c = Some (ACompletion C) ->
  isPossiblyNormalCompletion (class C) = false ->
  (forall jc r1 r2, class C <> ForkedAbruptCompletion jc r1 r2) ->
  joinNestedEffects fuel realm c (Some pe) s = (Ok (Some pe), s).
Proof.
  intros HC Hp Hf.
  destruct fuel; simpl; rewrite (bind_Ok _ _ _ _ _ (read_result_Some _ _ _ HC));
    simpl; destruct (class C); try discriminate Hp; try reflexivity;
    exfalso; eapply Hf; reflexivity.
Qed.

Lemma effects_carried_for_run (child : loc) (s : Heap) (C : Completion) e :
  results s !! child = Some (ACompletion C) -> effects C = Some e ->
  effects_carried_for child s = (Ok e, s).
Proof.
  intros HC He. unfold effects_carried_for.
  rewrite (bind_Ok _ _ _ _ _ (read_result_Some _ _ _ HC)). simpl. rewrite He. reflexivity.
Qed.

(** X17: [joinNestedEffects] cannot flatten a fork that has an abrupt
    completion on one side and a simple normal completion on the other:
    after joining the effects of the two sides it hands their two results
    to [collapseResults], which matches no such pair, so the join
    condition is reported as an introspection error and [FatalError] is
    thrown, whenever the condition is abstract or is known to hold or not
    to hold. *)
Theorem joinNestedEffects_of_open_fork fuel realm (c : loc) (pe : option loc) (s : Heap)
    (P C1 C2 : Completion) (jc : Value) (r1 r2 e1 e2 : loc) spc se (E1 E2 : Effects) :
  results s !! c = Some (ACompletion P) ->
  class P = PossiblyNormalCompletion jc r1 r2 spc se ->
  results s !! r1 = Some (ACompletion C1) -> effects C1 = Some e1 ->
  effectses s !! e1 = Some E1 -> result E1 = r1 ->
  results s !! r2 = Some (ACompletion C2) -> effects C2 = Some e2 ->
  effectses s !! e2 = Some E2 -> result E2 = r2 ->
  (isAbruptCompletion (class C1) = true /\ class C2 = SimpleNormalCompletion
   /\ forall jc' a b, class C1 <> ForkedAbruptCompletion jc' a b)
  \/ (class C1 = SimpleNormalCompletion /\ isAbruptCompletion (class C2) = true
      /\ forall jc' a b, class C2 <> ForkedAbruptCompletion jc' a b) ->
  mightNotBeTrue jc = false \/ mightNotBeFalse jc = false \/ isAbstractValue jc = true ->
  exists s',
    joinNestedEffects (S fuel) realm c pe s = (Throw FatalError, s')
    /\ diagnostics s' = diagnostics s ++ [jc].
Proof.
  intros HPc KP H1 F1 HE1 R1 H2 F2 HE2 R2 Hk Hjc.
  assert (L1 : joinNestedEffects fuel realm r1 (Some e1) s = (Ok (Some e1), s)).
  { apply (joinNestedEffects_leaf fuel realm r1 e1 s C1 H1).
    - destruct Hk as [(Ha & _ & _)|(-> & _ & _)]; [|reflexivity].
      destruct (class C1); try discriminate Ha; reflexivity.
    - destruct Hk as [(_ & _ & Hf)|(-> & _ & _)]; [exact Hf | discriminate]. }
  assert (L2 : joinNestedEffects fuel realm r2 (Some e2) s = (Ok (Some e2), s)).
  { apply (joinNestedEffects_leaf fuel realm r2 e2 s C2 H2).
    - destruct Hk as [(_ & -> & _)|(_ & Ha & _)]; [reflexivity|].
      destruct (class C2); try discriminate Ha; reflexivity.
    - destruct Hk as [(_ & -> & _)|(_ & _ & Hf)]; [discriminate | exact Hf]. }
  assert (Hmix : (isAbruptCompletion (class C1) = true /\ class C2 = SimpleNormalCompletion)
                 \/ (class C1 = SimpleNormalCompletion
                     /\ isAbruptCompletion (class C2) = true)).
  { destruct Hk as [(Ha & Hn & _)|(Hn & Ha & _)]; [left | right]; split; assumption. }
  cbn [joinNestedEffects].
  rewrite (bind_Ok _ _ _ _ _ (read_result_Some _ _ _ HPc)). simpl. rewrite KP.
  rewrite (bind_Ok _ _ _ _ _ (effects_carried_for_run _ _ _ _ H1 F1)).
  rewrite (bind_Ok _ _ _ _ _ L1).
  rewrite (bind_Ok _ _ _ _ _ (effects_carried_for_run _ _ _ _ H2 F2)).
  rewrite (bind_Ok _ _ _ _ _ L2).
  assert (Hstatic : forall e3, joinForkOrChoose realm jc e1 e2 s = (Ok e3, s) ->
            exists s', (e3 ← joinForkOrChoose realm jc e1 e2;
                        E1 ← read_effects e1;
                        E2 ← read_effects e2;
                        r ← collapseResults realm jc e3 (result E1) (result E2);
                        robj ← read_result r;
                        match effects_of robj with
                        | Some re => mret (Some re)
                        | None => throw InvariantViolation
                        end) s = (Throw FatalError, s')
                       /\ diagnostics s' = diagnostics s ++ [jc]).
  { intros e3 Hj. rewrite (bind_Ok _ _ _ _ _ Hj).
    rewrite (bind_Ok _ _ _ _ _ (read_effects_Some _ _ _ HE1)).
    rewrite (bind_Ok _ _ _ _ _ (read_effects_Some _ _ _ HE2)).
    rewrite R1, R2.
    rewrite (bind_Throw _ _ _ _ _ (collapseResults_mixed realm jc e3 r1 r2 s C1 C2 H1 H2 Hmix)).
    eexists. split; reflexivity. }
  destruct (mightNotBeTrue jc) eqn:Ht.
  2: { apply (Hstatic e1). unfold joinForkOrChoose. rewrite Ht. reflexivity. }
  destruct (mightNotBeFalse jc) eqn:Hf.
  2: { apply (Hstatic e2). unfold joinForkOrChoose. rewrite Ht, Hf. reflexivity. }
  destruct Hjc as [Hjc|[Hjc|Ha]]; try discriminate Hjc.
  set (first_is_abrupt := isAbruptCompletion (class C1)).
  set (v := if first_is_abrupt then c_value C2 else c_value C1).
  assert (HE1' : effectses s !! e1 = Some E1) by exact HE1.
  assert (Hrun := joinForkOrChoose_one_abrupt_run realm jc e1 e2 s E1 E2 C1 C2
                    first_is_abrupt v [] None Ht Hf Ha HE1).
  rewrite R1, R2 in Hrun. specialize (Hrun H1 F1 HE2 H2 F2).
  assert (Hside : forall h0 : Heap, results s `prefix_of` results h0 ->
            if first_is_abrupt
            then isAbruptCompletion (class C1) = true
                 /\ normal_completion_of h0 r2 C2 v [] None
            else isAbruptCompletion (class C2) = true
                 /\ normal_completion_of h0 r1 C1 v [] None).
  { intros h0 _. subst first_is_abrupt v.
    destruct Hk as [(Hab & Hn & _)|(Hn & Hab & _)].
    - rewrite Hab. split; [reflexivity|]. left. repeat split. exact Hn.
    - rewrite Hn. simpl. split; [exact Hab|]. left. repeat split. exact Hn. }
  rewrite (bind_Ok _ _ _ _ _ (Hrun Hside)).
  set (s1 := one_abrupt_heap _ _ _ _ _ _ _ _ _ _).
  assert (Hne : e1 <> e2).
  { intros <-. rewrite HE1 in HE2. injection HE2 as <-. rewrite R1 in R2. subst r2.
    rewrite H1 in H2. injection H2 as <-.
    destruct Hmix as [[Hx Hy]|[Hy Hx]]; rewrite Hy in Hx; discriminate Hx. }
  pose proof (lookup_lt_Some _ _ _ HE1) as Lt1.
  pose proof (lookup_lt_Some _ _ _ HE2) as Lt2.
  assert (G1 : exists E1', effectses s1 !! e1 = Some E1' /\ result E1' = r1).
  { subst s1. unfold one_abrupt_heap. simpl.
    destruct first_is_abrupt.
    - exists E1. split; [|exact R1].
      rewrite lookup_app_l by (rewrite length_insert, length_app; simpl; lia).
      rewrite list_lookup_insert_ne by congruence.
      apply lookup_app_l_Some. exact HE1.
    - exists (set_generator (length (generators s)) E1). split; [|exact R1].
      rewrite lookup_app_l by (rewrite length_insert, length_app; simpl; lia).
      apply list_lookup_insert_eq. rewrite length_app. simpl. lia. }
  assert (G2 : exists E2', effectses s1 !! e2 = Some E2' /\ result E2' = r2).
  { subst s1. unfold one_abrupt_heap. simpl.
    destruct first_is_abrupt.
    - exists (set_generator (length (generators s)) E2). split; [|exact R2].
      rewrite lookup_app_l by (rewrite length_insert, length_app; simpl; lia).
      apply list_lookup_insert_eq. rewrite length_app. simpl. lia.
    - exists E2. split; [|exact R2].
      rewrite lookup_app_l by (rewrite length_insert, length_app; simpl; lia).
      rewrite list_lookup_insert_ne by congruence.
      apply lookup_app_l_Some. exact HE2. }
  destruct G1 as (E1' & G1 & R1'). destruct G2 as (E2' & G2 & R2').
  rewrite (bind_Ok _ _ _ _ _ (read_effects_Some _ _ _ G1)).
  rewrite (bind_Ok _ _ _ _ _ (read_effects_Some _ _ _ G2)).
  rewrite R1', R2'.
  assert (H1' : results s1 !! r1 = Some (ACompletion C1))
    by (subst s1; simpl; apply lookup_app_l_Some; exact H1).
  assert (H2' : results s1 !! r2 = Some (ACompletion C2))
    by (subst s1; simpl; apply lookup_app_l_Some; exact H2).
  rewrite (bind_Throw _ _ _ _ _
             (collapseResults_mixed realm jc _ r1 r2 s1 C1 C2 H1' H2' Hmix)).
  eexists. split; reflexivity.
Qed.
(** *** joinForkOrChoose when both sides are abrupt, or both normal *)

Lemma elem_of_foldl_set_add {T} `{EqDecision T} (l acc : list T) (x : T) :
  x ∈ foldl set_add acc l <-> x ∈ acc \/ x ∈ l.
Proof.
  revert acc. induction l as [|y l IH]; intros acc; simpl.
  - split; [left; assumption | intros [H|H]; [exact H | apply elem_of_nil in H as []]].
  - rewrite IH. unfold set_add, set_has. rewrite elem_of_cons.
    destruct (decide (y ∈ acc)) as [Hy|Hy].
    + rewrite (bool_decide_eq_true_2 _ Hy). split; [tauto|].
      intros [H|[->|H]]; tauto.
    + rewrite (bool_decide_eq_false_2 _ Hy). rewrite elem_of_app, list_elem_of_singleton.
      tauto.
Qed.

(** X18: [joinForkOrChoose] under a condition that may hold or not, on two
    records whose results are both abrupt or both simple normal
    completions, whose bindings have leaked on both sides or on neither,
    and whose properties join to [mp].  It returns a new record and
    leaves the two given records as they were, generators included.  The
    new record's result is a [ForkedAbruptCompletion] over the two
    results, or a simple normal completion of their joined value; its
    bindings have the keys of both sides, its created objects are those
    of either side, and its generator is a new one that holds the
    conditional block of the two generators unless both are empty. *)
Theorem joinForkOrChoose_joins_both_sides realm (jc : Value) e1 e2 (s : Heap)
    (E1 E2 : Effects) (C1 C2 : Completion) (G1 G2 : Generator) mp :
  mightNotBeTrue jc = true -> mightNotBeFalse jc = true -> isAbstractValue jc = true ->
  effectses s !! e1 = Some E1 -> results s !! result E1 = Some (ACompletion C1) ->
  effects C1 = Some e1 ->
  effectses s !! e2 = Some E2 -> results s !! result E2 = Some (ACompletion C2) ->
  effects C2 = Some e2 ->
  generators s !! generator E1 = Some G1 -> generators s !! generator E2 = Some G2 ->
  (isAbruptCompletion (class C1) = true /\ isAbruptCompletion (class C2) = true)
  \/ (class C1 = SimpleNormalCompletion /\ class C2 = SimpleNormalCompletion) ->
  NoDup (keys (modifiedBindings E1)) -> NoDup (keys (modifiedBindings E2)) ->
  (forall b, b ∈ keys (modifiedBindings E1) \/ b ∈ keys (modifiedBindings E2) ->
     truthy (entry_hasLeaked b (map_get (modifiedBindings E1) b))
     = truthy (entry_hasLeaked b (map_get (modifiedBindings E2) b))
     /\ history_agrees (map_get (modifiedBindings E1) b) (map_get (modifiedBindings E2) b)
        = true) ->
  (forall s0 : Heap,
     joinPropertyBindings realm jc (modifiedProperties E1) (modifiedProperties E2)
       (createdObjects E1) (createdObjects E2) s0 = (Ok mp, s0)) ->
  exists e s' E R G,
    joinForkOrChoose realm jc e1 e2 s = (Ok e, s')
    /\ effectses s' !! e = Some E /\ length (effectses s) <= e
    /\ effectses s' !! e1 = Some E1 /\ effectses s' !! e2 = Some E2
    /\ results s' !! result E = Some (ACompletion R) /\ effects R = Some e
    /\ length (results s) <= result E
    /\ (isAbruptCompletion (class C1) = true ->
        class R = ForkedAbruptCompletion jc (result E1) (result E2))
    /\ (class C1 = SimpleNormalCompletion ->
        class R = SimpleNormalCompletion
        /\ c_value R = joined_value (getAbstractValue_conditional jc) (c_value C1) (c_value C2))
    /\ modifiedProperties E = mp
    /\ keys (modifiedBindings E)
       = keys (modifiedBindings E1)
         ++ filter (fun k => k ∉ keys (modifiedBindings E1)) (keys (modifiedBindings E2))
    /\ (forall o, o ∈ createdObjects E <-> o ∈ createdObjects E1 \/ o ∈ createdObjects E2)
    /\ generators s' !! generator E = Some G /\ length (generators s) <= generator E
    /\ g_entries G
       = (if bool_decide (g_entries G1 = []) && bool_decide (g_entries G2 = [])
          then [] else [JoinedGenerators jc (generator E1) (generator E2)])
    /\ (forall j, j < length (generators s) -> generators s' !! j = generators s !! j)
    /\ (forall j, j < length (results s) -> results s' !! j = results s !! j)
    /\ diagnostics s' = diagnostics s.
Proof.
  intros Ht Hf Ha HE1 H1 F1 HE2 H2 F2 HG1 HG2 Hk N1 N2 Hall Hprops.
  set (R := if isAbruptCompletion (class C1)
            then {| class := ForkedAbruptCompletion jc (result E1) (result E2);
                    c_value := intrinsics_empty realm; effects := None; location := None |}
            else {| class := SimpleNormalCompletion;
                    c_value := joined_value (getAbstractValue_conditional jc)
                                 (c_value C1) (c_value C2);
                    effects := None; location := None |}).
  unfold joinForkOrChoose. rewrite Ht, Hf, Ha. simpl.
  rewrite bind_run, ret_run.
  rewrite (bind_Ok _ _ _ _ _ (read_effects_Some _ _ _ HE1)).
  rewrite (bind_Ok _ _ _ _ _ (read_result_Some _ _ _ H1)). simpl. rewrite F1.
  rewrite bool_decide_eq_true_2 by reflexivity. rewrite bind_run, invariant_true.
  rewrite (bind_Ok _ _ _ _ _ (read_effects_Some _ _ _ HE2)).
  rewrite (bind_Ok _ _ _ _ _ (read_result_Some _ _ _ H2)). simpl. rewrite F2.
  rewrite bool_decide_eq_true_2 by reflexivity. rewrite bind_run, invariant_true.
  rewrite (bind_Ok _ _ _ _ _ (construct_empty_effects_run realm s)).
  match goal with |- context [(_ ≫= _) ?h = _] => set (s1 := h) end.
  assert (H1' : results s1 !! result E1 = Some (ACompletion C1))
    by (subst s1; simpl; apply lookup_app_l_Some; exact H1).
  assert (H2' : results s1 !! result E2 = Some (ACompletion C2))
    by (subst s1; simpl; apply lookup_app_l_Some; exact H2).
  assert (HE1' : effectses s1 !! e1 = Some E1)
    by (subst s1; simpl; apply lookup_app_l_Some; exact HE1).
  assert (HE2' : effectses s1 !! e2 = Some E2)
    by (subst s1; simpl; apply lookup_app_l_Some; exact HE2).
  assert (J : joinOrForkResults realm jc (result E1) (result E2) e1 e2 s1
              = (Ok (length (results s1)),
                 with_results (fun a => a ++ [ACompletion R]) s1)).
  { rewrite (joinOrForkResults_attached _ _ _ _ _ _ _ _ _ _ _
               H1' F1 HE1' eq_refl H2' F2 HE2' eq_refl).
    subst R. destruct Hk as [[A1 A2]|[K1 K2]].
    - destruct (abrupt_not_normal _ A1) as [_ S1]. rewrite S1, A1, A2. reflexivity.
    - rewrite K1, K2. simpl.
      rewrite (bind_Ok _ _ _ _ _ (joinValues_of_values _ _ _ _ _)). reflexivity. }
  rewrite (bind_Ok _ _ _ _ _ J). clear J.
  set (s2 := with_results _ s1).
  assert (Hjoin_all : forall (A : Type) (k1 k2 k3 : M Heap A) (k : M Heap A),
            (if instanceof isAbruptCompletion (ACompletion C1)
             then if negb (instanceof isAbruptCompletion (ACompletion C2)) then k1 else k
             else if instanceof isAbruptCompletion (ACompletion C2) then k2 else k) = k).
  { intros A k1 k2 k3 k. unfold instanceof, class_of.
    destruct Hk as [[A1 A2]|[K1 K2]]; [rewrite A1, A2 | rewrite K1, K2]; reflexivity. }
  rewrite (Hjoin_all _ _ _ (mret 0)). clear Hjoin_all.
  rewrite (bind_Ok _ _ _ _ _
             (joinBindings_no_leak_run realm jc _ _ _ _ s2 N1 N2 Hall)).
  cbv beta iota.
  rewrite (bind_Ok _ _ _ _ _ (Hprops s2)).
  assert (HG1' : generators s2 !! generator E1 = Some G1)
    by (subst s2 s1; simpl; apply lookup_app_l_Some; exact HG1).
  assert (HG2' : generators s2 !! generator E2 = Some G2)
    by (subst s2 s1; simpl; apply lookup_app_l_Some; exact HG2).
  rewrite (bind_Ok _ _ _ _ _ (joinGenerators_run realm jc _ _ s2 G1 G2 HG1' HG2')).
  set (s3 := with_generators _ s2).
  unfold new_Effects, alloc_effects. rewrite bind_run. cbv beta iota.
  set (s4 := with_effectses _ s3).
  assert (HR : results s4 !! length (results s1) = Some (ACompletion R))
    by (subst s4 s3 s2; simpl; apply lookup_last).
  rewrite bind_run, (update_result_run _ _ _ _ HR). rewrite ret_run.
  pose proof (lookup_lt_Some _ _ _ HE1) as Lt1.
  pose proof (lookup_lt_Some _ _ _ HE2) as Lt2.
  subst s4 s3 s2 s1. destruct s as [gens effs ress diag]. simpl in *.
  eexists _, _, _, _, _. split; [reflexivity|]. simpl.
  split; [apply lookup_last|].
  cbn [result generator modifiedBindings modifiedProperties createdObjects].
  split; [rewrite length_app; lia|].
  split; [apply lookup_app_l_Some, lookup_app_l_Some; exact HE1|].
  split; [apply lookup_app_l_Some, lookup_app_l_Some; exact HE2|].
  split; [rewrite insert_last; apply lookup_last|].
  cbn [class c_value effects location].
  split; [reflexivity|].
  split; [rewrite length_app; lia|].
  split. { intros A1. subst R. simpl. rewrite A1. reflexivity. }
  split. { intros K1. subst R. simpl. rewrite K1. split; reflexivity. }
  split; [reflexivity|].
  split.
  { rewrite (joined_keys (fun k a b => Some (joined_entry jc k a b))).
    apply join_calls_keys. }
  split.
  { intros o. rewrite !elem_of_foldl_set_add. rewrite elem_of_nil. tauto. }
  split; [apply lookup_last|].
  split; [rewrite length_app; lia|].
  split; [reflexivity|].
  split.
  { intros j Hj. rewrite lookup_app_l by (rewrite length_app; lia).
    apply lookup_app_l. exact Hj. }
  split; [|reflexivity].
  intros j Hj. rewrite list_lookup_insert_ne by (rewrite length_app; simpl; lia).
  rewrite lookup_app_l by (rewrite length_app; lia). apply lookup_app_l. exact Hj.
Qed.
End MoreEngineFacts.

(** ** The further properties on the sample inputs *)
Section MoreWitnesses.
#[local] Existing Instance Sample.value_model.
#[local] Existing Instance Sample.helpers.
Import Sample.

(** X1 on two generators that both hold an operation. *)
Lemma joinGenerators_records_one_block_witness :
exists s' G,
  joinGenerators realm condition 0 1 two_generators = (Ok 2, s')
  /\ generators s' = generators two_generators ++ [G]
  /\ g_entries G = [JoinedGenerators condition 0 1].
Proof.
destruct (joinGenerators_records_one_block realm condition 0 1 two_generators _ _
            eq_refl eq_refl) as (s' & G & Hrun & Hg & _ & _ & _ & He & _).
exists s', G. split; [exact Hrun|]. split; [exact Hg|].
apply He. left. discriminate.
Defined.

(** X2 on the same two generators. *)
Lemma composeGenerators_appends_witness :
exists s' G,
  composeGenerators realm 0 1 two_generators = (Ok 2, s')
  /\ generators s' = generators two_generators ++ [G]
  /\ g_entries G = [ResidualOperation 1; ResidualOperation 2].
Proof.
destruct (composeGenerators_appends realm 0 1 two_generators _ _ eq_refl eq_refl)
  as (s' & G & Hrun & Hg & _ & _ & He & _).
exists s', G. split; [exact Hrun|]. split; [exact Hg | exact He].
Defined.

(** X3 on three generators. *)
Lemma composeGenerators_assoc_witness :
exists l r sl sr L R,
  (g12 ← composeGenerators realm 0 1; composeGenerators realm g12 2) three_generators
  = (Ok l, sl)
  /\ (g23 ← composeGenerators realm 1 2; composeGenerators realm 0 g23) three_generators
     = (Ok r, sr)
  /\ generators sl !! l = Some L /\ generators sr !! r = Some R
  /\ g_entries L = g_entries R
  /\ g_entries L = [ResidualOperation 1; ResidualOperation 2; ResidualOperation 3].
Proof.
destruct (composeGenerators_assoc realm 0 1 2 three_generators _ _ _
            eq_refl eq_refl eq_refl)
  as (l & r & sl & sr & L & R & Hl & Hr & HL & HR & _ & He & Hes).
exists l, r, sl, sr, L, R. repeat split; assumption.
Defined.

(** X4 on an array of two values against an array of one. *)
Lemma joinArraysOfValues_elementwise_witness :
exists r,
  joinArraysOfValues (pure2 (createFromConditionalOp condition)) (Some [one; two])
    (Some [seven]) tt = (Ok r, tt)
  /\ length r = 2
  /\ r !! 1 = Some (Conditional condition (Some two) None).
Proof.
destruct (joinArraysOfValues_elementwise (S := unit) (createFromConditionalOp condition)
            (Some [one; two]) (Some [seven]) tt) as (r & Hrun & Hlen & Hi).
exists r. split; [exact Hrun|]. split; [exact Hlen|].
apply Hi. rewrite Hlen. simpl. lia.
Defined.

(** X5 on one entry against none. *)
Lemma joinArrayOfsMapEntries_elementwise_witness :
exists r,
  joinArrayOfsMapEntries realm (pure2 (createFromConditionalOp condition))
    (Some [{| Key := Some one; Val := Some two |}]) None tt = (Ok r, tt)
  /\ r !! 0 = Some {| Key := Some (Conditional condition (Some one) (Some Empty));
                      Val := Some (Conditional condition (Some two) (Some Empty)) |}.
Proof.
destruct (joinArrayOfsMapEntries_elementwise (S := unit) realm (createFromConditionalOp condition)
            (Some [{| Key := Some one; Val := Some two |}]) None tt)
  as (r & Hrun & Hlen & Hi).
exists r. split; [exact Hrun|].
apply (Hi 0); [rewrite Hlen; simpl; lia | left; discriminate].
Defined.

(** X6 on the number 7 against an undefined value. *)
Lemma joinValues_delegates_witness :
joinValues realm recording (Some (AValue seven)) None []
= (Ok (AValue (Conditional condition (Some seven) None)), [(Some seven, None)]).
Proof.
apply (joinValues_delegates realm recording (Some seven) None []). right. left. reflexivity.
Defined.

(** X7 on the property written with 5 in one branch only. *)
Lemma joinDescriptors_one_sided_witness :
joinDescriptors realm condition (Some (data_property five)) None tt
= (Ok (Some (data_property (Conditional condition (Some five) (Some Empty)))), tt).
Proof.
apply (proj1 (joinDescriptors_one_sided (S := unit) realm condition (data_property five)
                (Some five) tt)); reflexivity.
Defined.

(** X8 on a property whose value is an array of two numbers, and on one
  whose value is the empty array. *)
Lemma joinDescriptors_one_sided_array_witness :
joinDescriptors realm condition (Some (array_property [])) None tt
= (Throw InvariantViolation, tt)
/\ joinDescriptors realm condition None (Some (array_property [one; two])) tt
   = (Ok (Some (array_property [Conditional condition (Some Empty) (Some one);
                                Conditional condition (Some Empty) (Some two)])), tt).
Proof.
assert (D0 : IsDataDescriptor (array_property []) = true) by reflexivity.
assert (D2 : IsDataDescriptor (array_property [one; two]) = true) by reflexivity.
split.
- apply (proj1 (joinDescriptors_one_sided_array (S := unit) realm condition
                  (array_property []) [] tt D0 eq_refl)). reflexivity.
- apply (proj2 (joinDescriptors_one_sided_array (S := unit) realm condition
                  (array_property [one; two]) [one; two] tt D2 eq_refl)).
  discriminate.
Defined.

(** X9 on the property [q] of the object that the second branch creates. *)
Lemma joinPropertyBindings_fresh_object_witness :
exists m3,
  joinPropertyBindings realm condition [] creates_q [] [Object 2] tt = (Ok m3, tt)
  /\ map_get m3 q = Some (data_property five).
Proof.
eexists. split; [reflexivity|].
apply (joinPropertyBindings_fresh_object (S := unit) realm condition [] creates_q
         [] [Object 2] q tt tt).
- apply NoDup_nil_2.
- apply NoDup_singleton.
- right. left.
- reflexivity.
- reflexivity.
- reflexivity.
Defined.

(** X10 on the property [p], which held 3 before the fork and which the
  second branch alone writes with 5. *)
Lemma joinPropertyBindings_unwritten_side_witness :
let joined := data_property (Conditional condition (Some three) (Some five)) in
joinPropertyBindings realm condition [] writes_5 [] [] tt = (Ok [(p, Some joined)], tt)
/\ map_get [(p, Some joined)] p = Some joined.
Proof.
intros joined.
assert (Hrun : joinPropertyBindings realm condition [] writes_5 [] [] tt
               = (Ok [(p, Some joined)], tt)) by reflexivity.
split; [exact Hrun|].
assert (N1 : NoDup (keys ([] : PropertyBindings))) by apply NoDup_nil_2.
assert (N2 : NoDup (keys writes_5)) by apply NoDup_singleton.
assert (H1 : p ∉ keys ([] : PropertyBindings)) by apply not_elem_of_nil.
assert (Hc : set_has ([] : CreatedObjects) (object p) = false) by reflexivity.
destruct (joinPropertyBindings_unwritten_side (S := unit) realm condition [] writes_5
            [] [] p (data_property five) five tt tt [(p, Some joined)]
            N1 N2 H1 eq_refl Hc eq_refl Hrun) as [Hpre _].
exact (Hpre (data_property three) three eq_refl eq_refl).
Defined.

(** X11 on a throw against a return. *)
Lemma joinOrForkResults_forks_abrupt_pairs_witness :
joinOrForkResults realm condition 0 1 0 1 (two_ends throwing_side returning_side)
= (Ok 2,
   with_results
     (fun a => a ++ [completion (ForkedAbruptCompletion condition 0 1) Empty None None])
     (two_ends throwing_side returning_side)).
Proof.
apply (joinOrForkResults_forks_abrupt_pairs realm condition 0 1 0 1
         (two_ends throwing_side returning_side) throwing_side returning_side
         (effects_of_branch 0 0) (effects_of_branch 1 1)); reflexivity.
Defined.

(** X12 on two branches that end normally with the value 7, which is the
  value of the joined completion, and on two that end with "boom" and
  with 7, whose joined completion holds the conditional value. *)
Lemma joinOrForkResults_joins_normal_pairs_witness :
let first := Build_Completion SimpleNormalCompletion boom (Some 0) None in
joinOrForkResults realm condition 0 1 0 1 (two_ends normal_first normal_second)
= (Ok 2,
   with_results (fun l => l ++ [completion SimpleNormalCompletion seven None None])
     (two_ends normal_first normal_second))
/\ joinOrForkResults realm condition 0 1 0 1 (two_ends first normal_second)
   = (Ok 2,
      with_results
        (fun l => l ++ [completion SimpleNormalCompletion
                          (Conditional condition (Some boom) (Some seven)) None None])
        (two_ends first normal_second)).
Proof.
intros first. split.
- apply (joinOrForkResults_joins_normal_pairs realm condition 0 1 0 1
           (two_ends normal_first normal_second) normal_first normal_second
           (effects_of_branch 0 0) (effects_of_branch 1 1)); reflexivity.
- apply (joinOrForkResults_joins_normal_pairs realm condition 0 1 0 1
           (two_ends first normal_second) first normal_second
           (effects_of_branch 0 0) (effects_of_branch 1 1)); reflexivity.
Defined.

(** X13 on a normal completion of value "boom" and one of value 7: the
  second holds the conditional value afterwards. *)
Lemma joinNormalCompletions_overwrites_alternate_witness :
let first := Build_Completion SimpleNormalCompletion boom (Some 0) None in
exists h',
  joinNormalCompletions realm condition 0 0 1 1 (two_ends first normal_second) = (Ok 2, h')
  /\ value_of <$> results h' !! 1
     = Some (Some (Conditional condition (Some boom) (Some seven))).
Proof.
intros first.
destruct (joinNormalCompletions_overwrites_alternate realm condition 0 0 1 1
            (two_ends first normal_second) first normal_second eq_refl eq_refl)
  as (h' & Hrun & Ha & _).
exists h'. split; [exact Hrun|]. rewrite Ha. reflexivity.
Defined.

(** X14 on two normal completions of the same value 7. *)
Lemma collapseResults_normal_pair_witness :
exists v,
  collapseResults realm condition 0 0 1 (two_ends normal_first normal_second)
  = (Ok 2,
     with_results (fun a => a ++ [completion SimpleNormalCompletion v (Some 0) None])
       (two_ends normal_first normal_second))
  /\ v = Conditional condition (Some seven) (Some seven).
Proof.
destruct (collapseResults_normal_pair (@joinValues _ Heap) realm condition 0 0 1
            (two_ends normal_first normal_second) normal_first normal_second
            eq_refl eq_refl eq_refl eq_refl) as (v & Hrun & _ & _ & Hv).
exists v. split; [exact Hrun|]. apply Hv; reflexivity.
Defined.

(** X15 on the fork of [open_fork] and on the normal completion under it. *)
Lemma unbundleNormalCompletion_cases_witness :
unbundleNormalCompletion (inl 2) open_fork = (Ok (Some 2, inr seven), open_fork)
/\ unbundleNormalCompletion (inl 1) open_fork = (Throw InvariantViolation, open_fork).
Proof.
split.
- apply (proj2 (proj2 (unbundleNormalCompletion_cases open_fork)) 2 _ eq_refl).
- apply (proj2 (proj2 (unbundleNormalCompletion_cases open_fork)) 1 _ eq_refl).
Defined.

(** X16 on a binding that both branches hold, with 2 and with 1. *)
Lemma joinBindings_without_one_sided_leak_witness :
exists m3,
  joinBindings realm condition 0 held_with_2 1 held_with_1 two_generators
  = (Ok (0, 1, m3), two_generators)
  /\ keys m3 = [binding_x].
Proof.
destruct (joinBindings_without_one_sided_leak realm condition 0 held_with_2 1 held_with_1
            two_generators (NoDup_singleton _) (NoDup_singleton _))
  as (m3 & Hrun & Hk & _).
- intros b [Hb|Hb]; apply list_elem_of_singleton in Hb; subst b; split; reflexivity.
- exists m3. split; [exact Hrun | exact Hk].
Defined.

(** X17 on the fork of a throw and a normal completion. *)
Lemma joinNestedEffects_of_open_fork_witness :
exists s',
  joinNestedEffects 1 realm 2 None open_fork = (Throw FatalError, s')
  /\ diagnostics s' = [condition].
Proof.
apply (joinNestedEffects_of_open_fork 0 realm 2 None open_fork
         (Build_Completion (PossiblyNormalCompletion condition 0 1 [] None) seven None None)
         throwing_side normal_side condition 0 1 0 1 [] None
         (effects_of_branch 0 0) (effects_of_branch 1 1)
         eq_refl eq_refl eq_refl eq_refl eq_refl eq_refl eq_refl eq_refl eq_refl eq_refl).
- left. split; [reflexivity|]. split; [reflexivity | discriminate].
- right. right. reflexivity.
Defined.

(** X18 on a throw against a return. *)
Lemma joinForkOrChoose_joins_both_sides_witness :
exists e s' E G,
  joinForkOrChoose realm condition 0 1 (two_ends throwing_side returning_side) = (Ok e, s')
  /\ effectses s' !! e = Some E
  /\ effectses s' !! 0 = Some (effects_of_branch 0 0)
  /\ effectses s' !! 1 = Some (effects_of_branch 1 1)
  /\ generators s' !! generator E = Some G
  /\ g_entries G = [JoinedGenerators condition 0 1].
Proof.
destruct (joinForkOrChoose_joins_both_sides realm condition 0 1
            (two_ends throwing_side returning_side)
            (effects_of_branch 0 0) (effects_of_branch 1 1) throwing_side returning_side
            (generator_of [ResidualOperation 1]) (generator_of []) []
            eq_refl eq_refl eq_refl eq_refl eq_refl eq_refl eq_refl eq_refl eq_refl
            eq_refl eq_refl)
  as (e & s' & E & R & G & Hrun & HE & _ & H0 & H1 & _ & _ & _ & _ & _ & _ & _ & _ & HG
      & _ & He & _).
- left. split; reflexivity.
- apply NoDup_nil_2.
- apply NoDup_nil_2.
- intros b [Hb|Hb]; apply elem_of_nil in Hb as [].
- intros s0. reflexivity.
- exists e, s', E, G. repeat split; assumption.
Defined.
End MoreWitnesses.

(** ** The names of utils.js *)

Section UtilsFacts.
Import Utils.

Lemma switch_elem {A} (s : string) (cases : list (string * A)) (d : A) :
  switch s cases d = d \/ (s, switch s cases d) ∈ cases.
Proof.
  induction cases as [|[c a] cases IH]; simpl; [left; reflexivity|].
  destruct (decide (s = c)) as [->|Hne].
  - right. left.
  - destruct IH as [IH|IH]; [left; exact IH | right; right; exact IH].
Qed.

Lemma switch_default {A} (s : string) (cases : list (string * A)) (d : A) :
  s ∉ cases.*1 -> switch s cases d = d.
Proof.
  induction cases as [|[c a] cases IH]; simpl; intros Hn; [reflexivity|].
  apply not_elem_of_cons in Hn as [Hne Hn].
  rewrite decide_False by exact Hne. apply IH. exact Hn.
Qed.

(** Two keys that a [switch] with distinct values sends to the same
    value, which is not the default, are the same key. *)
Lemma switch_inj {A} (a b : string) (cases : list (string * A)) (d : A) :
  NoDup cases.*2 -> d ∉ cases.*2 ->
  switch a cases d = switch b cases d -> switch a cases d <> d -> a = b.
Proof.
  intros Hnd Hd Heq Hne.
  destruct (switch_elem a cases d) as [Ha|Ha]; [contradiction|].
  destruct (switch_elem b cases d) as [Hb|Hb]; [congruence|].
  rewrite <- Heq in Hb. revert Ha Hb. generalize (switch a cases d). intros x Ha Hb.
  clear Heq Hne Hd. induction cases as [|[c y] cases IH]; [apply elem_of_nil in Ha as []|].
  simpl in Hnd. apply NoDup_cons in Hnd as [Hy Hnd].
  apply elem_of_cons in Ha as [Ha|Ha]; apply elem_of_cons in Hb as [Hb|Hb].
  - congruence.
  - exfalso. apply Hy. injection Ha as _ <-.
    apply (list_elem_of_fmap_2 snd) in Hb. exact Hb.
  - exfalso. apply Hy. injection Hb as _ <-.
    apply (list_elem_of_fmap_2 snd) in Ha. exact Ha.
  - apply IH; assumption.
Qed.

(** X19: [getOpString] answers "__not_supported__" exactly on the strings
    that are none of its eleven operators, and gives two different
    operators different names. *)
Theorem getOpString_names :
  (forall op, getOpString op = "__not_supported__" <-> op ∉ supported_operators)
  /\ (forall a b, a ∈ supported_operators -> getOpString a = getOpString b -> a = b).
Proof.
  assert (Hsup : forall op, op ∈ supported_operators ->
            getOpString op <> "__not_supported__").
  { intros op Hin. unfold supported_operators in Hin.
    repeat (apply elem_of_cons in Hin as [->|Hin]); try (vm_compute; discriminate).
    apply elem_of_nil in Hin as []. }
  split.
  - intros op. split.
    + intros Hn Hin. exact (Hsup op Hin Hn).
    + intros Hn. unfold getOpString. apply switch_default. exact Hn.
  - intros a b Hin Heq. unfold getOpString in Heq.
    apply (switch_inj a b _ _) in Heq; [exact Heq | | | exact (Hsup a Hin)].
    + apply (bool_decide_unpack _). vm_compute. exact I.
    + apply (bool_decide_unpack _). vm_compute. exact I.
Qed.

(** X20: the type names that [getTypeFromName] knows are "empty" and the
    ten of [ECMAScriptType], and two different names never give the same
    class. *)
Theorem getTypeFromName_names :
  (forall typeName, getTypeFromName typeName <> None
     <-> typeName = "empty" \/ exists t, typeName = Shape.type_name t)
  /\ (forall a b c, getTypeFromName a = Some c -> getTypeFromName b = Some c -> a = b).
Proof.
  split.
  - intros typeName. split.
    + intros Hn. unfold getTypeFromName in Hn.
      match type of Hn with switch _ ?cases _ <> _ =>
        destruct (switch_elem typeName cases None) as [H|H] end; [contradiction|].
      revert H. generalize (switch typeName
        [("empty", Some EmptyValue); ("void", Some UndefinedValue); ("null", Some NullValue);
         ("boolean", Some BooleanValue); ("string", Some StringValue);
         ("symbol", Some SymbolValue); ("number", Some NumberValue);
         ("object", Some ObjectValue); ("array", Some ArrayValue);
         ("function", Some FunctionValue); ("integral", Some IntegralValue)] None).
      intros r H.
      apply elem_of_cons in H as [H|H]; [left; congruence|]. right.
      apply elem_of_cons in H as [H|H]; [exists Shape.void; injection H as -> _; reflexivity|].
      apply elem_of_cons in H as [H|H]; [exists Shape.null; injection H as -> _; reflexivity|].
      apply elem_of_cons in H as [H|H]; [exists Shape.boolean; injection H as -> _; reflexivity|].
      apply elem_of_cons in H as [H|H]; [exists Shape.string_t; injection H as -> _; reflexivity|].
      apply elem_of_cons in H as [H|H]; [exists Shape.symbol; injection H as -> _; reflexivity|].
      apply elem_of_cons in H as [H|H]; [exists Shape.number; injection H as -> _; reflexivity|].
      apply elem_of_cons in H as [H|H]; [exists Shape.object_t; injection H as -> _; reflexivity|].
      apply elem_of_cons in H as [H|H]; [exists Shape.array; injection H as -> _; reflexivity|].
      apply elem_of_cons in H as [H|H]; [exists Shape.function; injection H as -> _; reflexivity|].
      apply elem_of_cons in H as [H|H]; [exists Shape.integral; injection H as -> _; reflexivity|].
      apply elem_of_nil in H as [].
    + intros [->|[t ->]]; [vm_compute; discriminate|]. destruct t; vm_compute; discriminate.
  - intros a b c Ha Hb. unfold getTypeFromName in Ha, Hb.
    eapply (switch_inj a b); [| | rewrite Ha, Hb; reflexivity | rewrite Ha; discriminate].
    + apply (bool_decide_unpack _). vm_compute. exact I.
    + apply (bool_decide_unpack _). vm_compute. exact I.
Qed.

(** X21: whatever the class hierarchy, a type that [typeToIRType] calls
    "undefined", "string", "boolean" or "number" has that same name for
    [typeToString], one it calls "null" is an "object" for [typeToString],
    and a type that [typeToString] has no name for is "unknown" or
    "integral" for [typeToIRType]. *)
Theorem typeToString_of_IR_type prototype_instanceof isTypeCompatibleWith (type : ValueType) :
  let IRType := typeToIRType prototype_instanceof type in
  let name := typeToString prototype_instanceof isTypeCompatibleWith type in
  (IRType ∈ ["undefined"; "string"; "boolean"; "number"] -> name = Some IRType)
  /\ (IRType = "null" -> name = Some "object")
  /\ (name = None -> IRType ∈ ["unknown"; "integral"]).
Proof.
  unfold typeToIRType, typeToString.
  destruct (isInstance prototype_instanceof type EmptyValue),
    (isInstance prototype_instanceof type UndefinedValue),
    (isInstance prototype_instanceof type NullValue),
    (isInstance prototype_instanceof type StringValue),
    (isInstance prototype_instanceof type BooleanValue),
    (isInstance prototype_instanceof type IntegralValue),
    (isInstance prototype_instanceof type NumberValue),
    (isInstance prototype_instanceof type SymbolValue),
    (isInstance prototype_instanceof type ObjectValue),
    (isTypeCompatibleWith type FunctionValue);
    cbv zeta; (split; [|split]); intros H;
    try reflexivity; try discriminate H; try in_list;
    cases_of H; discriminate H.
Qed.
End UtilsFacts.

(** ** The methods of ShapeInformation *)
Section ShapeMethodFacts.
Import Shape.
Implicit Types (universe : ShapeUniverse) (d : option ShapeDescriptor).
Implicit Types (this child : ShapeInformation).
#[local] Arguments switch : simpl never.

Lemma resolve_links_rtc universe fuel : forall d r,
  resolve_links fuel universe d = Some r ->
  rtc (follows universe) d r /\ link_name r = None.
Proof.
  induction fuel as [|fuel IH]; intros d r; simpl;
    destruct (link_name d) as [shapeName|] eqn:E; intros H; try discriminate.
  - injection H as <-. split; [reflexivity | exact E].
  - destruct (IH _ _ H) as [Hr Hl]. split; [|exact Hl].
    eapply rtc_l; [|exact Hr]. exists shapeName. split; [exact E | reflexivity].
  - injection H as <-. split; [reflexivity | exact E].
Qed.

Lemma resolveLinksAndWrap_inv fuel d parentDescription parentKey universe info :
  _resolveLinksAndWrap fuel d parentDescription parentKey universe = Some (Some info) ->
  resolve_links fuel universe d = Some (Some (_descriptor info))
  /\ _parentDescriptor info = parentDescription /\ _parentKey info = parentKey
  /\ _universe info = universe.
Proof.
  unfold _resolveLinksAndWrap. destruct (resolve_links fuel universe d) as [[r|]|]; simpl;
    intros H; try discriminate.
  injection H as <-. repeat split.
Qed.

(** X22: the shape that [_resolveLinksAndWrap] returns is never a link: its
    descriptor is what the chain of links from the given descriptor ends
    in, and its parent, key and universe are the ones given; when it
    returns undefined, the chain ends in an undefined descriptor. *)
Theorem resolveLinksAndWrap_wraps_the_end fuel d parentDescription parentKey universe :
  (forall info,
     _resolveLinksAndWrap fuel d parentDescription parentKey universe = Some (Some info) ->
     kind (_descriptor info) <> "link"
     /\ rtc (follows universe) d (Some (_descriptor info))
     /\ _parentDescriptor info = parentDescription /\ _parentKey info = parentKey
     /\ _universe info = universe)
  /\ (_resolveLinksAndWrap fuel d parentDescription parentKey universe = Some None ->
      rtc (follows universe) d None).
Proof.
  split.
  - intros info H. apply resolveLinksAndWrap_inv in H as (Hr & Hp & Hk & Hu).
    apply resolve_links_rtc in Hr as [Hr Hl]. repeat split; try assumption.
    destruct (_descriptor info); simpl in *; discriminate.
  - unfold _resolveLinksAndWrap.
    destruct (resolve_links fuel universe d) as [[r|]|] eqn:E; simpl; intros H;
      try discriminate.
    apply resolve_links_rtc in E as [Hr _]. exact Hr.
Qed.

(** X23: the shape that [getPropertyShape] returns for a key has the
    receiver's descriptor as its parent, and [_isOptional] reads its
    optional flag back from there: the flag of the property of that key
    for an object, and the flag of the element shape for an array,
    whatever the key. *)
Theorem getPropertyShape_isOptional fuel this key child :
  getPropertyShape fuel this key = Some (Some child) ->
  _parentDescriptor child = Some (_descriptor this)
  /\ _parentKey child = Some key
  /\ _universe child = _universe this
  /\ _isOptional child
     = match _descriptor this with
       | ObjectShape _ properties => optional_of <$> map_get properties key
       | ArrayShape _ elementShape => optional_of <$> elementShape
       | _ => None
       end.
Proof.
  unfold getPropertyShape.
  destruct (_getInformationForProperty this key) as [[shape o]|] eqn:E; [|discriminate].
  intros H. apply resolveLinksAndWrap_inv in H as (_ & Hp & Hk & Hu).
  repeat split; try assumption.
  unfold _isOptional. rewrite Hp, Hk. unfold _getInformationForProperty in E.
  destruct (_descriptor this) as [c properties|c elementShape|c n|c|c]; try discriminate.
  - rewrite E. reflexivity.
  - destruct elementShape; reflexivity.
Qed.

(** X24: the "length" of an array shape is an integral scalar whatever the
    element shape is, but it takes its optional flag from the element
    shape: its abstract type is [IntegralValue] when the elements are not
    optional, and plain [Value] when they are. *)
Theorem array_length_shape fuel this c elementShape :
  _descriptor this = ArrayShape c elementShape ->
  exists child,
    getPropertyShape fuel this "length" = Some (Some child)
    /\ _descriptor child = ScalarShape {| jsType := integral; graphQLType := None |}
    /\ _isOptional child = optional_of <$> elementShape
    /\ getAbstractType child
       = if default false (optional_of <$> elementShape) then Utils.Value
         else Utils.IntegralValue.
Proof.
  intros Hd. unfold getPropertyShape, _getInformationForProperty. rewrite Hd. simpl.
  unfold _resolveLinksAndWrap. destruct fuel; simpl; eexists; (split; [reflexivity|]);
    (split; [reflexivity|]); unfold getAbstractType, _isOptional; simpl;
    destruct elementShape as [[s [|]]|]; split; reflexivity.
Qed.

(** X25: [getAbstractType] answers plain [Value] exactly for a shape that
    is optional or whose type is "void" or "null"; for every other shape
    it is the class that [getTypeFromName] has for the shape's type, so
    that its fallback to [Value] is never taken. *)
Theorem getAbstractType_by_name this :
  let t := jsType (common_of (_descriptor this)) in
  (getAbstractType this = Utils.Value
     <-> _isOptional this = Some true \/ t = void \/ t = null)
  /\ (getAbstractType this <> Utils.Value ->
      Utils.getTypeFromName (type_name t) = Some (getAbstractType this)).
Proof.
  unfold getAbstractType.
  destruct (_isOptional this) as [[|]|], (jsType (common_of (_descriptor this)));
    cbv zeta; simpl; (split; [split|]); intros H;
    try reflexivity; try (left; reflexivity); try (right; left; reflexivity);
    try (right; right; reflexivity); try contradiction;
    try (exfalso; vm_compute in H; discriminate H);
    try (exfalso; destruct H as [H|[H|H]]; discriminate H).
Qed.

(** The getters that [_getAssociatedGetter] returns. *)
Lemma getter_range fuel : forall this getter,
  _getAssociatedGetter fuel this = Some (Some getter) ->
  getter ∈ ["tree"; "string"; "int"; "double"; "bool"] ++ list_getters
  /\ (kind (_descriptor this) = "array" -> getter ∈ list_getters).
Proof.
  assert (Hlist : forall g r : string,
            g ∈ ["tree"; "string"; "int"; "double"; "bool"] ++ list_getters ->
            switch g [("bool", Some "bool_list"); ("double", Some "double_list");
                      ("int", Some "int_list"); ("time", Some "time_list");
                      ("string", Some "string_list"); ("tree", Some "tree_list")] None
            = Some r -> r ∈ list_getters).
  { intros g r Hg. unfold list_getters in *. simpl in Hg.
    repeat (apply elem_of_cons in Hg as [->|Hg]); try (apply elem_of_nil in Hg as []);
      vm_compute; intros H; try discriminate H; injection H as <-; in_list. }
  induction fuel as [|fuel IH]; intros this getter; simpl;
    destruct (_descriptor this) as [c properties|c elementShape|c n|c|c] eqn:Hd; simpl;
    intros H; try discriminate H.
  - injection H as <-. split; [in_list | discriminate].
  - destruct (_resolveLinksAndWrap 0 _ _ _ _) as [[inner|]|]; simpl in H; discriminate H.
  - split; [|discriminate]. destruct (graphQLType c) as [g|]; [|discriminate H].
    injection H as H.
    match type of H with switch _ ?cases _ = _ =>
      destruct (switch_elem g cases None) as [E|E] end; [congruence|].
    rewrite H in E. cases_of E; injection E as _ <-; in_list.
  - injection H as <-. split; [in_list | discriminate].
  - injection H as <-. split; [in_list | discriminate].
  - destruct (_resolveLinksAndWrap (S fuel) _ _ _ _) as [[inner|]|]; simpl in H;
      try discriminate H.
    destruct (_getAssociatedGetter fuel inner) as [[g|]|] eqn:Hi; simpl in H;
      try discriminate H.
    injection H as H. destruct (IH _ _ Hi) as [Hg _].
    pose proof (Hlist g getter Hg H) as Hr.
    split; [|intros _; exact Hr]. do 5 apply list_elem_of_further. exact Hr.
  - split; [|discriminate]. destruct (graphQLType c) as [g|]; [|discriminate H].
    injection H as H.
    match type of H with switch _ ?cases _ = _ =>
      destruct (switch_elem g cases None) as [E|E] end; [congruence|].
    rewrite H in E. cases_of E; injection E as _ <-; in_list.
  - injection H as <-. split; [in_list | discriminate].
Qed.

(** X26: the getter of a shape is one of "tree", "string", "int", "double",
    "bool" and the five list getters, a list getter for an array; so
    "time" and "time_list" are never returned. *)
Theorem getAssociatedGetter_range fuel this getter :
  _getAssociatedGetter fuel this = Some (Some getter) ->
  getter ∈ ["tree"; "string"; "int"; "double"; "bool"] ++ list_getters
  /\ (kind (_descriptor this) = "array" -> getter ∈ list_getters)
  /\ getter <> "time" /\ getter <> "time_list".
Proof.
  intros H. destruct (getter_range fuel this getter H) as [Hr Ha].
  split; [exact Hr|]. split; [exact Ha|].
  unfold list_getters in Hr. simpl in Hr.
  split; intros ->; repeat (apply elem_of_cons in Hr as [Hr|Hr]; [discriminate Hr|]);
    apply elem_of_nil in Hr as [].
Qed.

(** X27: an array whose element shape resolves to an array has no getter:
    whenever [_getAssociatedGetter] returns for it, it returns undefined. *)
Theorem getAssociatedGetter_nested_array fuel this c elementShape inner r :
  _descriptor this = ArrayShape c elementShape ->
  _resolveLinksAndWrap fuel (shape_of <$> elementShape) (Some (_descriptor this)) None
    (_universe this) = Some (Some inner) ->
  kind (_descriptor inner) = "array" ->
  _getAssociatedGetter fuel this = Some r -> r = None.
Proof.
  intros Hd Hi Hk. destruct fuel as [|fuel]; simpl; rewrite Hd; simpl; rewrite <- Hd, Hi;
    simpl; [discriminate|].
  destruct (_getAssociatedGetter fuel inner) as [[g|]|] eqn:Hg; simpl; try discriminate.
  - destruct (getter_range fuel inner g Hg) as [_ Ha]. specialize (Ha Hk).
    unfold list_getters in Ha.
    repeat (apply elem_of_cons in Ha as [->|Ha]); try (apply elem_of_nil in Ha as []);
      vm_compute; congruence.
  - congruence.
Qed.

(** X28: for an array shape whose elements are links back to the array
    itself, the recursion of [_getAssociatedGetter] has no end: no bound
    on its depth gives a result. *)
Theorem getAssociatedGetter_self_array universe shapeName c c' optional :
  let self := ArrayShape c (Some (PropertyShape (LinkShape c' shapeName) optional)) in
  universe !! shapeName = Some self ->
  forall fuel parentDescriptor parentKey,
    _getAssociatedGetter fuel
      {| _descriptor := self; _parentDescriptor := parentDescriptor;
         _parentKey := parentKey; _universe := universe |} = None.
Proof.
  intros self Hself fuel. induction fuel as [|fuel IH]; intros p k.
  - reflexivity.
  - cbn [_getAssociatedGetter _descriptor _universe]. unfold self at 1.
    cbn [fmap option_fmap option_map shape_of].
    unfold _resolveLinksAndWrap. cbn [resolve_links link_name]. rewrite Hself.
    assert (Hend : resolve_links fuel universe (Some self) = Some (Some self))
      by (destruct fuel; reflexivity).
    rewrite Hend. simpl. rewrite IH. reflexivity.
Qed.

(** X29: only the shape of a property of an object that has a GraphQL
    type has a getter; the shapes that [createForArgument] and
    [createForReactComponentProps] return have no parent, hence no getter
    and no optional flag. *)
Theorem getGetter_needs_GraphQL_parent fuel this :
  (forall getter, getGetter fuel this = Some (Some getter) ->
     exists c properties,
       _parentDescriptor this = Some (ObjectShape c properties)
       /\ graphQLType c <> None
       /\ _getAssociatedGetter fuel this = Some (Some getter))
  /\ (forall fuel' model argname,
        createForArgument fuel' model argname = Some (Some this) ->
        getGetter fuel this = Some None /\ _isOptional this = None)
  /\ (forall fuel' model,
        createForReactComponentProps fuel' model = Some (Some this) ->
        getGetter fuel this = Some None /\ _isOptional this = None).
Proof.
  split; [|split].
  - intros getter. unfold getGetter.
    destruct (_parentDescriptor this) as [[c properties|c e|c n|c|c]|]; simpl;
      try (destruct (bool_decide (graphQLType c <> None)); simpl; discriminate);
      try discriminate.
    destruct (bool_decide (graphQLType c <> None)) eqn:E; simpl; [|discriminate].
    intros H. exists c, properties. apply bool_decide_eq_true_1 in E. repeat split; assumption.
  - intros fuel' [model|] argname; simpl; [|discriminate].
    intros H. apply resolveLinksAndWrap_inv in H as (_ & Hp & _ & _).
    unfold getGetter, _isOptional. rewrite Hp. split; reflexivity.
  - intros fuel' [model|]; simpl; [|discriminate].
    intros H. apply resolveLinksAndWrap_inv in H as (_ & Hp & _ & _).
    unfold getGetter, _isOptional. rewrite Hp. split; reflexivity.
Qed.

(** X30: [createForArgument] returns undefined without a model.  With a
    model, and an argument name that is no member of [Object.prototype]:
    for a name that is no argument of the model it resolves
    [universe[undefined]], the shape called "undefined", and so returns
    undefined unless the universe has such a shape; for an argument whose
    shape name is no member of [Object.prototype] either and is missing
    from the universe it returns undefined. *)
Theorem createForArgument_missing fuel (model : ArgModel) argname :
  createForArgument fuel None argname = Some None
  /\ (argname ∉ Object_prototype_names ->
      arguments model !! argname = None ->
      createForArgument fuel (Some model) argname
      = _resolveLinksAndWrap fuel (am_universe model !! "undefined") None None
          (am_universe model)
      /\ (am_universe model !! "undefined" = None ->
          createForArgument fuel (Some model) argname = Some None))
  /\ (forall shapeName,
        argname ∉ Object_prototype_names -> shapeName ∉ Object_prototype_names ->
        arguments model !! argname = Some shapeName ->
        am_universe model !! shapeName = None ->
        createForArgument fuel (Some model) argname = Some None).
Proof.
  split; [reflexivity|]. unfold createForArgument, lookup_name. split.
  - intros _ ->. split; [reflexivity|].
    intros Hu. simpl. rewrite Hu. destruct fuel; reflexivity.
  - intros shapeName _ _ -> Hu. simpl. rewrite Hu. destruct fuel; reflexivity.
Qed.

End ShapeMethodFacts.

(** ** The properties of utils.js and ShapeInformation on sample inputs *)
Section ShapeWitnesses.
Import Shape.

(** X19 on a string that is no operator, and on "<=". *)
Lemma getOpString_names_witness :
Utils.getOpString "%" = "__not_supported__" /\ ("<=" : string) = "<=".
Proof.
split.
- apply (proj1 getOpString_names "%"). unfold Utils.supported_operators.
  intros H. cases_of H; discriminate H.
- apply (proj2 getOpString_names "<=" "<=").
  + unfold Utils.supported_operators. in_list.
  + reflexivity.
Defined.

(** X20 on the name "integral", and on "void" against "void". *)
Lemma getTypeFromName_names_witness :
Utils.getTypeFromName "integral" <> None /\ ("void" : string) = "void".
Proof.
split.
- apply (proj1 getTypeFromName_names "integral"). right. exists integral. reflexivity.
- apply (proj2 getTypeFromName_names "void" "void" Utils.UndefinedValue); reflexivity.
Defined.

(** X21 on the class of numbers, in the sample hierarchy. *)
Lemma typeToString_of_IR_type_witness :
Utils.typeToString Utils.sample_instanceof Utils.sample_compatible Utils.NumberValue
= Some "number".
Proof.
apply (proj1 (typeToString_of_IR_type Utils.sample_instanceof Utils.sample_compatible
                Utils.NumberValue)).
vm_compute. in_list.
Defined.

(** X22 on the link B of [two_shapes], which leads to the scalar C. *)
Lemma resolveLinksAndWrap_wraps_the_end_witness :
rtc (follows two_shapes) (two_shapes !! "B") (Some (ScalarShape common)).
Proof.
set (info := {| _descriptor := ScalarShape common; _parentDescriptor := None;
                _parentKey := None; _universe := two_shapes |}).
assert (Hrun : _resolveLinksAndWrap 1 (two_shapes !! "B") None None two_shapes
               = Some (Some info)) by reflexivity.
destruct (proj1 (resolveLinksAndWrap_wraps_the_end 1 (two_shapes !! "B") None None
                   two_shapes) info Hrun) as (_ & Hr & _).
exact Hr.
Defined.

(** X23 on the optional property "nick" of the user object. *)
Lemma getPropertyShape_isOptional_witness :
let child := {| _descriptor := string_scalar; _parentDescriptor := Some user_object;
                _parentKey := Some "nick"; _universe := users |} in
getPropertyShape 1 user_info "nick" = Some (Some child)
/\ _isOptional child = Some true.
Proof.
intros child.
assert (Hrun : getPropertyShape 1 user_info "nick" = Some (Some child)) by reflexivity.
split; [exact Hrun|].
destruct (getPropertyShape_isOptional 1 user_info "nick" child Hrun) as (_ & _ & _ & Ho).
exact Ho.
Defined.

(** X24 on an array of optional names. *)
Lemma array_length_shape_witness :
exists child,
  getPropertyShape 0
    {| _descriptor := names_array true; _parentDescriptor := None; _parentKey := None;
       _universe := users |} "length" = Some (Some child)
  /\ getAbstractType child = Utils.Value.
Proof.
destruct (array_length_shape 0
            {| _descriptor := names_array true; _parentDescriptor := None;
               _parentKey := None; _universe := users |} _ _ eq_refl)
  as (child & Hrun & _ & _ & Ht).
exists child. split; [exact Hrun | exact Ht].
Defined.

(** X25 on the user object. *)
Lemma getAbstractType_by_name_witness :
Utils.getTypeFromName "object" = Some (getAbstractType user_info).
Proof.
apply (proj2 (getAbstractType_by_name user_info)). vm_compute. discriminate.
Defined.

(** X26 on the array of names. *)
Lemma getAssociatedGetter_range_witness :
let names := {| _descriptor := names_array false; _parentDescriptor := Some user_object;
                _parentKey := Some "names"; _universe := users |} in
_getAssociatedGetter 2 names = Some (Some "string_list")
/\ ("string_list" : string) ∈ list_getters.
Proof.
intros names.
assert (Hrun : _getAssociatedGetter 2 names = Some (Some "string_list")) by reflexivity.
split; [exact Hrun|].
destruct (getAssociatedGetter_range 2 names "string_list" Hrun) as (_ & Ha & _).
apply Ha. reflexivity.
Defined.

(** X27 on an array of arrays of names. *)
Lemma getAssociatedGetter_nested_array_witness :
let this := {| _descriptor := matrix; _parentDescriptor := None; _parentKey := None;
               _universe := users |} in
_getAssociatedGetter 3 this = Some None.
Proof.
intros this.
set (inner := {| _descriptor := names_array false; _parentDescriptor := Some matrix;
                 _parentKey := None; _universe := users |}).
assert (Hi : _resolveLinksAndWrap 3 (shape_of <$> Some (PropertyShape (names_array false)
                                                          false))
               (Some (_descriptor this)) None (_universe this) = Some (Some inner))
  by reflexivity.
assert (Hrun : exists r, _getAssociatedGetter 3 this = Some r) by (eexists; reflexivity).
destruct Hrun as [r Hrun]. rewrite Hrun. f_equal.
apply (getAssociatedGetter_nested_array 3 this _ _ inner r eq_refl Hi eq_refl Hrun).
Defined.

(** X28 on the universe whose array L holds links to L, with a bound of
  a hundred. *)
Lemma getAssociatedGetter_self_array_witness :
_getAssociatedGetter 100
  {| _descriptor := ArrayShape {| jsType := array; graphQLType := None |}
                      (Some (PropertyShape (LinkShape common "L") false));
     _parentDescriptor := None; _parentKey := None; _universe := self_array |} = None.
Proof.
assert (HL : self_array !! "L"
             = Some (ArrayShape {| jsType := array; graphQLType := None |}
                       (Some (PropertyShape (LinkShape common "L") false))))
  by reflexivity.
apply (getAssociatedGetter_self_array self_array "L" _ common false HL 100 None None).
Defined.

(** X29 on the shape made for the argument "user". *)
Lemma getGetter_needs_GraphQL_parent_witness :
getGetter 1 user_info = Some None /\ _isOptional user_info = None.
Proof.
apply (proj1 (proj2 (getGetter_needs_GraphQL_parent 1 user_info)) 1 (Some user_model)
         "user").
reflexivity.
Defined.

(** X30 on an argument that the model does not have, in a universe with
  no shape called "undefined". *)
Lemma createForArgument_missing_witness :
createForArgument 0 (Some user_model) "nobody" = Some None.
Proof.
apply (proj1 (proj2 (createForArgument_missing 0 user_model "nobody"))).
- unfold Object_prototype_names. intros H. cases_of H; discriminate H.
- reflexivity.
- reflexivity.
Defined.
End ShapeWitnesses.
